(** * SAP Community scraper: page-content extraction engine

    A shallow embedding of [src/scraper/sap_community_scraper.py] and the
    properties of its specification.

    Layout:
    - [Py]: Python values the code computes with (strings as sequences of
      code points, exceptions, truthiness, the string methods used).
    - [Re]: the fragment of Python's [re] the source patterns are written in,
      as a backtracking matcher.
    - [Bs4]: the parsed document as BeautifulSoup exposes it (a tree of
      [Tag] objects with identity, and string nodes), with the [find],
      [find_all], [get_text], [select] and [decompose] operations.
    - [Json]: the values [json.loads] returns.
    - [Scraper]: the functions of the source file, in source order; the
      mutable state of [extract_flat_qna] (the document, the [Answer]
      objects and the identifier map) is passed explicitly.
    - [Trace]: what one run of the deduplication loop observes at each
      container, and the vocabulary the properties are stated in.
    - [Examples]: concrete pages.
    - [Crawler]: the functions that talk to the network ([http_get],
      [parse_sitemap], [scrape_from_sitemaps]), over an oracle for the
      network and a list of the events of a run.
    - [Shapes]: the vocabulary of the further properties.
    - [CrawlExamples]: a small network, and a crawl of it.
    - the theorems: those of the specification first, then further
      properties of the code. *)

From stdpp Require Import base list strings gmap.
From Stdlib Require Import ZArith NArith Ascii.
From Stdlib Require QArith_base.

Set Default Proof Using "Type".
Set Warnings "-register-all,-clear-no-such-hyp".

(* ===================================================================== *)
(** * Python values *)
(* ===================================================================== *)

Module Py.

(** A Python [str] is a sequence of Unicode code points. *)
Abbreviation char := N (only parsing).
Abbreviation str := (list N) (only parsing).

(** An ASCII literal of the source as a [str]. *)
Definition lit (s : string) : str :=
  (fun a : ascii => N_of_ascii a) <$> String.list_ascii_of_string s.
Arguments lit : simpl never.

(** A character literal of the source. *)
Definition ch (a : ascii) : char := N_of_ascii a.

(** The string ["\n"]. *)
Definition NL : str := [10%N].

(** Exceptions, and a computation that returns or raises. *)
Inductive exn :=
| AttributeError | TypeError | KeyError | ValueError | JSONDecodeError | UrlError.

Inductive result (A : Type) : Type :=
| Ok (a : A)
| Raise (e : exn).
Arguments Ok {A} a.
Arguments Raise {A} e.

#[global] Instance result_ret : MRet result := fun A a => Ok a.
#[global] Instance result_bind : MBind result := fun A B f m =>
  match m with Ok a => f a | Raise e => Raise e end.

(** [try: body / except Exception: handler]. *)
Definition try_except {A} (body : result A) (handler : result A) : result A :=
  match body with Ok a => Ok a | Raise _ => handler end.

(** The character classes and case mappings of the Unicode database that
    Python's [str] methods and [re] consult.  The development is generic in
    them; [ascii_unicode] below is the instance used to run examples. *)
Class Unicode := {
  isspace : char → bool;        (* str.isspace(), [\s] *)
  isdecimal : char → bool;      (* [\d] *)
  isword : char → bool;         (* [\w] *)
  lower : str → str;            (* str.lower() *)
  ieq : char → char → bool;     (* equality of characters under re.IGNORECASE *)
  digit_value : char → Z        (* int() of a decimal digit *)
}.

Definition str_eqb (a b : str) : bool := bool_decide (a = b).

(** Truthiness of an [Optional[str]]: neither [None] nor the empty string. *)
Definition truthy (o : option str) : bool :=
  match o with Some (_ :: _) => true | _ => false end.

Fixpoint startswith (p s : str) : bool :=
  match p, s with
  | [], _ => true
  | a :: p', b :: s' => (a =? b)%N && startswith p' s'
  | _ :: _, [] => false
  end.

Definition endswith (p s : str) : bool := startswith (reverse p) (reverse s).

(** [needle in hay]. *)
Fixpoint contains (needle hay : str) : bool :=
  startswith needle hay ||
  match hay with
  | [] => false
  | _ :: hay' => contains needle hay'
  end.

(** [sep.join(parts)]. *)
Fixpoint join (sep : str) (parts : list str) : str :=
  match parts with
  | [] => []
  | [p] => p
  | p :: ps => p ++ sep ++ join sep ps
  end.

(** [s.replace(old, new)] for a one-character [old]. *)
Definition replace_char (old : char) (new : str) (s : str) : str :=
  s ≫= (fun c => if (c =? old)%N then new else [c]).

Section WithUnicode.
Context {U : Unicode}.

Fixpoint lstrip (s : str) : str :=
  match s with
  | c :: s' => if isspace c then lstrip s' else s
  | [] => []
  end.

Definition rstrip (s : str) : str := reverse (lstrip (reverse s)).

(** [s.strip()]. *)
Definition strip (s : str) : str := rstrip (lstrip s).

(** The maximal runs of non-whitespace characters of [s], as bs4 splits a
    multi-valued attribute ([\S+]). *)
Fixpoint tokens_aux (cur : str) (s : str) : list str :=
  match s with
  | [] => match cur with [] => [] | _ => [reverse cur] end
  | c :: s' =>
      if isspace c
      then match cur with [] => tokens_aux [] s' | _ => reverse cur :: tokens_aux [] s' end
      else tokens_aux (c :: cur) s'
  end.

Definition tokens (s : str) : list str := tokens_aux [] s.

(** [int(s)] for a string of decimal digits: the value of the conversion.
    CPython refuses a string of more than 4300 digits with [ValueError]
    (the default of [sys.set_int_max_str_digits]); this limit is not
    modelled. *)
Definition int_of_digits (s : str) : Z :=
  foldl (fun acc c => (acc * 10 + digit_value c)%Z) 0%Z s.

End WithUnicode.

(** [str(n)] for a natural number, and [s.zfill(width)]. *)
Fixpoint decimal_aux (fuel : nat) (n : N) (acc : str) : str :=
  match fuel with
  | O => acc
  | S fuel' =>
      let acc := (48 + n mod 10)%N :: acc in
      if (n / 10 =? 0)%N then acc else decimal_aux fuel' (n / 10)%N acc
  end.

Definition decimal (n : N) : str := decimal_aux (S (N.to_nat (N.log2 n))) n [].

Definition zfill (width : nat) (s : str) : str := replicate (width - length s) 48%N ++ s.

(** ASCII letters only: what soupsieve's [util.lower] does, and the
    letter-case part of [ascii_unicode]. *)
Definition ascii_lower_char (c : char) : char :=
  if (65 <=? c)%N && (c <=? 90)%N then (c + 32)%N else c.

Definition ascii_lower (s : str) : str := ascii_lower_char <$> s.

Definition in_range (lo hi c : N) : bool := (lo <=? c)%N && (c <=? hi)%N.

(** Whitespace as [str.isspace] has it. *)
Definition unicode_isspace (c : char) : bool :=
  in_range 9 13 c || in_range 28 32 c || (c =? 133)%N || (c =? 160)%N
  || (c =? 5760)%N || in_range 8192 8202 c || (c =? 8232)%N || (c =? 8233)%N
  || (c =? 8239)%N || (c =? 8287)%N || (c =? 12288)%N.

(** The instance used to evaluate examples: exact on whitespace, and on
    digits, word characters and letter case within ASCII. *)
Definition ascii_unicode : Unicode := {|
  isspace := unicode_isspace;
  isdecimal := in_range 48 57;
  isword c := in_range 48 57 c || in_range 65 90 c || in_range 97 122 c || (c =? 95)%N;
  lower := ascii_lower;
  ieq a b := (ascii_lower_char a =? ascii_lower_char b)%N;
  digit_value c := (Z.of_N c - 48)%Z
|}.

End Py.
Export Py.

(* ===================================================================== *)
(** * Regular expressions *)
(* ===================================================================== *)

(** The constructs of Python's [re] that the source patterns use, with the
    semantics of the backtracking engine: alternatives are tried left to
    right, repetition is greedy, and the first match found is the match. *)
Module Re.

Inductive regex :=
| Eps
| Chr (c : char)                 (* a literal character *)
| Cls (cs : list char)           (* [...] *)
| Rng (lo hi : char)             (* [lo-hi] *)
| Digit                          (* \d *)
| Space                          (* \s *)
| Seq (r1 r2 : regex)
| Alt (r1 r2 : regex)            (* r1|r2 *)
| Star (r : regex)               (* r* *)
| Group (r : regex)              (* (r), the capturing group 1 *)
| WordB                          (* \b *)
| Bol                            (* ^ *)
| Eol.                           (* $ *)

Definition Plus (r : regex) : regex := Seq r (Star r).
Definition Opt (r : regex) : regex := Alt r Eps.
Definition Seqs (rs : list regex) : regex := foldr Seq Eps rs.
Definition Rep (n : nat) (r : regex) : regex := Seqs (replicate n r).   (* r{n} *)
Definition Lit (s : string) : regex := Seqs (Chr <$> lit s).
Fixpoint Alts (rs : list regex) : regex :=
  match rs with
  | [] => Cls []
  | [r] => r
  | r :: rs' => Alt r (Alts rs')
  end.

(** A match: the text after it, and what group 1 captured. *)
Definition matched : Type := str * option str.

Section Engine.
Context {U : Unicode}.
(** [ic]: the pattern was compiled with [re.I]. *)
Variable ic : bool.

Definition is_word_at (c : option char) : bool :=
  match c with Some a => isword a | None => false end.

(** [go r prev s g k]: match [r] at the front of [s], where [prev] is the
    character before the current position, [g] the capture so far, and [k]
    the rest of the pattern. *)
Fixpoint go (r : regex) (prev : option char) (s : str) (g : option str)
    (k : option char → str → option str → option matched) : option matched :=
  match r with
  | Eps => k prev s g
  | Chr c =>
      match s with
      | a :: s' => if (if ic then ieq a c else (a =? c)%N) then k (Some a) s' g else None
      | [] => None
      end
  | Cls cs =>
      match s with
      | a :: s' => if existsb (N.eqb a) cs then k (Some a) s' g else None
      | [] => None
      end
  | Rng lo hi =>
      match s with
      | a :: s' => if (lo <=? a)%N && (a <=? hi)%N then k (Some a) s' g else None
      | [] => None
      end
  | Digit =>
      match s with
      | a :: s' => if isdecimal a then k (Some a) s' g else None
      | [] => None
      end
  | Space =>
      match s with
      | a :: s' => if isspace a then k (Some a) s' g else None
      | [] => None
      end
  | Seq r1 r2 => go r1 prev s g (fun p s' g' => go r2 p s' g' k)
  | Alt r1 r2 =>
      match go r1 prev s g k with
      | Some x => Some x
      | None => go r2 prev s g k
      end
  | Star r' =>
      (fix star (n : nat) (prev : option char) (s : str) (g : option str) : option matched :=
         match n with
         | O => k prev s g
         | S n' =>
             match go r' prev s g
                     (fun p s' g' => if decide (length s' < length s)
                                     then star n' p s' g' else None) with
             | Some x => Some x
             | None => k prev s g
             end
         end) (S (length s)) prev s g
  | Group r' =>
      go r' prev s g (fun p s' _ => k p s' (Some (take (length s - length s') s)))
  | WordB =>
      if xorb (is_word_at prev) (is_word_at (head s)) then k prev s g else None
  | Bol => match prev with None => k prev s g | Some _ => None end
  | Eol =>
      match s with
      | [] => k prev s g
      | [c] => if (c =? 10)%N then k prev s g else None
      | _ => None
      end
  end.

Definition match_here (r : regex) (prev : option char) (s : str) : option matched :=
  go r prev s None (fun _ rest g => Some (rest, g)).

(** [re.match(r, s)]. *)
Definition re_match (r : regex) (s : str) : option matched := match_here r None s.

(** [re.search(r, s)]: the leftmost match. *)
Fixpoint search_from (r : regex) (prev : option char) (s : str) : option matched :=
  match match_here r prev s with
  | Some x => Some x
  | None =>
      match s with
      | [] => None
      | c :: s' => search_from r (Some c) s'
      end
  end.

Definition re_search (r : regex) (s : str) : option matched := search_from r None s.

Definition found (r : regex) (s : str) : bool := bool_decide (is_Some (re_search r s)).

(** [m.group(1)] of the leftmost match, if any. *)
Definition search_group1 (r : regex) (s : str) : option str :=
  re_search r s ≫= snd.

(** [m.group(0)] of the leftmost match, if any. *)
Fixpoint search_group0_from (r : regex) (prev : option char) (s : str) : option str :=
  match match_here r prev s with
  | Some (rest, _) => Some (take (length s - length rest) s)
  | None =>
      match s with
      | [] => None
      | c :: s' => search_group0_from r (Some c) s'
      end
  end.

Definition search_group0 (r : regex) (s : str) : option str := search_group0_from r None s.

(** [re.sub(r, repl, s)]: every non-overlapping match, left to right, is
    replaced; [skip] counts the characters of the current match still to be
    dropped. *)
Fixpoint sub_from (r : regex) (repl : str) (prev : option char) (s : str) (skip : nat) : str :=
  match skip with
  | S n =>
      match s with
      | c :: s' => sub_from r repl (Some c) s' n
      | [] => []
      end
  | O =>
      match match_here r prev s with
      | Some (rest, _) =>
          repl ++
          match s with
          | [] => []
          | c :: s' =>
              match length s - length rest with
              | O => c :: sub_from r repl (Some c) s' 0
              | S n => sub_from r repl (Some c) s' n
              end
          end
      | None =>
          match s with
          | [] => []
          | c :: s' => c :: sub_from r repl (Some c) s' 0
          end
      end
  end.

Definition re_sub (r : regex) (repl : str) (s : str) : str := sub_from r repl None s 0.

End Engine.

End Re.
Export Re.

(* ===================================================================== *)
(** * The parsed document *)
(* ===================================================================== *)

(** The tree BeautifulSoup builds with the lxml parser, and the operations
    of bs4 and soupsieve the scraper calls.  A [Tag] is a Python object: it
    carries its identity [oid], and the scraper holds references (the
    identities) across calls that change the tree. *)
Module Bs4.

(** The class of a string node.  [KText] is [NavigableString] (and
    [CData]); [KComment] stands for [Comment] and the other preformatted
    strings; the remaining ones are the containers bs4 uses for the text
    inside [script], [style], [template], [rt] and [rp]. *)
Inductive string_kind :=
| KText | KComment | KScript | KStylesheet | KTemplate | KRubyText | KRubyParen.

#[global] Instance string_kind_eq_dec : EqDecision string_kind.
Proof. solve_decision. Defined.

Definition oid := nat.

Inductive node :=
| NavigableString (k : string_kind) (s : str)
| Tag (id : oid) (name : str) (attrs : list (str * str)) (contents : list node).

(** The document is the [BeautifulSoup] object, itself a [Tag]. *)
Definition soup := node.

Definition is_tag (n : node) : bool :=
  match n with Tag _ _ _ _ => true | NavigableString _ _ => false end.

Definition tag_oid (n : node) : option oid :=
  match n with Tag o _ _ _ => Some o | NavigableString _ _ => None end.

Definition tag_name (n : node) : str :=
  match n with Tag _ nm _ _ => nm | NavigableString _ _ => [] end.

Definition tag_attrs (n : node) : list (str * str) :=
  match n with Tag _ _ a _ => a | NavigableString _ _ => [] end.

(** [n.children]. *)
Definition children (n : node) : list node :=
  match n with Tag _ _ _ cs => cs | NavigableString _ _ => [] end.

Definition has_oid (o : oid) (n : node) : bool :=
  match n with Tag o' _ _ _ => bool_decide (o' = o) | NavigableString _ _ => false end.

Definition name_in (names : list str) (n : node) : bool :=
  is_tag n && bool_decide (tag_name n ∈ names).

Fixpoint lookup_attr (k : str) (attrs : list (str * str)) : option str :=
  match attrs with
  | [] => None
  | (k', v) :: rest => if str_eqb k' k then Some v else lookup_attr k rest
  end.

(** [n.get(k)] and [n.has_attr(k)], for an attribute whose value is a string. *)
Definition get (n : node) (k : str) : option str := lookup_attr k (tag_attrs n).
Definition has_attr (n : node) (k : str) : bool := bool_decide (is_Some (get n k)).

(** The attributes bs4 stores as a list of whitespace-separated values. *)
Definition multi_valued (tag attr : str) : bool :=
  bool_decide (attr ∈ [lit "class"; lit "accesskey"; lit "dropzone"])
  || bool_decide (tag ∈ [lit "a"; lit "link"] ∧ attr ∈ [lit "rel"; lit "rev"])
  || bool_decide (tag ∈ [lit "td"; lit "th"] ∧ attr = lit "headers")
  || bool_decide ((tag, attr) ∈ [(lit "form", lit "accept-charset"); (lit "object", lit "archive");
                                 (lit "area", lit "rel"); (lit "icon", lit "sizes");
                                 (lit "iframe", lit "sandbox"); (lit "output", lit "for")]).

(** The nodes below [n] in document order, [n] excluded ([n.descendants]). *)
Fixpoint descendants (n : node) : list node :=
  match n with
  | NavigableString _ _ => []
  | Tag _ _ _ cs =>
      (fix kids (cs : list node) : list node :=
         match cs with
         | [] => []
         | c :: cs' => c :: descendants c ++ kids cs'
         end) cs
  end.

(** The tags below [n] in document order, each with its ancestors, nearest
    first; [ancs] are the ancestors of [n] itself. *)
Fixpoint tags_below (ancs : list node) (n : node) : list (node * list node) :=
  match n with
  | NavigableString _ _ => []
  | Tag _ _ _ cs =>
      (fix kids (cs : list node) : list (node * list node) :=
         match cs with
         | [] => []
         | c :: cs' =>
             (if is_tag c then (c, n :: ancs) :: tags_below (n :: ancs) c else [])
             ++ kids cs'
         end) cs
  end.

Definition all_tags (root : soup) : list (node * list node) :=
  (root, []) :: tags_below [] root.

(** The object a reference denotes in the current tree, with its ancestors;
    [None] once it has been decomposed. *)
Definition locate (root : soup) (o : oid) : option (node * list node) :=
  head (filter (fun p => has_oid o p.1) (all_tags root)).

Definition deref (root : soup) (o : oid) : option node := fst <$> locate root o.

(** [n.find_all(...)] and [n.find(...)] for a test [p] on nodes. *)
Definition find_all (p : node → bool) (n : node) : list node := filter p (descendants n).
Definition find (p : node → bool) (n : node) : option node := head (find_all p n).

(** [n.find_all(name, recursive=False)]. *)
Definition find_all_children (names : list str) (n : node) : list node :=
  filter (name_in names) (children n).

(** [n.string]. *)
Fixpoint tag_string (n : node) : option str :=
  match n with
  | NavigableString _ s => Some s
  | Tag _ _ _ [c] => tag_string c
  | Tag _ _ _ _ => None
  end.

(** The string classes [get_text] collects below a tag of the given name. *)
Definition interesting_string_types (name : str) : list string_kind :=
  if str_eqb name (lit "script") then [KScript]
  else if str_eqb name (lit "style") then [KStylesheet]
  else if str_eqb name (lit "template") then [KTemplate]
  else if str_eqb name (lit "rt") then [KRubyText]
  else if str_eqb name (lit "rp") then [KRubyParen]
  else [KText].

(** Removing every tag with identity [o] below [n] ([Tag.decompose]). *)
Fixpoint remove (o : oid) (n : node) : node :=
  match n with
  | NavigableString _ _ => n
  | Tag o' nm at_ cs =>
      Tag o' nm at_
        ((fix kids (cs : list node) : list node :=
            match cs with
            | [] => []
            | c :: cs' => if has_oid o c then kids cs' else remove o c :: kids cs'
            end) cs)
  end.

Definition decompose (root : soup) (o : oid) : soup := remove o root.

Section WithUnicode.
Context {U : Unicode}.

(** [n.get(k, [])] for a multi-valued attribute such as [class]. *)
Definition get_list (n : node) (k : str) : list str :=
  match get n k with Some v => tokens v | None => [] end.

(** The strings [get_text] joins: the descendants of an interesting class,
    each stripped and dropped if empty when [strip] is set. *)
Definition all_strings (strip_ : bool) (n : node) : list str :=
  omap (fun d =>
          match d with
          | NavigableString k s =>
              if bool_decide (k ∈ interesting_string_types (tag_name n))
              then if strip_
                   then match strip s with [] => None | s' => Some s' end
                   else Some s
              else None
          | Tag _ _ _ _ => None
          end) (descendants n).

(** [n.get_text(sep, strip=strip_)]. *)
Definition get_text (sep : str) (strip_ : bool) (n : node) : str :=
  join sep (all_strings strip_ n).

(** How bs4 tests an attribute against a compiled pattern: absent never
    matches; a multi-valued attribute matches when one of its values does,
    or the values joined by spaces do. *)
Definition attr_found (ic : bool) (r : regex) (k : str) (n : node) : bool :=
  match get n k with
  | None => false
  | Some v =>
      if multi_valued (tag_name n) k
      then existsb (found ic r) (tokens v) || found ic r (join (lit " ") (tokens v))
      else found ic r v
  end.

(** How bs4 tests an attribute against a string. *)
Definition attr_is (v : str) (k : str) (n : node) : bool :=
  match get n k with
  | None => false
  | Some v' =>
      if multi_valued (tag_name n) k
      then existsb (str_eqb v) (tokens v') || str_eqb v (join (lit " ") (tokens v'))
      else str_eqb v v'
  end.

(** [n.find(string=r)]: the first string node below [n], of any class, in
    which [r] is found. *)
Definition find_string (ic : bool) (r : regex) (n : node) : option str :=
  head (omap (fun d => match d with
                       | NavigableString _ s => if found ic r s then Some s else None
                       | Tag _ _ _ _ => None
                       end) (descendants n)).

(** ** Selectors (soupsieve) *)

Inductive attr_test :=
| AHas                      (* [k] *)
| APrefix (v : str)         (* [k^="v"] *)
| AContains (v : str)       (* [k*="v"] *)
| AWord (v : str).          (* [k~="v"] *)

(** A compound selector: [name.class1.class2[attr...]], the name optional. *)
Record compound := {
  c_name : option str;
  c_classes : list str;
  c_attrs : list (str * attr_test)
}.

(** A complex selector: compounds separated by the descendant combinator,
    outermost first.  A selector: a comma-separated list of them. *)
Definition complex := list compound.
Definition selector := list complex.

(** The value soupsieve tests: a multi-valued attribute joined by spaces. *)
Definition css_value (n : node) (k : str) : option str :=
  (fun v => if multi_valued (tag_name n) k then join (lit " ") (tokens v) else v) <$> get n k.

Definition css_whitespace : list char := [32; 9; 13; 10; 12]%N.

(** Splitting at the ASCII whitespace of the [~=] test. *)
Fixpoint css_words_aux (cur : str) (s : str) : list str :=
  match s with
  | [] => [reverse cur]
  | c :: s' =>
      if bool_decide (c ∈ css_whitespace)
      then reverse cur :: css_words_aux [] s'
      else css_words_aux (c :: cur) s'
  end.

Definition attr_test_holds (n : node) (kt : str * attr_test) : bool :=
  match css_value n kt.1, kt.2 with
  | None, _ => false
  | Some _, AHas => true
  | Some v, APrefix p => match p with [] => false | _ => startswith p v end
  | Some v, AContains p => match p with [] => false | _ => contains p v end
  | Some v, AWord w =>
      match w with
      | [] => false
      | _ => bool_decide (w ∈ css_words_aux [] v)
      end
  end.

Definition matches_compound (c : compound) (n : node) : bool :=
  is_tag n
  && match c_name c with
     | Some nm => str_eqb (ascii_lower (tag_name n)) nm
     | None => true
     end
  && forallb (fun cl => bool_decide (cl ∈ get_list n (lit "class"))) (c_classes c)
  && forallb (attr_test_holds n) (c_attrs c).

(** [cs]: the compounds still to be matched, innermost first, against the
    ancestors [ancs], nearest first. *)
Fixpoint matches_ancestors (cs : list compound) (ancs : list node) : bool :=
  match cs with
  | [] => true
  | c :: cs' =>
      (fix up (ancs : list node) : bool :=
         match ancs with
         | [] => false
         | a :: ancs' => (matches_compound c a && matches_ancestors cs' ancs') || up ancs'
         end) ancs
  end.

Definition matches_complex (cx : complex) (n : node) (ancs : list node) : bool :=
  match reverse cx with
  | [] => false
  | c :: outer => matches_compound c n && matches_ancestors outer ancs
  end.

Definition matches_selector (sel : selector) (p : node * list node) : bool :=
  existsb (fun cx => matches_complex cx p.1 p.2) sel.

(** [scope.select(sel)]: the tags below [scope] that match, in document
    order, as references.  Ancestors above [scope] take part in the match. *)
Definition select_tags (sel : selector) (scope : node) (ancs : list node)
    : list (node * list node) :=
  filter (matches_selector sel) (tags_below ancs scope).

Definition select_below (sel : selector) (scope : node) (ancs : list node) : list oid :=
  omap (fun p => tag_oid p.1) (select_tags sel scope ancs).

(** [scope.select_one(sel)]. *)
Definition select_one (sel : selector) (scope : node) (ancs : list node) : option node :=
  fst <$> head (select_tags sel scope ancs).

(** [soup.select(sel)]. *)
Definition select (sel : selector) (root : soup) : list oid := select_below sel root [].

(** ** Equality of tags ([Tag.__eq__]): same name, same attributes, equal
    contents; two string nodes are equal when their text is. *)

Definition attr_value_eqb (tag k : str) (v1 v2 : str) : bool :=
  if multi_valued tag k then bool_decide (tokens v1 = tokens v2) else str_eqb v1 v2.

Definition attrs_eqb (tag : str) (a1 a2 : list (str * str)) : bool :=
  forallb (fun k => match lookup_attr k a1, lookup_attr k a2 with
                    | Some v1, Some v2 => attr_value_eqb tag k v1 v2
                    | _, _ => false
                    end) ((a1 ++ a2).*1).

Fixpoint node_eqb (a b : node) : bool :=
  match a, b with
  | NavigableString _ s1, NavigableString _ s2 => str_eqb s1 s2
  | Tag o1 n1 a1 cs1, Tag o2 n2 a2 cs2 =>
      bool_decide (o1 = o2)
      || (str_eqb n1 n2 && attrs_eqb n1 a1 a2 &&
          (fix all2 (xs ys : list node) : bool :=
             match xs, ys with
             | [], [] => true
             | x :: xs', y :: ys' => node_eqb x y && all2 xs' ys'
             | _, _ => false
             end) cs1 cs2)
  | _, _ => false
  end.

End WithUnicode.

End Bs4.
Export Bs4.

(* ===================================================================== *)
(** * JSON values *)
(* ===================================================================== *)

(** What [json.loads] returns.  Of a float the code observes only whether
    it is zero. *)
Module Json.

Inductive json :=
| JNull
| JBool (b : bool)
| JInt (z : Z)
| JFloat (is_zero : bool)
| JStr (s : str)
| JList (l : list json)
| JDict (d : list (str * json)).

(** Truthiness, as [or], [not] and [if] see a value. *)
Definition json_truthy (j : json) : bool :=
  match j with
  | JNull => false
  | JBool b => b
  | JInt z => negb (z =? 0)%Z
  | JFloat is_zero => negb is_zero
  | JStr s => match s with [] => false | _ => true end
  | JList l => match l with [] => false | _ => true end
  | JDict d => match d with [] => false | _ => true end
  end.

Fixpoint dict_lookup (k : str) (d : list (str * json)) : option json :=
  match d with
  | [] => None
  | (k', v) :: rest => if str_eqb k' k then Some v else dict_lookup k rest
  end.

(** [j.get(k)]: only a dict has the method. *)
Definition json_get (j : json) (k : str) : result json :=
  match j with
  | JDict d => Ok (default JNull (dict_lookup k d))
  | _ => Raise AttributeError
  end.

(** [x or y], with [y] evaluated only when [x] is falsy. *)
Definition json_or (x : result json) (y : result json) : result json :=
  v ← x; if json_truthy v then Ok v else y.

(** [for t in j]: a list yields its items, a dict its keys, a string its
    characters; anything else is not iterable. *)
Definition json_iter (j : json) : result (list json) :=
  match j with
  | JList l => Ok l
  | JDict d => Ok ((fun p => JStr p.1) <$> d)
  | JStr s => Ok ((fun c => JStr [c]) <$> s)
  | _ => Raise TypeError
  end.

End Json.
Export Json.

(* ===================================================================== *)
(** * The scraper *)
(* ===================================================================== *)

Module Scraper.

(** ** Data classes *)

Record Answer := {
  message_id : option str;
  message_url : option str;
  author : option str;
  created_at : option str;
  text : option str;
  is_accepted : bool;
  upvotes : option Z
}.

Record ContentItem := {
  url : str;
  lastmod_from_sitemap : option str;
  content_type : str;
  title : option str;
  item_author : option str;
  published_at : option str;
  updated_at : option str;
  board : option str;
  tags : list str;
  question_text : option str;
  question_upvotes : option Z;
  answers : list Answer;
  reply_count : option Z
}.

(** A [datetime.datetime] without time zone. *)
Record datetime := {
  dt_year : N; dt_month : N; dt_day : N;
  dt_hour : N; dt_minute : N; dt_second : N
}.

(** The libraries the scraper calls, beyond bs4 and [re]. *)
Class Libraries := {
  json_loads : str → result json;         (* json.loads(s); raises on invalid JSON *)
  urljoin : str → str → result str;       (* urllib.parse.urljoin(base, url) *)
  urlparse_path : str → str;              (* urllib.parse.urlparse(url).path *)
  BeautifulSoup : list Byte.byte → soup;  (* BeautifulSoup(html, "lxml") *)
  strptime : str → str → result datetime  (* datetime.strptime(s, fmt) *)
}.

Section Source.
Context {U : Unicode} {L : Libraries}.

(** ** Utilities *)

(** [LRM_RLM]: the left-to-right and right-to-left marks, U+200E and U+200F. *)
Definition LRM_RLM : regex := Cls [8206; 8207]%N.

Definition normalize_whitespace (s : option str) : option str :=
  match s with
  | None => None
  | Some s =>
      let s := re_sub false LRM_RLM [] s in
      let s := replace_char 160%N (lit " ") s in
      Some (strip (re_sub false (Plus Space) (lit " ") s))
  end.

(** [uniq_push(arr, val)]; the list it appends to is returned. *)
Definition uniq_push (arr : list str) (val : option str) : list str :=
  match val with
  | None | Some [] => arr
  | Some val =>
      let val_norm := strip val in
      match val_norm with
      | [] => arr
      | _ =>
          let lower_set : gset str := list_to_set (lower <$> arr) in
          if bool_decide (lower val_norm ∉ lower_set) then arr ++ [val_norm] else arr
      end
  end.

(** ** Light HTML -> Markdown converter *)

Definition BLOCK_BREAK_TAGS : list str := [lit "p"; lit "div"; lit "section"; lit "article"].
Definition LINE_BREAK_TAGS : list str := [lit "br"; lit "hr"; lit "li"].

(** [n.get(k, "").strip()]. *)
Definition get_stripped (n : node) (k : str) : str := strip (default [] (get n k)).

(** [pieces and pieces[-1].endswith("\n")]. *)
Definition ends_with_newline (pieces : list str) : bool :=
  match last pieces with
  | Some p => endswith NL p
  | None => false
  end.

(** [try: u = urljoin(base_url, u) / except Exception: pass]. *)
Definition absolutize (base_url u : str) : str :=
  match urljoin base_url u with Ok u' => u' | Raise _ => u end.

(** The inner function [walk] of [node_to_markdown]; the list [pieces] it
    appends to is passed in and returned.  The recursion follows the tree;
    the bound Python puts on its depth ([RecursionError]) is not
    modelled. *)
Fixpoint walk (base_url : str) (n : node) (pieces : list str) : list str :=
  match n with
  | NavigableString _ s => pieces ++ [s]
  | Tag _ nm _ cs =>
      let name := lower nm in
      let walk_children :=
        fix each (cs : list node) (pieces : list str) : list str :=
          match cs with
          | [] => pieces
          | c :: cs' => each cs' (walk base_url c pieces)
          end in
      if bool_decide (name ∈ [lit "script"; lit "style"; lit "noscript"]) then pieces
      else if str_eqb name (lit "a") then
        let href := get_stripped n (lit "href") in
        let text := get_text (lit " ") true n in
        if startswith (lit "@") text then pieces ++ [text]
        else match href with
             | [] => pieces ++ [text]
             | _ => pieces ++ [lit "[" ++ text ++ lit "](" ++ absolutize base_url href ++ lit ")"]
             end
      else if str_eqb name (lit "img") then
        let src := get_stripped n (lit "src") in
        let alt := match get_stripped n (lit "alt") with
                   | [] => get_stripped n (lit "title")
                   | alt => alt
                   end in
        match src with
        | [] => pieces
        | _ => pieces ++ [lit "![" ++ alt ++ lit "](" ++ absolutize base_url src ++ lit ")"]
        end
      else if bool_decide (name ∈ [lit "ul"; lit "ol"]) then
        (fix each_li (cs : list node) (pieces : list str) : list str :=
           match cs with
           | [] => pieces
           | c :: cs' =>
               if name_in [lit "li"] c
               then each_li cs' (walk base_url c (pieces ++ [NL ++ lit "- "]))
               else each_li cs' pieces
           end) cs pieces ++ [NL]
      else if bool_decide (name ∈ [lit "code"; lit "kbd"]) then
        pieces ++ [lit "`" ++ get_text [] true n ++ lit "`"]
      else if bool_decide (name ∈ [lit "strong"; lit "b"; lit "em"; lit "i"; lit "u"; lit "span"]) then
        walk_children cs pieces
      else if bool_decide (name ∈ BLOCK_BREAK_TAGS) then
        let pieces := if negb (ends_with_newline pieces)
                         && match pieces with [] => false | _ => true end
                      then pieces ++ [NL] else pieces in
        let pieces := walk_children cs pieces in
        if negb (ends_with_newline pieces) then pieces ++ [NL] else pieces
      else if bool_decide (name ∈ LINE_BREAK_TAGS) then
        walk_children cs pieces ++ [NL]
      else walk_children cs pieces
  end.

(** The clean-up of the joined pieces at the end of [node_to_markdown]. *)
Definition tidy (md : str) : str :=
  let md := replace_char 8199%N (lit " ") (replace_char 8239%N (lit " ") (replace_char 160%N (lit " ") md)) in
  let md := re_sub false (Cls [8203; 8204; 8205]%N) [] md in
  let md := re_sub false (Plus (Cls [32; 9]%N)) (lit " ") md in
  let md := re_sub false (Seqs [Chr 10%N; Star Space; Chr 10%N; Star Space; Plus (Chr 10%N)])
              (NL ++ NL) md in
  strip md.

Definition node_to_markdown (node : node) (base_url : str) : str :=
  let pieces := walk base_url node [] in
  let md := join [] pieces in
  tidy md.

(** ** Core extraction *)

(** [ACCEPTED_HINT_TEXT], compiled with [re.I]. *)
Definition ACCEPTED_HINT_TEXT : regex :=
  Alt (Seqs [WordB; Lit "Accepted"; Plus Space; Lit "Solution"; WordB])
      (Seqs [WordB; Lit "Accepted"; Plus Space; Lit "Answer"; Opt (Chr (ch "s")); WordB]).

(** [ACCEPTED_CLASS_RE], compiled with [re.I]. *)
Definition ACCEPTED_CLASS_RE : regex :=
  Alts [Seqs [WordB; Lit "lia-accepted-solution"; WordB];
        Seqs [WordB; Lit "lia-solution-accepted"; WordB];
        Seqs [WordB; Lit "lia-message-accepted-solution"; WordB];
        Seqs [WordB; Lit "lia-list-row-thread-solved"; WordB];
        Seqs [WordB; Lit "accepted"; WordB];
        Seqs [WordB; Lit "solution"; WordB]].

Record common_fields := {
  cf_title : option str;
  cf_author : option str;
  cf_published_at : option str;
  cf_updated_at : option str;
  cf_tags : list str
}.

(** [tag.get("content")] of the first [meta] tag whose attribute [k] is [v],
    when the tag exists and the value is truthy. *)
Definition meta_content (root : soup) (k v : str) : option str :=
  match find (fun n => name_in [lit "meta"] n && attr_is v k n) root with
  | Some tag => if truthy (get tag (lit "content")) then get tag (lit "content") else None
  | None => None
  end.

(** [for ... in candidates: if tag and tag.get("content"): x = normalize_whitespace(...); break]. *)
Fixpoint first_meta (root : soup) (candidates : list (str * str)) : option str :=
  match candidates with
  | [] => None
  | (k, v) :: rest =>
      match meta_content root k v with
      | Some c => normalize_whitespace (Some c)
      | None => first_meta root rest
      end
  end.

(** [a[rel~="tag"], a[href*="/t5/tag/"], a[class*="Tag"]]. *)
Definition classic_tags_selector : selector :=
  [ [ {| c_name := Some (lit "a"); c_classes := []; c_attrs := [(lit "rel", AWord (lit "tag"))] |} ];
    [ {| c_name := Some (lit "a"); c_classes := []; c_attrs := [(lit "href", AContains (lit "/t5/tag/"))] |} ];
    [ {| c_name := Some (lit "a"); c_classes := []; c_attrs := [(lit "class", AContains (lit "Tag"))] |} ] ].

(** [div.custom-view-associated-products li.lia-link-navigation a]. *)
Definition managed_tags_selector : selector :=
  [ [ {| c_name := Some (lit "div"); c_classes := [lit "custom-view-associated-products"]; c_attrs := [] |};
      {| c_name := Some (lit "li"); c_classes := [lit "lia-link-navigation"]; c_attrs := [] |};
      {| c_name := Some (lit "a"); c_classes := []; c_attrs := [] |} ] ].

(** The texts the two tag loops of [extract_common_fields] push, in the
    order they push them. *)
Definition tag_candidates (root : soup) : list (option str) :=
  (fun p : node * list node => normalize_whitespace (Some (get_text [] false p.1)))
    <$> (filter (matches_selector classic_tags_selector) (tags_below [] root)
         ++ filter (matches_selector managed_tags_selector) (tags_below [] root)).

Definition extract_common_fields (root : soup) : common_fields :=
  let title :=
    match find (name_in [lit "title"]) root with
    | Some t => if truthy (tag_string t) then normalize_whitespace (tag_string t) else None
    | None => None
    end in
  let title :=
    match meta_content root (lit "property") (lit "og:title") with
    | Some c => normalize_whitespace (Some c)
    | None => title
    end in
  let author := first_meta root [(lit "name", lit "author"); (lit "property", lit "article:author")] in
  let published :=
    first_meta root [(lit "property", lit "article:published_time");
                     (lit "property", lit "og:article:published_time")] in
  let updated :=
    first_meta root [(lit "property", lit "article:modified_time");
                     (lit "property", lit "og:updated_time")] in
  let tags := foldl uniq_push [] (tag_candidates root) in
  {| cf_title := title; cf_author := author; cf_published_at := published;
     cf_updated_at := updated; cf_tags := tags |}.

(** [s.strip("/")] and [s.split("/")]. *)
Fixpoint lstrip_char (c : char) (s : str) : str :=
  match s with
  | a :: s' => if (a =? c)%N then lstrip_char c s' else s
  | [] => []
  end.

Definition strip_char (c : char) (s : str) : str :=
  reverse (lstrip_char c (reverse (lstrip_char c s))).

Fixpoint split_aux (c : char) (cur : str) (s : str) : list str :=
  match s with
  | [] => [reverse cur]
  | a :: s' => if (a =? c)%N then reverse cur :: split_aux c [] s' else split_aux c (a :: cur) s'
  end.

Definition split (c : char) (s : str) : list str := split_aux c [] s.

Definition extract_board_from_url (url : str) : option str :=
  let path := strip_char (ch "/") (urlparse_path url) in
  let parts := split (ch "/") path in
  match parts with
  | _ :: slug :: _ =>
      if startswith (lit "human-capital-management-q-a") slug
      then Some (lit "hcm-questions") else None
  | _ => None
  end.

(** [try: blocks.append(json.loads(content)) / except Exception: (the repair)]. *)
Definition load_block (content : str) : result (option json) :=
  try_except
    (v ← json_loads content; Ok (Some v))
    (try_except
       (let fixed := re_sub false (Seqs [Chr (ch ","); Star Space; Chr (ch "}")]) (lit "}") content in
        let fixed := re_sub false (Seqs [Chr (ch ","); Star Space; Chr (ch "]")]) (lit "]") fixed in
        v ← json_loads fixed; Ok (Some v))
       (Ok None)).

(** [(tag.string or tag.text or "").strip()]. *)
Definition script_content (tag : node) : str :=
  strip (if truthy (tag_string tag) then default [] (tag_string tag)
         else get_text [] false tag).

Definition json_ld_scripts (root : soup) : list node :=
  find_all (fun n => name_in [lit "script"] n && attr_is (lit "application/ld+json") (lit "type") n) root.

Fixpoint json_ld_loop (tags : list node) (blocks : list json) : result (list json) :=
  match tags with
  | [] => Ok blocks
  | tag :: rest =>
      let content := script_content tag in
      match content with
      | [] => json_ld_loop rest blocks
      | _ =>
          b ← load_block content;
          match b with
          | Some v => json_ld_loop rest (blocks ++ [v])
          | None => json_ld_loop rest blocks
          end
      end
  end.

Definition extract_json_ld (root : soup) : result (list json) :=
  json_ld_loop (json_ld_scripts root) [].

(** [#M(\d+)]. *)
Definition HASH_M_DIGITS : regex := Seq (Lit "#M") (Group (Plus Digit)).

(** The loops of [extract_json_ld_accepted_ids] add to the set [ids] and may
    raise; what they added before raising stays. *)
Fixpoint accepted_loop (accepted : list json) (ids : gset str) : gset str * result () :=
  match accepted with
  | [] => (ids, Ok ())
  | a :: rest =>
      match json_or (json_or (json_get a (lit "url")) (json_get a (lit "mainEntityOfPage")))
                    (Ok (JStr [])) with
      | Raise e => (ids, Raise e)
      | Ok (JStr url) =>
          match search_group1 false HASH_M_DIGITS url with
          | Some mid => accepted_loop rest ({[ mid ]} ∪ ids)
          | None => accepted_loop rest ids
          end
      | Ok _ => (ids, Raise TypeError)
      end
  end.

(** [any(str(t).lower() == "qapage" for t in types)]: of the values
    [json.loads] returns, only a string has a [str()] that can be
    ["qapage"] up to case. *)
Definition is_qapage (t : json) : bool :=
  match t with
  | JStr s => str_eqb (lower s) (lit "qapage")
  | _ => false
  end.

Definition node_step (node : json) (ids : gset str) : gset str * result () :=
  match
    (types ← json_or (json_or (json_get node (lit "@type")) (json_get node (lit "type")))
                     (Ok (JList []));
     types ← (match types with JStr _ => Ok [types] | _ => json_iter types end);
     if negb (existsb is_qapage types) then Ok None
     else
       main ← json_or (json_get node (lit "mainEntity")) (Ok (JDict []));
       let main := match main with JList (m :: _) => m | _ => main end in
       accepted ← json_get main (lit "acceptedAnswer");
       if negb (json_truthy accepted) then Ok None
       else Ok (Some (match accepted with JList l => l | _ => [accepted] end)))
  with
  | Raise e => (ids, Raise e)
  | Ok None => (ids, Ok ())
  | Ok (Some accepted) => accepted_loop accepted ids
  end.

Fixpoint nodes_loop (nodes : list json) (ids : gset str) : gset str * result () :=
  match nodes with
  | [] => (ids, Ok ())
  | node :: rest =>
      match node_step node ids with
      | (ids, Ok _) => nodes_loop rest ids
      | (ids, Raise e) => (ids, Raise e)
      end
  end.

(** One iteration of [for block in extract_json_ld(soup)]: the [try] body,
    whose exception ends the iteration. *)
Definition block_step (ids : gset str) (block : json) : gset str :=
  match json_get block (lit "@graph") with
  | Raise _ => ids
  | Ok (JList l) => (nodes_loop l ids).1
  | Ok _ => (nodes_loop [block] ids).1
  end.

Definition extract_json_ld_accepted_ids (root : soup) : result (gset str) :=
  blocks ← extract_json_ld root;
  Ok (foldl block_step ∅ blocks).

(** ** Field heuristics *)

(** [dt.isoformat(timespec="seconds")]. *)
Definition isoformat (dt : datetime) : str :=
  zfill 4 (decimal (dt_year dt)) ++ lit "-" ++ zfill 2 (decimal (dt_month dt)) ++ lit "-"
  ++ zfill 2 (decimal (dt_day dt)) ++ lit "T" ++ zfill 2 (decimal (dt_hour dt)) ++ lit ":"
  ++ zfill 2 (decimal (dt_minute dt)) ++ lit ":" ++ zfill 2 (decimal (dt_second dt)).

(** [dt.replace(hour=0, minute=0, second=0)]. *)
Definition at_midnight (dt : datetime) : datetime :=
  {| dt_year := dt_year dt; dt_month := dt_month dt; dt_day := dt_day dt;
     dt_hour := 0; dt_minute := 0; dt_second := 0 |}.

(** [ISO_PATTERN]. *)
Definition ISO_PATTERN : regex :=
  Seqs [Rep 4 Digit; Chr (ch "-"); Rep 2 Digit; Chr (ch "-"); Rep 2 Digit; Chr (ch "T");
        Rep 2 Digit; Chr (ch ":"); Rep 2 Digit; Chr (ch ":"); Rep 2 Digit;
        Opt (Seq (Chr (ch ".")) (Plus Digit));
        Opt (Alt (Chr (ch "Z"))
                 (Seqs [Cls [ch "+"; ch "-"]; Rep 2 Digit; Chr (ch ":"); Rep 2 Digit]))].

Definition DATE_FORMATS : list str :=
  [lit "%Y %b %d %I:%M %p"; lit "%Y %b %d %H:%M"; lit "%b %d %Y %I:%M %p";
   lit "%b %d %Y %H:%M"; lit "%Y %b %d"].

(** The loop over [fmts] of [parse_dt_string]. *)
Fixpoint try_formats (s : str) (fmts : list str) : option str :=
  match fmts with
  | [] => None
  | fmt :: rest =>
      match strptime s fmt with
      | Ok dt =>
          let dt := if str_eqb fmt (lit "%Y %b %d") then at_midnight dt else dt in
          Some (isoformat dt)
      | Raise _ => try_formats s rest
      end
  end.

Definition parse_dt_string (s : option str) : option str :=
  if truthy s
  then match normalize_whitespace s with
       | Some s => try_formats s DATE_FORMATS
       | None => None
       end
  else None.

(** [x or y] on two optional strings. *)
Definition str_or (x y : option str) : option str := if truthy x then x else y.

(** The first value of a list of attempts, in order. *)
Definition first_some {A} (attempts : list (option A)) : option A := head (omap id attempts).

(** [if val and ISO_PATTERN.search(val): return ...group(0)], then
    [parsed = parse_dt_string(val); if parsed: return parsed]. *)
Definition iso_or_parsed (val : option str) : option str :=
  match (if truthy val then search_group0 false ISO_PATTERN (default [] val) else None) with
  | Some iso => Some iso
  | None => if truthy (parse_dt_string val) then parse_dt_string val else None
  end.

Definition has_class (cl : string) : compound :=
  {| c_name := None; c_classes := [lit cl]; c_attrs := [] |}.

(** [.lia-message-post-date .DateTime .local-friendly-date[title]]. *)
Definition friendly_date_selector : selector :=
  [ [ has_class "lia-message-post-date"; has_class "DateTime";
      {| c_name := None; c_classes := [lit "local-friendly-date"];
         c_attrs := [(lit "title", AHas)] |} ] ].

(** [.lia-message-post-date .DateTime]. *)
Definition date_wrap_selector : selector :=
  [ [ has_class "lia-message-post-date"; has_class "DateTime" ] ].

(** [[itemprop*="date"], [property*="date"], [data-lia-message-time],
    [data-lia-message-timestamp]]. *)
Definition dateish_selector : selector :=
  [ [ {| c_name := None; c_classes := []; c_attrs := [(lit "itemprop", AContains (lit "date"))] |} ];
    [ {| c_name := None; c_classes := []; c_attrs := [(lit "property", AContains (lit "date"))] |} ];
    [ {| c_name := None; c_classes := []; c_attrs := [(lit "data-lia-message-time", AHas)] |} ];
    [ {| c_name := None; c_classes := []; c_attrs := [(lit "data-lia-message-timestamp", AHas)] |} ] ].

(** [\blocal-date\b], [\blocal-time\b]. *)
Definition LOCAL_DATE_RE : regex := Seqs [WordB; Lit "local-date"; WordB].
Definition LOCAL_TIME_RE : regex := Seqs [WordB; Lit "local-time"; WordB].

(** [\b(\d{4}\s+[A-Za-z]{3}\s+\d{1,2}\s+\d{1,2}:\d{2}\s*(AM|PM)?)\b]; only group 1
    is read. *)
Definition DATE_TEXT_RE : regex :=
  Seqs [WordB;
        Group (Seqs [Rep 4 Digit; Plus Space;
                     Rep 3 (Alt (Rng (ch "A") (ch "Z")) (Rng (ch "a") (ch "z"))); Plus Space;
                     Digit; Opt Digit; Plus Space; Digit; Opt Digit; Chr (ch ":"); Rep 2 Digit;
                     Star Space; Opt (Alt (Lit "AM") (Lit "PM"))]);
        WordB].

(** The values of [el.attrs] that are strings, in attribute order. *)
Definition string_attrs (el : node) : list (str * str) :=
  filter (fun kv => multi_valued (tag_name el) kv.1 = false) (tag_attrs el).

(** [parse_datetime_candidate(container)]; [ancs] are the ancestors of the
    container, which the selectors may look at. *)
Definition parse_datetime_candidate (container : node) (ancs : list node) : option str :=
  first_some [
    (* lines 427-435: the first [time] tag *)
    match find (name_in [lit "time"]) container with
    | Some t =>
        let val := str_or (get t (lit "datetime")) (get t (lit "title")) in
        if truthy val then iso_or_parsed (normalize_whitespace val) else None
    | None => None
    end;
    (* lines 437-442: the friendly date *)
    match select_one friendly_date_selector container ancs with
    | Some friendly =>
        let parsed := parse_dt_string (get friendly (lit "title")) in
        if truthy parsed then parsed else None
    | None => None
    end;
    (* lines 444-452: local date and local time *)
    match select_one date_wrap_selector container ancs with
    | Some dt_wrap =>
        match find (fun t => name_in [lit "span"] t
                             && attr_found false LOCAL_DATE_RE (lit "class") t) dt_wrap,
              find (fun t => name_in [lit "span"] t
                             && attr_found false LOCAL_TIME_RE (lit "class") t) dt_wrap with
        | Some ld, Some lt_ =>
            let composed :=
              default [] (normalize_whitespace (Some (get_text [] false ld))) ++ lit " "
              ++ default [] (normalize_whitespace (Some (get_text [] false lt_))) in
            let parsed := parse_dt_string (Some composed) in
            if truthy parsed then parsed else None
        | _, _ => None
        end
    | None => None
    end;
    (* lines 454-467: tags with a date-like attribute *)
    first_some
      (p ← select_tags dateish_selector container ancs;
       attr ← [lit "datetime"; lit "content"; lit "data-lia-message-time";
               lit "data-lia-message-timestamp"; lit "title"];
       [ let val := get p.1 attr in
         if truthy val
         then let val := normalize_whitespace val in
              if truthy val then iso_or_parsed val else None
         else None ]);
    (* lines 469-474: any attribute value of any tag *)
    first_some
      (el ← filter is_tag (descendants container);
       kv ← string_attrs el;
       [ search_group0 false ISO_PATTERN
           (default [] (normalize_whitespace (Some kv.2))) ]);
    (* lines 476-483: the text of the container *)
    (let text := default [] (normalize_whitespace (Some (get_text (lit " ") false container))) in
     match search_group0 false ISO_PATTERN text with
     | Some iso => Some iso
     | None =>
         match search_group1 false DATE_TEXT_RE text with
         | Some m =>
             let parsed := parse_dt_string (Some m) in
             if truthy parsed then parsed else None
         | None => None
         end
     end) ].

(** [kudo|like|vote] and [kudo|likes?|vote|rating|count], compiled with
    [re.I]. *)
Definition KUDO_LABEL_RE : regex := Alts [Lit "kudo"; Lit "like"; Lit "vote"].
Definition KUDO_CLASS_RE : regex :=
  Alts [Lit "kudo"; Seq (Lit "like") (Opt (Chr (ch "s"))); Lit "vote"; Lit "rating"; Lit "count"].

(** [m = re.search(r"\d+", s)], then [int(m.group(0))]. *)
Definition first_int (s : str) : option Z :=
  int_of_digits <$> search_group0 false (Plus Digit) s.

(** [[id*="kudos"], [class*="kudos"]]. *)
Definition kudos_selector : selector :=
  [ [ {| c_name := None; c_classes := []; c_attrs := [(lit "id", AContains (lit "kudos"))] |} ];
    [ {| c_name := None; c_classes := []; c_attrs := [(lit "class", AContains (lit "kudos"))] |} ] ].

Definition extract_upvotes (container : node) (ancs : list node) : option Z :=
  first_some [
    (* lines 489-494: an aria-label that speaks of kudos, likes or votes *)
    first_some
      (el ← find_all (fun n => is_tag n && has_attr n (lit "aria-label")) container;
       [ let label := default [] (get el (lit "aria-label")) in
         if found true KUDO_LABEL_RE label then first_int label else None ]);
    (* lines 496-505: a tag whose class speaks of them: its text, then its
       data attributes *)
    first_some
      (el ← find_all (fun n => is_tag n && attr_found true KUDO_CLASS_RE (lit "class") n) container;
       [ match first_int (strip (get_text (lit " ") false el)) with
         | Some n => Some n
         | None =>
             first_some
               (kv ← string_attrs el;
                [ if startswith (lit "data-") kv.1
                     || bool_decide (kv.1 ∈ [lit "data-count"; lit "data-kudos-count"])
                  then first_int kv.2 else None ])
         end ]);
    (* lines 507-511 *)
    match select_one kudos_selector container ancs with
    | Some el => first_int (get_text (lit " ") false el)
    | None => None
    end ].

(** ** Message identity *)

(** Reading through a reference: the object as it is in the current tree.
    A decomposed [Tag] has lost its attributes and contents, and the first
    attribute access on it raises [e]. *)
Definition live (e : exn) (root : soup) (o : oid) : result node :=
  match deref root o with
  | Some n => Ok n
  | None => Raise e
  end.

(** [^M\d+$], [M(\d+)], [#M\d+] and [message-(\d+)]. *)
Definition M_ID : regex := Seqs [Bol; Chr (ch "M"); Plus Digit; Eol].
Definition M_DIGITS : regex := Seq (Chr (ch "M")) (Group (Plus Digit)).
Definition HASH_M : regex := Seq (Lit "#M") (Plus Digit).
Definition MESSAGE_DIGITS : regex := Seq (Lit "message-") (Group (Plus Digit)).

Definition get_anchor_mid (div : node) : option str :=
  let from_id :=
    match find (fun n => is_tag n && attr_found false M_ID (lit "id") n) div with
    | Some el => re_match false M_DIGITS (default [] (get el (lit "id"))) ≫= snd
    | None => None
    end in
  match from_id with
  | Some mid => Some mid
  | None =>
      match find (fun n => name_in [lit "a"] n && attr_found false HASH_M (lit "href") n) div with
      | Some a =>
          if has_attr a (lit "href")
          then search_group1 false HASH_M_DIGITS (default [] (get a (lit "href")))
          else None
      | None => None
      end
  end.

Definition get_msg_id (div : node) : option str :=
  let mid := get_anchor_mid div in
  if truthy mid then mid
  else if has_attr div (lit "data-lia-message-uid") then get div (lit "data-lia-message-uid")
  else if has_attr div (lit "id")
       then search_group1 false MESSAGE_DIGITS (default [] (get div (lit "id")))
       else None.

(** [qanda[- ]?question|message-view-qanda-question|thread-topic|lia-message-view-question]. *)
Definition QUESTION_CLASS_RE : regex :=
  Alts [Seqs [Lit "qanda"; Opt (Cls [ch "-"; ch " "]); Lit "question"];
        Lit "message-view-qanda-question";
        Lit "thread-topic";
        Lit "lia-message-view-question"].

Definition is_question_div (div : node) : bool :=
  let classes := lower (join (lit " ") (get_list div (lit "class"))) in
  found false QUESTION_CLASS_RE classes.

(** [\bMessageView\b]. *)
Definition MESSAGE_VIEW_RE : regex := Seqs [WordB; Lit "MessageView"; WordB].

Definition container_has_accepted_marker_for_message (div : node) : bool :=
  let classes_self := join (lit " ") (get_list div (lit "class")) in
  if found true ACCEPTED_CLASS_RE classes_self then true
  else
    match find (fun n => name_in [lit "div"] n && attr_found false MESSAGE_VIEW_RE (lit "class") n) div with
    | Some mv =>
        let classes_mv := join (lit " ") (get_list mv (lit "class")) in
        if found true ACCEPTED_CLASS_RE classes_mv then true
        else bool_decide (is_Some (find_string true ACCEPTED_HINT_TEXT mv))
    | None => false
    end.

(** [(lia-message-body|lia-message-body-content|lia-article-body)]. *)
Definition BODY_CLASS_RE : regex :=
  Group (Alts [Lit "lia-message-body"; Lit "lia-message-body-content"; Lit "lia-article-body"]).

(** [extract_body_markdown(container, page_url)].  It removes the
    [script], [style] and [noscript] tags below the body from the document:
    the document after the call is returned with the text. *)
Definition extract_body_markdown (root : soup) (container : oid) (page_url : str)
    : result (option str * soup) :=
  n ← live AttributeError root container;
  match find (fun d => name_in [lit "div"] d && attr_found false BODY_CLASS_RE (lit "class") d) n with
  | None => Ok (None, root)
  | Some body_div =>
      let bad := omap tag_oid
                   (find_all (name_in [lit "script"; lit "style"; lit "noscript"]) body_div) in
      let root := foldl decompose root bad in
      body ← from_option (live AttributeError root) (Raise AttributeError) (tag_oid body_div);
      let md := node_to_markdown body page_url in
      Ok (match md with [] => None | _ => Some md end, root)
  end.

(** [(lia-user-name|lia-component-author-name)]. *)
Definition AUTHOR_CLASS_RE : regex :=
  Group (Alts [Lit "lia-user-name"; Lit "lia-component-author-name"]).

(** Reading through a reference, for an operation that looks at the
    ancestors as well. *)
Definition live_located (e : exn) (root : soup) (o : oid) : result (node * list node) :=
  match locate root o with
  | Some p => Ok p
  | None => Raise e
  end.

(** [build_answer_from_div(div, page_url)]: the new [Answer], and the
    document as [extract_body_markdown] leaves it. *)
Definition build_answer_from_div (root : soup) (div : oid) (page_url : str)
    : result (Answer * soup) :=
  n ← live TypeError root div;
  let msg_id := get_msg_id n in
  let msg_url :=
    if truthy msg_id then Some (page_url ++ lit "#M" ++ default [] msg_id) else None in
  let author :=
    match find (fun t => name_in [lit "a"; lit "span"] t
                         && attr_found false AUTHOR_CLASS_RE (lit "class") t) n with
    | Some auth_tag => normalize_whitespace (Some (get_text [] false auth_tag))
    | None => None
    end in
  '(text_md, root) ← extract_body_markdown root div page_url;
  '(n, ancs) ← live_located AttributeError root div;
  let created_at := parse_datetime_candidate n ancs in
  let upvotes := extract_upvotes n ancs in
  let is_accepted := container_has_accepted_marker_for_message n in
  Ok ({| message_id := msg_id; message_url := msg_url; author := author;
         created_at := created_at; text := text_md; is_accepted := is_accepted;
         upvotes := upvotes |}, root).

(** ** Flat Q&A extraction *)

(** [div[id^="message-"], div[data-lia-message-uid]]. *)
Definition message_selector : selector :=
  [ [ {| c_name := Some (lit "div"); c_classes := []; c_attrs := [(lit "id", APrefix (lit "message-"))] |} ];
    [ {| c_name := Some (lit "div"); c_classes := []; c_attrs := [(lit "data-lia-message-uid", AHas)] |} ] ].

Definition div_with_classes (cls : list str) : complex :=
  [ {| c_name := Some (lit "div"); c_classes := cls; c_attrs := [] |} ].

Definition accepted_wrapper_selector : selector :=
  [ div_with_classes [lit "ComponentToggler"; lit "lia-component-solutions-with-toggle"];
    div_with_classes [lit "lia-accepted-solution"];
    div_with_classes [lit "lia-message-accepted-solution"];
    div_with_classes [lit "lia-solution-accepted"];
    div_with_classes [lit "lia-list-row-thread-solved"] ].

(** [m in containers]: list membership compares the tags with [==]. *)
Definition tag_in (root : soup) (m : oid) (containers : list oid) : bool :=
  existsb (fun c => match deref root c, deref root m with
                    | Some a, Some b => node_eqb a b
                    | _, _ => false
                    end) containers.

Definition append_missing (root : soup) (containers inner_msgs : list oid) : list oid :=
  foldl (fun containers m => if tag_in root m containers then containers else containers ++ [m])
        containers inner_msgs.

(** The candidate containers: lines 602-613. *)
Definition candidate_containers (root : soup) : list oid :=
  let containers := select message_selector root in
  let accepted_wrappers := select accepted_wrapper_selector root in
  foldl (fun containers wrap =>
           match locate root wrap with
           | Some (w, ancs) => append_missing root containers (select_below message_selector w ancs)
           | None => containers
           end) containers accepted_wrappers.

(** The objects of the function: the document, the [Answer] objects it has
    created ([st_heap], an object's address being its index), the dict
    [answers_by_id] from identifier to [Answer] object, and the list
    [order]. *)
Record qna_state := {
  st_soup : soup;
  st_heap : list Answer;
  answers_by_id : gmap str nat;
  order : list str
}.

(** The state before the first loop, lines 618-619. *)
Definition init_state (root : soup) : qna_state :=
  {| st_soup := root; st_heap := []; answers_by_id := ∅; order := [] |}.

(** Reading the object at an address. *)
Definition heap_get (heap : list Answer) (a : nat) : result Answer :=
  match heap !! a with Some x => Ok x | None => Raise KeyError end.

(** The body of [if mid in answers_by_id:], lines 627-634. *)
Definition merge_into (base ans : Answer) : Answer :=
  {| message_id := message_id base;
     message_url := message_url base;
     author := author base;
     created_at := if negb (truthy (created_at base)) && truthy (created_at ans)
                   then created_at ans else created_at base;
     text := if negb (truthy (text base)) && truthy (text ans) then text ans else text base;
     is_accepted := is_accepted base || is_accepted ans;
     upvotes := match upvotes base, upvotes ans with
                | None, Some u => Some u
                | u, _ => u
                end |}.

(** The first loop, lines 621-637. *)
Fixpoint dedup_loop (page_url : str) (containers : list oid) (st : qna_state)
    : result qna_state :=
  match containers with
  | [] => Ok st
  | div :: rest =>
      n ← live TypeError (st_soup st) div;
      match get_msg_id n with
      | None | Some [] => dedup_loop page_url rest st
      | Some mid =>
          '(ans, root) ← build_answer_from_div (st_soup st) div page_url;
          let a := length (st_heap st) in
          let heap := st_heap st ++ [ans] in
          match answers_by_id st !! mid with
          | Some b =>
              base ← heap_get heap b;
              dedup_loop page_url rest
                {| st_soup := root; st_heap := <[b := merge_into base ans]> heap;
                   answers_by_id := answers_by_id st; order := order st |}
          | None =>
              dedup_loop page_url rest
                {| st_soup := root; st_heap := heap;
                   answers_by_id := <[mid := a]> (answers_by_id st);
                   order := order st ++ [mid] |}
          end
      end
  end.

(** The second loop, lines 639-643. *)
Fixpoint find_question_id (root : soup) (containers : list oid) : result (option str) :=
  match containers with
  | [] => Ok None
  | div :: rest =>
      n ← live AttributeError root div;
      if is_question_div n then Ok (get_msg_id n)
      else find_question_id root rest
  end.

(** Lines 639-645: the identifier chosen as the question. *)
Definition choose_question_id (root : soup) (containers : list oid) (order : list str)
    : result (option str) :=
  question_id ← find_question_id root containers;
  match question_id, order with
  | None, first :: _ => Ok (Some first)
  | _, _ => Ok question_id
  end.

(** [order.remove(x)]: the first occurrence goes; [ValueError] if there is none. *)
Fixpoint list_remove (x : str) (l : list str) : result (list str) :=
  match l with
  | [] => Raise ValueError
  | y :: l' => if str_eqb y x then Ok l' else (l'' ← list_remove x l'; Ok (y :: l''))
  end.

(** [[answers_by_id[mid] for mid in order]]: a list of references. *)
Fixpoint lookup_all (by_id : gmap str nat) (order : list str) : result (list nat) :=
  match order with
  | [] => Ok []
  | mid :: rest =>
      match by_id !! mid with
      | Some a => (l ← lookup_all by_id rest; Ok (a :: l))
      | None => Raise KeyError
      end
  end.

(** [answers_by_id[mid].is_accepted = True]. *)
Definition set_accepted (a : Answer) : Answer :=
  {| message_id := message_id a; message_url := message_url a; author := author a;
     created_at := created_at a; text := text a; is_accepted := true;
     upvotes := upvotes a |}.

(** Lines 657-659, for one [mid] of the set. *)
Definition accept_step (by_id : gmap str nat) (heap : list Answer) (mid : str) : list Answer :=
  match by_id !! mid with
  | Some a =>
      match heap !! a with
      | Some x => <[a := set_accepted x]> heap
      | None => heap
      end
  | None => heap
  end.

(** The objects a list of references denotes. *)
Fixpoint read_all (heap : list Answer) (refs : list nat) : result (list Answer) :=
  match refs with
  | [] => Ok []
  | a :: rest => x ← heap_get heap a; l ← read_all heap rest; Ok (x :: l)
  end.

(** Lines 647-653: the question leaves [answers_by_id] and [order]; the
    two question fields, and the dict and the list after it. *)
Definition pop_question (st : qna_state) (question_id : option str)
    : result (option str * option Z * gmap str nat * list str) :=
  match question_id with
  | Some ((_ :: _) as qid) =>
      match answers_by_id st !! qid with
      | Some q =>
          q_ans ← heap_get (st_heap st) q;
          order ← list_remove qid (order st);
          Ok (text q_ans, upvotes q_ans, delete qid (answers_by_id st), order)
      | None => Ok (None, None, answers_by_id st, order st)
      end
  | _ => Ok (None, None, answers_by_id st, order st)
  end.

Definition extract_flat_qna (root : soup) (page_url : str)
    : result (option str * option Z * list Answer * Z) :=
  let containers := candidate_containers root in
  match containers with
  | [] => Ok (None, None, [], 0%Z)
  | _ =>
      st ← dedup_loop page_url containers (init_state root);
      question_id ← choose_question_id (st_soup st) containers (order st);
      '(question_text, question_upvotes, by_id, order) ← pop_question st question_id;
      answers ← lookup_all by_id order;
      ids ← extract_json_ld_accepted_ids (st_soup st);
      let heap := foldl (accept_step by_id) (st_heap st) (elements ids) in
      answers ← read_all heap answers;
      Ok (question_text, question_upvotes, answers, Z.of_nat (length answers))
  end.

Definition parse_qna_page (url : str) (html : list Byte.byte) : result ContentItem :=
  let root := BeautifulSoup html in
  let common := extract_common_fields root in
  let board := extract_board_from_url url in
  '(question_text, question_upvotes, answers, reply_count) ← extract_flat_qna root url;
  Ok {| url := url;
        lastmod_from_sitemap := None;
        content_type := lit "qna";
        title := cf_title common;
        item_author := cf_author common;
        published_at := cf_published_at common;
        updated_at := cf_updated_at common;
        board := board;
        tags := cf_tags common;
        question_text := question_text;
        question_upvotes := question_upvotes;
        answers := answers;
        reply_count := Some reply_count |}.

(** ** Blog pages *)

(** [div[class*="comment"] div[id^="message-"], div[id^="message-"].lia-message-comment]. *)
Definition comment_selector : selector :=
  [ [ {| c_name := Some (lit "div"); c_classes := []; c_attrs := [(lit "class", AContains (lit "comment"))] |};
      {| c_name := Some (lit "div"); c_classes := []; c_attrs := [(lit "id", APrefix (lit "message-"))] |} ];
    [ {| c_name := Some (lit "div"); c_classes := [lit "lia-message-comment"];
         c_attrs := [(lit "id", APrefix (lit "message-"))] |} ] ].

(** [(lia-article-body|lia-message-body|lia-message-body-content)]. *)
Definition ARTICLE_CLASS_RE : regex :=
  Group (Alts [Lit "lia-article-body"; Lit "lia-message-body"; Lit "lia-message-body-content"]).

(** The comment loop of [parse_blog_page], lines 700-708. *)
Fixpoint comment_loop (url : str) (containers : list oid) (root : soup)
    (seen : gset str) (answers : list Answer) : result (list Answer) :=
  match containers with
  | [] => Ok answers
  | div :: rest =>
      n ← live TypeError root div;
      let mid := get_msg_id n in
      if truthy mid && bool_decide (default [] mid ∈ seen)
      then comment_loop url rest root seen answers
      else
        let seen := if truthy mid then {[ default [] mid ]} ∪ seen else seen in
        '(ans, root) ← build_answer_from_div root div url;
        let ans := {| message_id := message_id ans; message_url := message_url ans;
                      author := author ans; created_at := created_at ans; text := text ans;
                      is_accepted := false; upvotes := upvotes ans |} in
        comment_loop url rest root seen (answers ++ [ans])
  end.

Definition parse_blog_page (url : str) (html : list Byte.byte) : result ContentItem :=
  let root := BeautifulSoup html in
  let common := extract_common_fields root in
  let article :=
    match find (fun d => name_in [lit "div"] d && attr_found false ARTICLE_CLASS_RE (lit "class") d) root with
    | Some a => Some a
    | None => find (name_in [lit "article"]) root
    end in
  let question_text := (fun a => node_to_markdown a url) <$> article in
  let comment_containers := select comment_selector root in
  answers ← comment_loop url comment_containers root ∅ [];
  Ok {| url := url;
        lastmod_from_sitemap := None;
        content_type := lit "blog";
        title := cf_title common;
        item_author := cf_author common;
        published_at := cf_published_at common;
        updated_at := cf_updated_at common;
        board := None;
        tags := cf_tags common;
        question_text := question_text;
        question_upvotes := None;
        answers := answers;
        reply_count := Some (Z.of_nat (length answers)) |}.

End Source.
End Scraper.
Export Scraper.

(* ===================================================================== *)
(** * What the first loop sees *)
(* ===================================================================== *)

(** The vocabulary in which the properties of [extract_flat_qna] are
    stated: what each identified container yields when the first loop
    reaches it, and the list operations the specification speaks of. *)
Module Trace.

(** One identified container as the loop meets it: the document before and
    after its [Answer] is built, the identifier it resolves to and the
    [Answer] built from it alone. *)
Record observation := {
  ob_div : oid;
  ob_before : soup;
  ob_after : soup;
  ob_mid : str;
  ob_answer : Answer
}.

Section WithLibraries.
Context {U : Unicode} {L : Libraries}.

(** The identified containers of [containers], in order, each with what
    [get_msg_id] and [build_answer_from_div] return for it at its turn, and
    the document after the last of them. *)
Fixpoint scan (page_url : str) (containers : list oid) (root : soup)
    : result (list observation * soup) :=
  match containers with
  | [] => Ok ([], root)
  | div :: rest =>
      n ← live TypeError root div;
      match get_msg_id n with
      | None | Some [] => scan page_url rest root
      | Some mid =>
          '(ans, root') ← build_answer_from_div root div page_url;
          '(obs, final) ← scan page_url rest root';
          Ok ({| ob_div := div; ob_before := root; ob_after := root';
                 ob_mid := mid; ob_answer := ans |} :: obs, final)
      end
  end.

(** An observation the loop really makes over the candidates [cs]: the
    container resolves to a non-empty identifier in the document before,
    and its [Answer] is built there. *)
Definition observed (page_url : str) (cs : list oid) (o : observation) : Prop :=
  ob_div o ∈ cs
  ∧ ob_mid o ≠ []
  ∧ (∃ n, deref (ob_before o) (ob_div o) = Some n ∧ get_msg_id n = Some (ob_mid o))
  ∧ build_answer_from_div (ob_before o) (ob_div o) page_url = Ok (ob_answer o, ob_after o).

End WithLibraries.

(** The identifiers of the observations, in candidate order. *)
Definition mids (obs : list observation) : list str := ob_mid <$> obs.

(** The answers built from the containers that resolve to [mid], in
    candidate order. *)
Definition group (mid : str) (obs : list observation) : list Answer :=
  ob_answer <$> filter (fun o => ob_mid o = mid) obs.

(** The distinct elements of [l] in order of first appearance. *)
Fixpoint first_seen (l : list str) : list str :=
  match l with
  | [] => []
  | x :: l' => x :: filter (fun y => y ≠ x) (first_seen l')
  end.

(** The first value of [l] that is not empty; the first value when all are
    empty. *)
Definition first_nonempty {A} (nonempty : A → bool) (l : list A) : option A :=
  match list_find (fun x => nonempty x = true) l with
  | Some (_, x) => Some x
  | None => head l
  end.


(** The merge of the answers of a group, as the loop performs it, with
    the JSON-LD signal of the last pass applied. *)
Definition accept_if (c : bool) (a : Answer) : Answer := if c then set_accepted a else a.

Definition result_answer (ids : gset str) (obs : list observation) (mid : str) : option Answer :=
  match group mid obs with
  | [] => None
  | a0 :: rest => Some (accept_if (bool_decide (mid ∈ ids)) (foldl merge_into a0 rest))
  end.

(** The two question fields of the record, given the identifier chosen as
    the question: the merged text and upvotes of its group when it has
    one, absent otherwise. *)
Definition question_fields (obs : list observation) (qid : option str)
    (qt : option str) (qu : option Z) : Prop :=
  match qid with
  | Some q =>
      match group q obs with
      | a0 :: rest =>
          qt = text (foldl merge_into a0 rest) ∧ qu = upvotes (foldl merge_into a0 rest)
      | [] => qt = None ∧ qu = None
      end
  | None => qt = None ∧ qu = None
  end.

(** The invariant of the first loop after the observations [obs]: [order]
    lists their identifiers in order of first appearance, [answers_by_id]
    has exactly these keys, each bound to its own object, and the object
    holds the merge of the group. *)
Record dedup_inv (obs : list observation) (st : qna_state) : Prop := {
  inv_order : order st = first_seen (mids obs);
  inv_dom : ∀ mid, is_Some (answers_by_id st !! mid) ↔ mid ∈ mids obs;
  inv_heap : ∀ mid b, answers_by_id st !! mid = Some b →
    ∃ a0 rest, group mid obs = a0 :: rest ∧ st_heap st !! b = Some (foldl merge_into a0 rest);
  inv_inj : ∀ m1 m2 b,
    answers_by_id st !! m1 = Some b → answers_by_id st !! m2 = Some b → m1 = m2
}.









(** ** The accepted-answer references of a JSON-LD block *)













(** What one script block contributes to [extract_json_ld], in the words
    of the specification: the parsed content; failing that, the parsed
    content after the trailing-comma repair; failing that, nothing. *)
Definition repair {U : Unicode} (content : str) : str :=
  re_sub false (Seqs [Chr (ch ","); Star Space; Chr (ch "]")]) (lit "]")
    (re_sub false (Seqs [Chr (ch ","); Star Space; Chr (ch "}")]) (lit "}") content).

Definition block_outcome {U : Unicode} {L : Libraries} (content : str) : list json :=
  match json_loads content with
  | Ok v => [v]
  | Raise _ =>
      match json_loads (repair content) with
      | Ok v => [v]
      | Raise _ => []
      end
  end.

(** The value [uniq_push] appends for a candidate, if it appends at all
    for want of an equal one: the candidate stripped, unless that is empty. *)
Definition pushable {U : Unicode} (val : option str) : option str :=
  match val with
  | None | Some [] => None
  | Some v => match strip v with [] => None | v' => Some v' end
  end.

(** [uniq_push] for a candidate that is pushable. *)
Definition push_new {U : Unicode} (arr : list str) (v : str) : list str :=
  if decide (lower v ∈ lower <$> arr) then arr else arr ++ [v].

(** [tags] keeps, of the candidates [cands], exactly the first of every
    class of candidates equal up to letter case, in the order of [cands]. *)
Definition first_of_each_case {U : Unicode} (tags cands : list str) : Prop :=
  (∀ i j x y, tags !! i = Some x → tags !! j = Some y → lower x = lower y → i = j)
  ∧ sublist tags cands
  ∧ (∀ x, x ∈ cands → ∃ y, y ∈ tags ∧ lower y = lower x)
  ∧ (∀ y, y ∈ tags →
       ∃ i, cands !! i = Some y ∧ ∀ j z, j < i → cands !! j = Some z → lower z ≠ lower y).

End Trace.
Export Trace.

(* ===================================================================== *)
(** * Example pages *)
(* ===================================================================== *)

(** Concrete documents, and concrete stand-ins for the libraries, on which
    the functions above are run. *)
Module Examples.

#[export] Existing Instance ascii_unicode.

(** A string in double quotes, as it stands in a JSON text. *)
Definition dq (s : string) : str := [34%N] ++ lit s ++ [34%N].

(** The JSON-LD of a Q&A page whose accepted answer is message [mid]. *)
Definition qapage_text (mid : string) : str :=
  lit "{" ++ dq "@type" ++ lit ":" ++ dq "QAPage" ++ lit "," ++ dq "mainEntity" ++ lit ":{"
  ++ dq "acceptedAnswer" ++ lit ":{" ++ dq "url" ++ lit ":"
  ++ [34%N] ++ lit "https://community.sap.com/t5/q/qaq-p/1#M" ++ lit mid ++ [34%N] ++ lit "}}}".

Definition qapage_json (mid : string) : json :=
  JDict [(lit "@type", JStr (lit "QAPage"));
         (lit "mainEntity",
          JDict [(lit "acceptedAnswer",
                  JDict [(lit "url", JStr (lit "https://community.sap.com/t5/q/qaq-p/1#M" ++ lit mid))])])].

(** The same text with a comma before the last closing brace. *)
Definition qapage_text_trailing_comma (mid : string) : str :=
  lit "{" ++ dq "@type" ++ lit ":" ++ dq "QAPage" ++ lit "," ++ dq "mainEntity" ++ lit ":{"
  ++ dq "acceptedAnswer" ++ lit ":{" ++ dq "url" ++ lit ":"
  ++ [34%N] ++ lit "https://community.sap.com/t5/q/qaq-p/1#M" ++ lit mid ++ [34%N] ++ lit "}}, }".

(** A parser that knows the two JSON texts of the examples and rejects
    every other text. *)
Definition example_json_loads (s : str) : result json :=
  if str_eqb s (qapage_text "55") then Ok (qapage_json "55")
  else if str_eqb s (qapage_text "77") then Ok (qapage_json "77")
  else Raise JSONDecodeError.

Definition site : str := lit "https://community.sap.com".

Definition example_libraries (page : soup) : Libraries := {|
  json_loads := example_json_loads;
  urljoin base u := Ok (if startswith (lit "/") u then site ++ u else u);
  urlparse_path u := if startswith site u then drop (length site) u else u;
  BeautifulSoup _ := page;
  strptime _ _ := Raise ValueError
|}.

(** Building documents. *)
Definition T (s : string) : node := NavigableString KText (lit s).
Definition E (o : oid) (name : string) (attrs : list (string * string)) (cs : list node) : node :=
  Tag o (lit name) ((fun p : string * string => (lit p.1, lit p.2)) <$> attrs) cs.
Definition document (cs : list node) : soup := Tag 0 (lit "[document]") [] cs.

(** The value of a computation that returns. *)
Definition the {A} (d : A) (r : result A) : A :=
  match r with Ok a => a | Raise _ => d end.

Definition qna_url : str := lit "https://community.sap.com/t5/q/qaq-p/1".

(** A question (101), a reply rendered twice (55: once inside the accepted
    wrapper without body, once with body and time), a reply that only the
    JSON-LD block marks as accepted (77), and a container without
    identifier. *)
Definition qna_page : soup :=
  document [
    E 1 "html" [] [
      E 2 "head" [] [
        E 3 "title" [] [T "Configure X"];
        E 4 "script" [("type", "application/ld+json")]
          [NavigableString KScript (qapage_text_trailing_comma "77")] ];
      E 5 "body" [] [
        E 6 "div" [("id", "message-101"); ("class", "lia-message-view-question")] [
          E 7 "div" [("class", "lia-message-body")] [ E 8 "p" [] [T "How do I configure X?"] ] ];
        E 9 "div" [("id", "message-55"); ("class", "lia-accepted-solution")] [
          E 10 "span" [("class", "MessageKudosCount")] [T "3"] ];
        E 11 "div" [("id", "message-55")] [
          E 12 "div" [("class", "lia-message-body")]
            [ E 13 "p" [] [T "Use config Y."];
              E 14 "a" [("href", "/t5/user/1")] [T "@JohnDoe"] ];
          E 15 "time" [("datetime", "2023-05-10T14:22:00Z")] [];
          E 16 "span" [("class", "MessageKudosCount")] [T "9"] ];
        E 17 "div" [("data-lia-message-uid", "77")] [
          E 18 "div" [("class", "lia-message-body")] [ E 19 "p" [] [T "Try Z."] ] ];
        E 20 "div" [("id", "message-abc")] [
          E 21 "div" [("class", "lia-message-body")] [ T "lost" ] ] ] ] ].


(** The first container with a question marker has no identifier; replies
    7 and 8 follow, 8 with a question marker too. *)
Definition marked_without_id_page : soup :=
  document [
    E 1 "body" [] [
      E 2 "div" [("id", "message-top"); ("class", "lia-message-view-question")] [];
      E 3 "div" [("id", "message-7")] [
        E 4 "div" [("class", "lia-message-body")] [ T "first" ] ];
      E 5 "div" [("id", "message-8"); ("class", "lia-message-view-question")] [
        E 6 "div" [("class", "lia-message-body")] [ T "second" ] ] ] ].

(** The first container with a question marker has an empty message-UID
    attribute and no other identifier source; replies 7 and 8 follow. *)
Definition marked_with_empty_uid_page : soup :=
  document [
    E 1 "body" [] [
      Tag 2 (lit "div")
        [(lit "data-lia-message-uid", []); (lit "class", lit "lia-message-view-question")] [];
      E 3 "div" [("id", "message-7")] [
        E 4 "div" [("class", "lia-message-body")] [ T "first" ] ];
      E 5 "div" [("id", "message-8")] [
        E 6 "div" [("class", "lia-message-body")] [ T "second" ] ] ] ].





Definition blog_url : str := lit "https://community.sap.com/t5/blogs/blog/1".

(** A blog page: an article body without text, and one comment container
    without identifier. *)
Definition blog_page : soup :=
  document [
    E 1 "body" [] [
      E 2 "div" [("class", "lia-article-body")] [ E 3 "p" [] [] ];
      E 4 "div" [("class", "comments")] [
        E 5 "div" [("id", "message-new")] [
          E 6 "div" [("class", "lia-message-body")] [ T "Nice post" ] ] ] ] ].




(** What the first loop observes on a page, with the libraries standing
    in for it. *)
Definition observations (page : soup) (page_url : str) : list observation * soup :=
  the ([], page)
    (@scan ascii_unicode (example_libraries page) page_url
       (candidate_containers page) page).

Definition flat_qna (page : soup) (page_url : str) : option str * option Z * list Answer * Z :=
  the (None, None, [], 0%Z)
    (@extract_flat_qna ascii_unicode (example_libraries page) page page_url).

(** The running example and its parts. *)
Definition qna_lib : Libraries := example_libraries qna_page.
Definition qna_obs : list observation := (observations qna_page qna_url).1.
Definition qna_final : soup := (observations qna_page qna_url).2.
Definition qna_qt : option str := (flat_qna qna_page qna_url).1.1.1.
Definition qna_qu : option Z := (flat_qna qna_page qna_url).1.1.2.
Definition qna_answers : list Answer := (flat_qna qna_page qna_url).1.2.
Definition qna_k : Z := (flat_qna qna_page qna_url).2.

End Examples.

(* ===================================================================== *)
(** * Fetching: HTTP, sitemaps and the crawl *)
(* ===================================================================== *)

(** The functions of the source that talk to the network.  What the
    network answers is given by an oracle; what the functions do to the
    outside (requests, sleeps, log lines) is recorded, in order, in a list
    of events that is passed in and returned. *)
Module Crawler.

(** A [requests.Response], as far as the scraper reads it. *)
Record Response := {
  status_code : Z;
  content : list Byte.byte;
  headers : list (str * str)
}.

(** What these functions can raise: whatever [requests.get] raises
    ([what] tells the exception objects apart), the [RuntimeError] of
    [http_get], the [ValueError] of [time.sleep] for a negative length
    and its [OverflowError] for a length too long for the clock,
    the errors of [gzip.decompress] ([OSError], which [parse_sitemap]
    catches, and the others, such as [EOFError] for a truncated stream),
    and an exception of a page parser. *)
Inductive failure :=
| RequestException (what : N)
| RuntimeError (message : str)
| SleepValueError
| SleepOverflowError
| OSError
| EOFError
| Uncaught (e : exn).

Inductive outcome (A : Type) : Type :=
| Returned (a : A)
| Raised (e : failure).
Arguments Returned {A} a.
Arguments Raised {A} e.

(** A finite [float], as the rational it denotes. *)
Definition float := QArith_base.Q.
Definition float_of_Z (z : Z) : float := QArith_base.Qmake z 1.

(** [x < 0] for a float. *)
Definition negative (x : float) : bool := negb (QArith_base.Qle_bool (float_of_Z 0) x).

Inductive level := INFO | WARNING | ERROR.

(** What is done to the outside: [requests.get(url, headers=DEFAULT_HEADERS,
    timeout=timeout)]; a sleep [time.sleep(d * factor)] that was made, for
    a [d] drawn by [random.uniform] from [sleep_range]; a line of the
    log. *)
Inductive event :=
| Get (url : str) (timeout : Z)
| Sleep (sleep_range : float * float) (factor : nat)
| Log (l : level).

Definition is_get (e : event) : bool :=
  match e with Get _ _ => true | _ => false end.

Definition is_sleep (e : event) : bool :=
  match e with Sleep _ _ => true | _ => false end.

(** The number of requests made so far. *)
Definition requests_made (tr : list event) : nat := length (filter is_get tr).

(** The outside world. *)
Class World := {
  (* what the request number [n] (from 0) of the run yields *)
  requests_get : nat → str → Z → outcome Response;
  (* random.uniform(a, b), as drawn after [n] requests of the run *)
  uniform : nat → float * float → float;
  (* the lengths too long for the clock of the platform, which time.sleep
     refuses with OverflowError *)
  sleep_overflows : float → bool;
  (* gzip.decompress(content) *)
  gzip_decompress : list Byte.byte → outcome (list Byte.byte);
  (* BeautifulSoup(content, "xml") *)
  BeautifulSoup_xml : list Byte.byte → soup;
  (* int(datetime.fromisoformat(s).timestamp()) *)
  fromisoformat_timestamp : str → result Z
}.

(** One entry of a sitemap: the dict with the keys ["loc"], ["lastmod"]
    and ["source_sitemap"]. *)
Record entry := {
  loc : str;
  lastmod : option str;
  source_sitemap : str
}.

Section Source.
Context {U : Unicode} {L : Libraries} {W : World}.

(** ** HTTP helpers *)

(** What [time.sleep(secs)] raises, when it does not sleep: [ValueError]
    for a negative length, [OverflowError] for a length too long for the
    clock of the platform. *)
Definition sleep_refusal (secs : float) : option failure :=
  if negative secs then Some SleepValueError
  else if sleep_overflows secs then Some SleepOverflowError
  else None.

(** [time.sleep(secs)]; a sleep that is made is recorded as [ev]. *)
Definition time_sleep (secs : float) (ev : event) (tr : list event)
    : outcome () * list event :=
  match sleep_refusal secs with
  | Some exc => (Raised exc, tr)
  | None => (Returned (), tr ++ [ev])
  end.

(** [random.uniform] of the two ends of [sleep_range].  Every draw follows a request made
    since the draw before it, so the number of requests made tells the
    draws apart. *)
Definition random_uniform (sleep_range : float * float) (tr : list event) : float :=
  uniform (requests_made tr) sleep_range.

(** The loop of [http_get] over the attempts still to make.  The sleep
    of line 58 is outside the [try]: what it raises ends [http_get]. *)
Fixpoint http_get_loop (url : str) (timeout : Z) (sleep_range : float * float)
    (attempts : list nat) (last_exc : option failure) (tr : list event)
    : outcome Response * list event :=
  match attempts with
  | [] =>
      match last_exc with
      | Some exc => (Raised exc, tr)
      | None => (Raised (RuntimeError (lit "Failed to GET " ++ url)), tr)
      end
  | attempt :: rest =>
      let after_failure (last_exc : option failure) :=
        let tr := tr ++ [Get url timeout; Log WARNING] in
        match time_sleep (QArith_base.Qmult (random_uniform sleep_range tr)
                            (float_of_Z (Z.of_nat attempt)))
                (Sleep sleep_range attempt) tr with
        | (Returned _, tr) => http_get_loop url timeout sleep_range rest last_exc tr
        | (Raised exc, tr) => (Raised exc, tr)
        end in
      match requests_get (requests_made tr) url timeout with
      | Returned resp =>
          if (status_code resp =? 200)%Z
          then (Returned resp, tr ++ [Get url timeout])
          else after_failure last_exc
      | Raised exc => after_failure (Some exc)
      end
  end.

(** [http_get(url, timeout, max_retries, sleep_range)]; the attempts are
    [range(1, max_retries + 1)]. *)
Definition http_get (url : str) (timeout : Z) (max_retries : Z)
    (sleep_range : float * float) (tr : list event) : outcome Response * list event :=
  http_get_loop url timeout sleep_range (seq 1 (Z.to_nat max_retries)) None tr.

(** ** Sitemap parsing *)

(** [resp.headers.get(k, "")]: the keys of the headers of a response are
    compared without regard to letter case. *)
Definition headers_get (resp : Response) (k : str) : str :=
  default [] (snd <$> head (filter (fun kv => lower kv.1 = lower k) (headers resp))).

(** [t.text]. *)
Definition tag_text (t : node) : str := get_text [] false t.

(** The dict appended for one [url] tag, if one is. *)
Definition entry_of (url : str) (url_tag : node) : option entry :=
  let loc := find (name_in [lit "loc"]) url_tag in
  let lastmod := find (name_in [lit "lastmod"]) url_tag in
  match loc with
  | Some loc =>
      match tag_text loc with
      | [] => None
      | _ =>
          Some {| loc := strip (tag_text loc);
                  lastmod := match lastmod with
                             | Some lastmod =>
                                 match tag_text lastmod with
                                 | [] => None
                                 | _ => Some (strip (tag_text lastmod))
                                 end
                             | None => None
                             end;
                  source_sitemap := url |}
      end
  | None => None
  end.

Definition parse_sitemap (url : str) (tr : list event) : outcome (list entry) * list event :=
  match http_get url 30 3 (float_of_Z 1, float_of_Z 2) tr with
  | (Raised exc, tr) => (Raised exc, tr)
  | (Returned resp, tr) =>
      let content := content resp in
      let content :=
        if endswith (lit ".gz") (lower url)
           || startswith (lit "application/x-gzip") (headers_get resp (lit "Content-Type"))
        then match gzip_decompress content with
             | Returned c => Returned c
             | Raised OSError => Returned content
             | Raised exc => Raised exc
             end
        else Returned content in
      match content with
      | Raised exc => (Raised exc, tr)
      | Returned content =>
          let soup := BeautifulSoup_xml content in
          (Returned (omap (entry_of url) (find_all (name_in [lit "url"]) soup)), tr)
      end
  end.

(** ** Page types *)

Definition detect_content_type (parsed_url : str) : str :=
  let path := lower (urlparse_path parsed_url) in
  if contains (lit "/qaq-p/") path || contains (lit "/qa-p/") path then lit "qna"
  else if contains (lit "/blogs/") path || contains (lit "/blog/") path then lit "blog"
  else lit "other".

Definition parse_generic_page (url : str) (html : list Byte.byte) : ContentItem :=
  let root := BeautifulSoup html in
  let common := extract_common_fields root in
  {| Scraper.url := url;
     lastmod_from_sitemap := None;
     content_type := lit "other";
     title := cf_title common;
     item_author := cf_author common;
     published_at := cf_published_at common;
     updated_at := cf_updated_at common;
     board := None;
     tags := cf_tags common;
     question_text := None;
     question_upvotes := None;
     answers := [];
     reply_count := Some 0%Z |}.

(** ** The crawl *)

(** The first loop of [scrape_from_sitemaps]: a sitemap that cannot be
    parsed is logged and left out. *)
Fixpoint sitemaps_loop (sitemap_urls : list str) (entries : list entry) (tr : list event)
    : list entry * list event :=
  match sitemap_urls with
  | [] => (entries, tr)
  | sm :: rest =>
      match parse_sitemap sm tr with
      | (Returned urls, tr) => sitemaps_loop rest (entries ++ urls) tr
      | (Raised _, tr) => sitemaps_loop rest entries (tr ++ [Log ERROR])
      end
  end.

(** The inner function [sort_key]. *)
Definition sort_key (e : entry) : Z :=
  match lastmod e with
  | None | Some [] => 0
  | Some lm =>
      match fromisoformat_timestamp (replace_char (ch "Z") (lit "+00:00") lm) with
      | Ok t => t
      | Raise _ => 0
      end
  end.

(** [l.sort(key=key, reverse=True)].  The sort of Python is stable, also
    when reversed: the result has the elements of [l] with keys from
    greatest to least, those of equal key in the order they have in [l].
    Insertion from the right computes that list. *)
Fixpoint insert_desc {A} (key : A → Z) (x : A) (l : list A) : list A :=
  match l with
  | [] => [x]
  | y :: l' => if (key x <? key y)%Z then y :: insert_desc key x l' else x :: l
  end.

Definition sort_desc {A} (key : A → Z) (l : list A) : list A := foldr (insert_desc key) [] l.

(** [l[:limit]], also for a negative [limit]. *)
Definition slice_to {A} (limit : Z) (l : list A) : list A :=
  if (0 <=? limit)%Z then take (Z.to_nat limit) l
  else take (length l - Z.to_nat (- limit)) l.

(** [item.lastmod_from_sitemap = lm]. *)
Definition set_lastmod (item : ContentItem) (lm : option str) : ContentItem :=
  {| Scraper.url := Scraper.url item;
     lastmod_from_sitemap := lm;
     content_type := content_type item;
     title := title item;
     item_author := item_author item;
     published_at := published_at item;
     updated_at := updated_at item;
     board := board item;
     tags := tags item;
     question_text := question_text item;
     question_upvotes := question_upvotes item;
     answers := answers item;
     reply_count := reply_count item |}.

(** The parser chosen for a page, lines 788-794. *)
Definition parse_page (url : str) (html : list Byte.byte) : result ContentItem :=
  let ctype := detect_content_type url in
  if str_eqb ctype (lit "qna") then parse_qna_page url html
  else if str_eqb ctype (lit "blog") then parse_blog_page url html
  else Ok (parse_generic_page url html).

(** The second loop of [scrape_from_sitemaps]: a page that cannot be
    fetched is logged and left out; an exception of a page parser is not
    caught, and neither is one of the sleep of line 798. *)
Fixpoint pages_loop (entries : list entry) (timeout : Z) (sleep_range : float * float)
    (max_retries : Z) (results : list ContentItem) (tr : list event)
    : outcome (list ContentItem) * list event :=
  match entries with
  | [] => (Returned results, tr)
  | e :: rest =>
      let url := loc e in
      match http_get url timeout max_retries sleep_range (tr ++ [Log INFO]) with
      | (Raised _, tr) =>
          pages_loop rest timeout sleep_range max_retries results (tr ++ [Log WARNING])
      | (Returned resp, tr) =>
          match parse_page url (content resp) with
          | Raise exc => (Raised (Uncaught exc), tr)
          | Ok item =>
              match time_sleep (random_uniform sleep_range tr) (Sleep sleep_range 1) tr with
              | (Returned _, tr) =>
                  pages_loop rest timeout sleep_range max_retries
                    (results ++ [set_lastmod item (lastmod e)]) tr
              | (Raised exc, tr) => (Raised exc, tr)
              end
          end
      end
  end.

Definition scrape_from_sitemaps (sitemap_urls : list str) (limit : Z) (timeout : Z)
    (sleep_range : float * float) (max_retries : Z) (tr : list event)
    : outcome (list ContentItem) * list event :=
  let '(entries, tr) := sitemaps_loop sitemap_urls [] tr in
  match entries with
  | [] => (Returned [], tr ++ [Log WARNING])
  | _ =>
      let entries := sort_desc sort_key entries in
      let entries := slice_to limit entries in
      pages_loop entries timeout sleep_range max_retries [] tr
  end.

End Source.

End Crawler.

(* ===================================================================== *)
(** * The vocabulary of the further properties *)
(* ===================================================================== *)

(** What the further properties of the scraper are stated in: the forms
    its string functions bring a text into, what the regular-expression
    engine does for the simple patterns, and what is read off a run of the
    crawl. *)
Module Shapes.

(** ** The engine on simple patterns *)

(** A pattern that matches exactly one character, and the test it makes. *)
Definition char_test {U : Unicode} (ic : bool) (r : regex) : option (char → bool) :=
  match r with
  | Chr c => Some (fun a => if ic then ieq a c else (a =? c)%N)
  | Cls cs => Some (fun a => existsb (N.eqb a) cs)
  | Rng lo hi => Some (fun a => (lo <=? a)%N && (a <=? hi)%N)
  | Digit => Some isdecimal
  | Space => Some isspace
  | _ => None
  end.

(** The words of a pattern.  The anchors [\b], [^] and [$] read nothing:
    what they ask of the text around the word is left out. *)
Inductive lang {U : Unicode} (ic : bool) : regex → str → Prop :=
| lang_Eps : lang ic Eps []
| lang_char r test a : char_test ic r = Some test → test a = true → lang ic r [a]
| lang_Seq r1 r2 w1 w2 : lang ic r1 w1 → lang ic r2 w2 → lang ic (Seq r1 r2) (w1 ++ w2)
| lang_Alt_l r1 r2 w : lang ic r1 w → lang ic (Alt r1 r2) w
| lang_Alt_r r1 r2 w : lang ic r2 w → lang ic (Alt r1 r2) w
| lang_Star_nil r : lang ic (Star r) []
| lang_Star_cons r w1 w2 : lang ic r w1 → lang ic (Star r) w2 → lang ic (Star r) (w1 ++ w2)
| lang_Group r w : lang ic r w → lang ic (Group r) w
| lang_WordB : lang ic WordB []
| lang_Bol : lang ic Bol []
| lang_Eol : lang ic Eol [].

(** Whatever the engine reads for [r] before it goes on is a word of
    [r]. *)
Definition sound_at {U : Unicode} (ic : bool) (r : regex) : Prop :=
  ∀ prev s g k x, go ic r prev s g k = Some x →
    ∃ w s' p g', s = w ++ s' ∧ lang ic r w ∧ k p s' g' = Some x.

(** What the engine does for [r*] when [r] tests one character: the
    longest run first, then the shorter ones. *)
Fixpoint star_spec (test : char → bool) (k : option char → str → option str → option matched)
    (prev : option char) (s : str) (g : option str) : option matched :=
  match s with
  | a :: s' =>
      if test a
      then match star_spec test k (Some a) s' g with
           | Some x => Some x
           | None => k prev s g
           end
      else k prev s g
  | [] => k prev s g
  end.

(** [s] without its longest prefix of characters that pass [test], and
    that prefix. *)
Fixpoint drop_run (test : char → bool) (s : str) : str :=
  match s with
  | a :: s' => if test a then drop_run test s' else s
  | [] => []
  end.

Fixpoint take_run (test : char → bool) (s : str) : str :=
  match s with
  | a :: s' => if test a then a :: take_run test s' else []
  | [] => []
  end.

(** What [re.sub] does for [r+] when [r] tests one character: every
    run of characters that pass the test becomes [repl]; [in_run] tells
    whether the run has begun. *)
Fixpoint squeeze (test : char → bool) (repl : str) (in_run : bool) (s : str) : str :=
  match s with
  | [] => []
  | c :: s' =>
      if test c
      then (if in_run then [] else repl) ++ squeeze test repl true s'
      else c :: squeeze test repl false s'
  end.

(** The end of a pattern: the match is what has been read. *)
Definition kf : option char → str → option str → option matched :=
  fun _ rest g => Some (rest, g).

Definition in_list (cs : list char) (c : char) : bool := existsb (N.eqb c) cs.

Definition is_nl (c : char) : bool := (c =? 10)%N.

(** The third pattern of the clean-up of [node_to_markdown],
    [\n\s*\n\s*\n+]; what is left of it after the second [\s*], and after
    the first. *)
Definition BLANK_LINES : regex :=
  Seqs [Chr 10%N; Star Space; Chr 10%N; Star Space; Plus (Chr 10%N)].

Definition k2 : option char → str → option str → option matched :=
  fun _ s g => match s with
               | a :: s' => if is_nl a then Some (drop_run is_nl s', g) else None
               | [] => None
               end.

Definition k1 {U : Unicode} : option char → str → option str → option matched :=
  fun _ s g => match s with
               | a :: s' => if is_nl a then star_spec isspace k2 (Some a) s' g else None
               | [] => None
               end.

(** ** Forms of a text *)

(** No whitespace character at either end. *)
Definition trimmed {U : Unicode} (t : str) : Prop :=
  (∀ c, head t = Some c → isspace c = false) ∧ (∀ c, last t = Some c → isspace c = false).

(** No two characters that pass [P] side by side; [after]: the
    character before passes it. *)
Fixpoint apart (P : char → bool) (after : bool) (t : str) : bool :=
  match t with
  | [] => true
  | c :: t' => if P c then negb after && apart P true t' else apart P false t'
  end.

(** Never three line feeds in a row; [n]: the line feeds just before. *)
Fixpoint no_triple (n : nat) (t : str) : bool :=
  match t with
  | [] => true
  | c :: t' => if (c =? 10)%N then (n <? 2) && no_triple (S n) t' else no_triple 0 t'
  end.

(** The form [normalize_whitespace] brings a string into: no whitespace
    at the ends, no whitespace character but U+0020, no two of them side
    by side, and none of U+00A0, U+200E and U+200F. *)
Definition whitespace_normal {U : Unicode} (t : str) : Prop :=
  trimmed t
  ∧ apart isspace false t = true
  ∧ Forall (fun c => isspace c = true → c = 32%N) t
  ∧ Forall (fun c => c ∉ [160; 8206; 8207]%N) t.

(** The form the clean-up of [node_to_markdown] brings a text into: no
    whitespace at the ends; none of the no-break spaces U+00A0, U+202F and
    U+2007, of the zero-width characters U+200B to U+200D, and no tab; no
    two spaces side by side; never three line feeds in a row. *)
Definition markdown_clean {U : Unicode} (t : str) : Prop :=
  trimmed t
  ∧ Forall (fun c => c ∉ [160; 8239; 8199; 8203; 8204; 8205; 9]%N) t
  ∧ apart (fun c => (c =? 32)%N) false t = true
  ∧ no_triple 0 t = true.

(** A non-empty string of decimal digits. *)
Definition digits {U : Unicode} (d : str) : Prop :=
  d ≠ [] ∧ Forall (fun c => isdecimal c = true) d.

Definition all_digits {U : Unicode} (ids : gset str) : Prop := ∀ mid, mid ∈ ids → digits mid.

(** One of the characters [0] to [9]. *)
Definition ascii_digit (c : char) : Prop := (48 ≤ c ≤ 57)%N.

(** A [datetime] as [strptime] makes them. *)
Definition valid_datetime (dt : datetime) : Prop :=
  (dt_year dt < 10000 ∧ dt_month dt < 100 ∧ dt_day dt < 100
   ∧ dt_hour dt < 100 ∧ dt_minute dt < 100 ∧ dt_second dt < 100)%N.

(** ** Forms of a record *)

(** The address [build_answer_from_div] gives a message: the page address
    and the fragment [#M<identifier>]; none without an identifier. *)
Definition url_of_message (page_url : str) (msg_id : option str) : option str :=
  match msg_id with
  | Some ((_ :: _) as mid) => Some (page_url ++ lit "#M" ++ mid)
  | _ => None
  end.

(** The text fields of an [Answer] in the form their makers leave them. *)
Definition fields_in_normal_form {U : Unicode} (a : Answer) : Prop :=
  (∀ t, text a = Some t → t ≠ [] ∧ markdown_clean t)
  ∧ (∀ au, author a = Some au → whitespace_normal au).

(** The identifiers of the answers that have one. *)
Definition identified (answers : list Answer) : list (option str) :=
  filter (fun m => truthy m = true) (message_id <$> answers).

(** What [parse_blog_page] leaves in every comment. *)
Definition blog_comment {U : Unicode} (url : str) (a : Answer) : Prop :=
  is_accepted a = false
  ∧ message_url a = url_of_message url (message_id a)
  ∧ fields_in_normal_form a.

(** ** A run of the crawl *)

Import Crawler.

(** The events of the failed attempts [a], [a+1], ..., [a+k-1] of
    [http_get]. *)
Definition failed_attempts (url : str) (timeout : Z) (sleep_range : float * float)
    (a k : nat) : list event :=
  seq a k ≫= (fun attempt => [Get url timeout; Log WARNING; Sleep sleep_range attempt]).

(** What refuses the sleep after the failed attempt number [attempt] of a
    fetch, and what refuses the pause after a page, when [k] requests have
    been made; [None] when the sleep is made. *)
Definition retry_refusal {W : World} (sleep_range : float * float) (k attempt : nat)
    : option failure :=
  sleep_refusal (QArith_base.Qmult (uniform k sleep_range) (float_of_Z (Z.of_nat attempt))).

Definition pause_refusal {W : World} (sleep_range : float * float) (k : nat) : option failure :=
  sleep_refusal (uniform k sleep_range).

(** No sleep is refused that a crawl with this range and this number of
    attempts asks for. *)
Definition sleeps_accepted {W : World} (sleep_range : float * float) (max_retries : Z) : Prop :=
  (∀ k attempt, 1 ≤ attempt ≤ Z.to_nat max_retries →
                retry_refusal sleep_range k attempt = None)
  ∧ (∀ k, pause_refusal sleep_range k = None).

(** An attempt that ends [http_get]: a response with status 200. *)
Definition succeeded (o : outcome Response) : bool :=
  match o with
  | Returned resp => (status_code resp =? 200)%Z
  | Raised _ => false
  end.

Definition raised {A} (o : outcome A) : option failure :=
  match o with Returned _ => None | Raised e => Some e end.

(** An entry as [parse_sitemap] makes them for the sitemap at [url]. *)
Definition entry_from {U : Unicode} (url : str) (e : entry) : Prop :=
  source_sitemap e = url
  ∧ trimmed (loc e)
  ∧ (∀ lm, lastmod e = Some lm → trimmed lm).

(** From greatest key to least. *)
Fixpoint descending {A} (key : A → Z) (l : list A) : Prop :=
  match l with
  | [] => True
  | x :: l' => Forall (fun y => (key y ≤ key x)%Z) l' ∧ descending key l'
  end.

(** The key [sort_key] gives to the entry a page came from. *)
Definition item_key {W : World} (item : ContentItem) : Z :=
  sort_key {| loc := Scraper.url item; lastmod := lastmod_from_sitemap item;
              source_sitemap := [] |}.

(** Reading a list of events for its pace: [pending] tells whether a
    request has been made and no sleep since; the result is [None] when a
    request follows another with no sleep between them. *)
Fixpoint pace (pending : bool) (tr : list event) : option bool :=
  match tr with
  | [] => Some pending
  | Get _ _ :: tr' => if pending then None else pace true tr'
  | Sleep _ _ :: tr' => pace false tr'
  | Log _ :: tr' => pace pending tr'
  end.

(** What the second loop of [scrape_from_sitemaps] makes of an entry it
    keeps. *)
Definition fetched_from {U : Unicode} {L : Libraries} (item : ContentItem) (e : entry) : Prop :=
  Scraper.url item = loc e
  ∧ lastmod_from_sitemap item = lastmod e
  ∧ content_type item = detect_content_type (loc e).

End Shapes.

(* ===================================================================== *)
(** * An example crawl *)
(* ===================================================================== *)

(** A small outside world on which the functions of [Crawler] are run. *)
Module CrawlExamples.
Import Examples Crawler Shapes.

Definition sitemap_url : str := lit "https://community.sap.com/sitemap.xml.gz".
Definition missing_url : str := lit "https://community.sap.com/t5/q/qaq-p/404".
Definition nested_url : str := lit "https://community.sap.com/t5/q/qaq-p/2".

(** A reply inside the [noscript] of the body of the message before it. *)
Definition nested_page : soup :=
  document [
    E 1 "body" [] [
      E 2 "div" [("id", "message-1")] [
        E 3 "div" [("class", "lia-message-body")] [
          E 4 "noscript" [] [ E 5 "div" [("id", "message-2")] [] ] ] ] ] ].

(** The pages are told apart by the first byte of their content. *)
Definition page_of (html : list Byte.byte) : soup :=
  match html with
  | Byte.x01 :: _ => blog_page
  | Byte.x02 :: _ => nested_page
  | _ => qna_page
  end.

Definition crawl_libraries : Libraries := {|
  json_loads := example_json_loads;
  urljoin base u := Ok (if startswith (lit "/") u then site ++ u else u);
  urlparse_path u := if startswith site u then drop (length site) u else u;
  BeautifulSoup := page_of;
  strptime _ _ := Raise ValueError
|}.

(** The same libraries with a [strptime] that reads one friendly date. *)
Definition dated_libraries : Libraries := {|
  json_loads := example_json_loads;
  urljoin base u := Ok (if startswith (lit "/") u then site ++ u else u);
  urlparse_path u := if startswith site u then drop (length site) u else u;
  BeautifulSoup := page_of;
  strptime s fmt :=
    if str_eqb s (lit "2023 May 10 02:22 PM") && str_eqb fmt (lit "%Y %b %d %I:%M %p")
    then Ok {| dt_year := 2023; dt_month := 5; dt_day := 10;
               dt_hour := 14; dt_minute := 22; dt_second := 0 |}
    else Raise ValueError
|}.

(** A message whose [time] tag carries the friendly date only. *)
Definition dated_container : node :=
  E 1 "div" [("id", "message-9")] [ E 2 "time" [("title", "2023 May  10 02:22 PM")] [] ].

(** A container with a kudos counter. *)
Definition kudos_container : node :=
  E 1 "div" [("id", "message-9")] [ E 2 "span" [("class", "MessageKudosCount")] [T "3"] ].

Definition ok (body : list Byte.byte) : Response :=
  {| status_code := 200; content := body; headers := [] |}.

Definition unavailable : Response :=
  {| status_code := 503; content := []; headers := [] |}.

(** A sitemap entry as it stands in the XML. *)
Definition url_entry (o : oid) (loc_ : str) (lastmod_ : option string) : node :=
  Tag o (lit "url") []
    (Tag (o + 1) (lit "loc") [] [NavigableString KText loc_]
     :: match lastmod_ with
        | Some lm => [Tag (o + 2) (lit "lastmod") [] [T lm]]
        | None => []
        end).

(** A blog page without date, a Q&A page, and a page that cannot be
    fetched, the newest of the three. *)
Definition sitemap : soup :=
  document [
    E 1 "urlset" [] [
      url_entry 10 blog_url None;
      url_entry 20 qna_url (Some "2023-05-10T00:00:00Z");
      url_entry 30 missing_url (Some "2024-01-01T00:00:00Z") ] ].


(** The sitemap answers at the third attempt; the pages at the first,
    but for the missing one. *)
Definition example_world (sitemap_xml : soup) : World := {|
  requests_get n url _ :=
    if str_eqb url sitemap_url
    then match n with
         | 0 => Raised (RequestException 1)
         | 1 => Returned unavailable
         | _ => Returned (ok [])
         end
    else if str_eqb url qna_url then Returned (ok [Byte.x00])
    else if str_eqb url blog_url then Returned (ok [Byte.x01])
    else if str_eqb url nested_url then Returned (ok [Byte.x02])
    else Raised (RequestException 2);
  uniform _ sleep_range := sleep_range.1;
  sleep_overflows secs := negb (QArith_base.Qle_bool secs (float_of_Z 9223372036));
  gzip_decompress _ := Raised OSError;
  BeautifulSoup_xml _ := sitemap_xml;
  fromisoformat_timestamp s :=
    if str_eqb s (lit "2023-05-10T00:00:00+00:00") then Ok 1683676800%Z
    else if str_eqb s (lit "2024-01-01T00:00:00+00:00") then Ok 1704067200%Z
    else Raise ValueError
|}.

Definition world : World := example_world sitemap.

Definition one_to_two : float * float := (float_of_Z 1, float_of_Z 2).

(** The value of a computation that returns. *)
Definition returned {A} (d : A) (o : outcome A) : A :=
  match o with Returned a => a | Raised _ => d end.

(** A sleep range below zero, and one of lengths too long for the clock
    (more than 2^63 nanoseconds): [time.sleep] refuses every length drawn
    from them. *)
Definition below_zero : float * float := (float_of_Z (-2), float_of_Z (-1)).
Definition too_long : float * float := (float_of_Z 10000000000, float_of_Z 20000000000).

(** Fetching the sitemap, and a page that is not there. *)
Definition sitemap_fetch : outcome Response * list event :=
  @http_get world sitemap_url 30 3 one_to_two [].

Definition missing_fetch : outcome Response * list event :=
  @http_get world missing_url 30 3 one_to_two [].

(** The crawl of the sitemap, and of the sitemap with the nested page. *)
Definition crawl : outcome (list ContentItem) * list event :=
  @scrape_from_sitemaps ascii_unicode crawl_libraries world [sitemap_url] 10 30 one_to_two 3 [].


(** The same fetch and the same crawl with the sleep range below zero. *)
Definition hasty_fetch : outcome Response * list event :=
  @http_get world missing_url 30 3 below_zero [].

Definition hasty_crawl : outcome (list ContentItem) * list event :=
  @scrape_from_sitemaps ascii_unicode crawl_libraries world [sitemap_url] 10 30 below_zero 3 [].

Definition sleepy_fetch : outcome Response * list event :=
  @http_get world missing_url 30 3 too_long [].

(** The blog page as [parse_blog_page] reads it. *)
Definition blog_item : ContentItem :=
  the (@parse_generic_page ascii_unicode crawl_libraries blog_url [])
    (@parse_blog_page ascii_unicode crawl_libraries blog_url [Byte.x01]).

(** What the crawl returns. *)
Definition crawl_results : list ContentItem := returned [] crawl.1.

End CrawlExamples.

(* ===================================================================== *)
(** * Lists and the exception monad *)
(* ===================================================================== *)

Lemma elem_of_first_seen x l : x ∈ first_seen l ↔ x ∈ l.
Proof.
  induction l as [|a l IH]; simpl; [done|].
  rewrite !elem_of_cons, list_elem_of_filter, IH.
  destruct (decide (x = a)); naive_solver.
Qed.

Lemma NoDup_first_seen l : NoDup (first_seen l).
Proof.
  induction l as [|a l IH]; simpl; constructor.
  - rewrite list_elem_of_filter. naive_solver.
  - by apply NoDup_filter.
Qed.

Lemma first_seen_snoc l x :
  first_seen (l ++ [x]) = if decide (x ∈ l) then first_seen l else first_seen l ++ [x].
Proof.
  induction l as [|a l IH].
  - destruct (decide (x ∈ [])) as [Hin|_]; [by apply elem_of_nil in Hin | done].
  - change (first_seen ((a :: l) ++ [x])) with (a :: filter (fun y => y ≠ a) (first_seen (l ++ [x]))).
    rewrite IH. destruct (decide (x ∈ l)) as [Hin|Hnin].
    + rewrite decide_True; [done | by right].
    + rewrite filter_app.
      destruct (decide (x = a)) as [->|Hne].
      * rewrite decide_True by left.
        rewrite filter_cons_False by naive_solver. cbn. by rewrite app_nil_r.
      * rewrite decide_False by (rewrite elem_of_cons; naive_solver).
        rewrite filter_cons_True by done. done.
Qed.

Lemma filter_ne_not_elem (x : str) (l : list str) : x ∉ l → filter (fun y => y ≠ x) l = l.
Proof.
  induction l as [|a l IH]; intros Hnin; [done|].
  rewrite not_elem_of_cons in Hnin. destruct Hnin as [Hne Hnin].
  rewrite filter_cons_True by done. by rewrite IH.
Qed.

(** Removing the one occurrence of an element of a duplicate-free list. *)
Lemma list_remove_NoDup x l :
  NoDup l → x ∈ l → list_remove x l = Ok (filter (fun y => y ≠ x) l).
Proof.
  induction 1 as [|a l Hnin Hnd IH]; intros Hin; [by apply elem_of_nil in Hin|].
  simpl. unfold str_eqb. case_bool_decide as Heq.
  - subst a. rewrite filter_cons_False by naive_solver.
    by rewrite filter_ne_not_elem.
  - rewrite filter_cons_True by done.
    apply elem_of_cons in Hin as [->|Hin]; [done|].
    rewrite IH by done. done.
Qed.

Lemma bind_Ok {A B} (m : result A) (f : A → result B) b :
  m ≫= f = Ok b ↔ ∃ a, m = Ok a ∧ f a = Ok b.
Proof. destruct m; cbn; split; [eauto | by intros (? & [= ->] & ?) | done | by intros (? & ? & ?)]. Qed.

Tactic Notation "inv_bind" hyp(H) "as" simple_intropattern(x) ident(E) :=
  apply bind_Ok in H as (x & E & H).

Lemma first_nonempty_merge_head {A} (ne : A → bool) (x y : A) (l : list A) :
  first_nonempty ne (x :: y :: l)
  = first_nonempty ne ((if negb (ne x) && ne y then y else x) :: l).
Proof.
  unfold first_nonempty. cbn.
  destruct (ne x) eqn:Ex, (ne y) eqn:Ey; cbn; rewrite ?Ex, ?Ey; cbn; try done.
  all: repeat case_decide; try done.
  all: destruct (list_find _ l) as [[? ?]|]; cbn; try done.
Qed.

Lemma merge_fold_message_id a0 rest :
  message_id (foldl merge_into a0 rest) = message_id a0.
Proof. revert a0. induction rest as [|b rest IH]; intros a0; cbn; [done|]. by rewrite IH. Qed.


Lemma merge_fold_text a0 rest :
  first_nonempty truthy (text <$> a0 :: rest) = Some (text (foldl merge_into a0 rest)).
Proof.
  revert a0. induction rest as [|b rest IH]; intros a0.
  - unfold first_nonempty. cbn. by case_decide.
  - rewrite !fmap_cons, first_nonempty_merge_head. cbn [foldl].
    rewrite <- IH. by rewrite fmap_cons.
Qed.



(* ===================================================================== *)
(** * Properties *)
(* ===================================================================== *)

Section Properties.
Context {U : Unicode} {L : Libraries}.

Lemma live_Ok e root o n : live e root o = Ok n ↔ deref root o = Some n.
Proof. unfold live. destruct (deref root o); split; congruence. Qed.

Lemma extract_body_markdown_not_empty root c page_url t root' :
  extract_body_markdown root c page_url = Ok (t, root') → t ≠ Some [].
Proof.
  unfold extract_body_markdown. intros Hb. inv_bind Hb as n En.
  destruct (find _ n) as [body_div|]; [|by inversion Hb].
  inv_bind Hb as body Ebody. injection Hb as <- _. by destruct (node_to_markdown _ _).
Qed.

Lemma build_answer_spec root div page_url ans root' :
  build_answer_from_div root div page_url = Ok (ans, root') →
  ∃ n n' ancs, deref root div = Some n ∧ locate root' div = Some (n', ancs)
    ∧ message_id ans = get_msg_id n
    ∧ extract_body_markdown root div page_url = Ok (text ans, root')
    ∧ created_at ans = parse_datetime_candidate n' ancs
    ∧ upvotes ans = extract_upvotes n' ancs
    ∧ is_accepted ans = container_has_accepted_marker_for_message n'.
Proof.
  unfold build_answer_from_div. intros Hb. inv_bind Hb as n En. apply live_Ok in En.
  inv_bind Hb as [text_md root1] Ebody. inv_bind Hb as [n1 ancs] En1.
  unfold live_located in En1. destruct (locate root1 div) as [p|] eqn:Hloc; [|done].
  injection En1 as ->. injection Hb as <- <-. exists n, n1, ancs. by rewrite Ebody.
Qed.


Lemma scan_observed page_url cs root obs final :
  scan page_url cs root = Ok (obs, final) → Forall (observed page_url cs) obs.
Proof.
  revert root obs. induction cs as [|div cs IH]; intros root obs Hs; cbn in Hs.
  - injection Hs as <- _. constructor.
  - inv_bind Hs as n En. apply live_Ok in En.
    assert (Hmono : ∀ obs', Forall (observed page_url cs) obs' → Forall (observed page_url (div :: cs)) obs').
    { intros obs' Hf. eapply Forall_impl; [exact Hf|].
      intros o (? & ? & ? & ?). split_and!; [by right|done..]. }
    destruct (get_msg_id n) as [[|c mid]|] eqn:Emid; [by eauto| |by eauto].
    inv_bind Hs as [ans root1] Eb. inv_bind Hs as [obs1 final1] Es.
    injection Hs as <- <-. constructor; [|by eauto].
    split_and!; cbn; [by left|done|by eauto|done].
Qed.

Lemma observed_message_id page_url cs o :
  observed page_url cs o → message_id (ob_answer o) = Some (ob_mid o).
Proof.
  intros (_ & _ & (n & Hn & Hmid) & Hb).
  apply build_answer_spec in Hb as (n1 & _ & _ & Hn1 & _ & Hid & _). congruence.
Qed.



Lemma group_snoc mid pre o :
  group mid (pre ++ [o]) = group mid pre ++ (if decide (ob_mid o = mid) then [ob_answer o] else []).
Proof.
  unfold group. rewrite filter_app, fmap_app. f_equal.
  destruct (decide (ob_mid o = mid)).
  - by rewrite filter_cons_True.
  - by rewrite filter_cons_False.
Qed.

Lemma group_nil mid obs : mid ∉ mids obs → group mid obs = [].
Proof.
  unfold group, mids. induction obs as [|o obs IH]; [done|].
  rewrite fmap_cons, not_elem_of_cons. intros [Hne Hnin].
  rewrite filter_cons_False by congruence. auto.
Qed.

Lemma dedup_inv_init root :
  dedup_inv [] {| st_soup := root; st_heap := []; answers_by_id := ∅; order := [] |}.
Proof.
  split; cbn; [done| | |].
  - intros mid. rewrite lookup_empty. split; [by intros [? ?]|by intros ?%elem_of_nil].
  - intros mid b. by rewrite lookup_empty.
  - intros m1 m2 b. by rewrite lookup_empty.
Qed.

Lemma dedup_inv_merge pre st o b base root :
  dedup_inv pre st →
  answers_by_id st !! ob_mid o = Some b →
  heap_get (st_heap st ++ [ob_answer o]) b = Ok base →
  dedup_inv (pre ++ [o])
    {| st_soup := root;
       st_heap := <[b := merge_into base (ob_answer o)]> (st_heap st ++ [ob_answer o]);
       answers_by_id := answers_by_id st; order := order st |}.
Proof.
  intros [Hord Hdom Hheap Hinj] Hb Hbase.
  destruct (Hheap _ _ Hb) as (a0 & rest & Hg & Hhb).
  assert (Hlt : b < length (st_heap st)) by (by eapply lookup_lt_Some).
  unfold heap_get in Hbase. rewrite lookup_app_l, Hhb in Hbase by done.
  injection Hbase as <-.
  assert (Hin : ob_mid o ∈ mids pre) by (apply Hdom; eauto).
  split; cbn.
  - unfold mids. rewrite fmap_app. cbn. rewrite first_seen_snoc.
    by rewrite decide_True.
  - intros mid. rewrite Hdom. unfold mids. rewrite fmap_app, elem_of_app. cbn.
    rewrite list_elem_of_singleton. split; [by left|]. intros [?|Heq]; [done|by subst].
  - intros mid b' Hb'. rewrite group_snoc.
    destruct (Hheap _ _ Hb') as (a1 & rest1 & Hg1 & Hhb1).
    destruct (decide (ob_mid o = mid)) as [<-|Hne].
    + assert (b' = b) as -> by congruence.
      exists a0, (rest ++ [ob_answer o]). rewrite Hg. split; [done|].
      rewrite list_lookup_insert_eq by (rewrite length_app; lia).
      by rewrite foldl_app.
    + exists a1, rest1. rewrite Hg1, app_nil_r. split; [done|].
      rewrite list_lookup_insert_ne by (intros ->; eauto).
      rewrite lookup_app_l by (by eapply lookup_lt_Some). done.
  - done.
Qed.

Lemma dedup_inv_new pre st o root :
  dedup_inv pre st →
  answers_by_id st !! ob_mid o = None →
  dedup_inv (pre ++ [o])
    {| st_soup := root;
       st_heap := st_heap st ++ [ob_answer o];
       answers_by_id := <[ob_mid o := length (st_heap st)]> (answers_by_id st);
       order := order st ++ [ob_mid o] |}.
Proof.
  intros [Hord Hdom Hheap Hinj] Hb.
  assert (Hnin : ob_mid o ∉ mids pre).
  { rewrite <- Hdom, Hb. by intros [? ?]. }
  assert (Hlt : ∀ mid b, answers_by_id st !! mid = Some b → b < length (st_heap st)).
  { intros mid b Hmb. destruct (Hheap _ _ Hmb) as (? & ? & _ & ?). by eapply lookup_lt_Some. }
  split; cbn.
  - unfold mids. rewrite fmap_app. cbn. rewrite first_seen_snoc.
    rewrite decide_False by done. by rewrite Hord.
  - intros mid. unfold mids. rewrite fmap_app, elem_of_app. cbn.
    rewrite list_elem_of_singleton, lookup_insert.
    case_decide as Heq; [subst; split; eauto|].
    rewrite Hdom. split; [by left|]. intros [?|?]; [done|congruence].
  - intros mid b'. rewrite group_snoc.
    destruct (decide (ob_mid o = mid)) as [<-|Hne].
    + rewrite lookup_insert_eq. intros [= <-]. exists (ob_answer o), [].
      rewrite group_nil by done. split; [done|].
      by rewrite lookup_app_r, Nat.sub_diag.
    + rewrite lookup_insert_ne by done.
      intros Hb'. destruct (Hheap _ _ Hb') as (a1 & rest1 & Hg1 & Hhb1).
      exists a1, rest1.
      rewrite app_nil_r, lookup_app_l by eauto. done.
  - intros m1 m2 b'. rewrite !lookup_insert.
    repeat case_decide; subst; try done.
    + intros [= <-] Hm2%Hlt. lia.
    + intros Hm1%Hlt [= <-]. lia.
    + apply Hinj.
Qed.

Lemma dedup_loop_inv page_url cs st pre st1 :
  dedup_loop page_url cs st = Ok st1 →
  dedup_inv pre st →
  ∃ obs, scan page_url cs (st_soup st) = Ok (obs, st_soup st1) ∧ dedup_inv (pre ++ obs) st1.
Proof.
  revert st pre. induction cs as [|div cs IH]; intros st pre Hd Hinv; cbn in Hd.
  - injection Hd as <-. exists []. by rewrite app_nil_r.
  - inv_bind Hd as n En. cbn. rewrite En. cbn.
    destruct (get_msg_id n) as [[|c mid]|] eqn:Emid; [by eauto| |by eauto].
    inv_bind Hd as [ans root1] Eb. rewrite Eb. cbn.
    set (o := {| ob_div := div; ob_before := st_soup st; ob_after := root1;
                 ob_mid := c :: mid; ob_answer := ans |}).
    destruct (answers_by_id st !! (c :: mid)) as [b|] eqn:Eby.
    + inv_bind Hd as base Ebase.
      eapply (IH _ (pre ++ [o])) in Hd as (obs & Hs & Hinv');
        [|by apply (dedup_inv_merge pre st o b base root1)].
      cbn in Hs. rewrite Hs. cbn. exists (o :: obs). split; [done|].
      by rewrite <- app_assoc in Hinv'.
    + eapply (IH _ (pre ++ [o])) in Hd as (obs & Hs & Hinv');
        [|by apply (dedup_inv_new pre st o root1)].
      cbn in Hs. rewrite Hs. cbn. exists (o :: obs). split; [done|].
      by rewrite <- app_assoc in Hinv'.
Qed.



Lemma load_block_outcome content : load_block content = Ok (head (block_outcome content)).
Proof.
  unfold load_block, block_outcome, repair, try_except.
  destruct (json_loads content); cbn; [done|].
  by destruct (json_loads _).
Qed.

Lemma json_ld_loop_spec tags blocks :
  json_ld_loop tags blocks
  = Ok (blocks ++ concat (block_outcome <$> filter (fun c => c ≠ []) (script_content <$> tags))).
Proof.
  revert blocks. induction tags as [|tag tags IH]; intros blocks; cbn [json_ld_loop].
  - cbn. by rewrite app_nil_r.
  - rewrite fmap_cons. destruct (script_content tag) as [|c content] eqn:Ec.
    + rewrite filter_cons_False by naive_solver. apply IH.
    + rewrite filter_cons_True by done. rewrite load_block_outcome, fmap_cons.
      cbn [concat mbind result_bind].
      destruct (block_outcome (c :: content)) as [|v vs] eqn:Eo; cbn [head].
      * by rewrite IH.
      * assert (vs = []) as ->.
        { unfold block_outcome in Eo. repeat destruct (json_loads _); congruence. }
        by rewrite IH, <- app_assoc.
Qed.

Lemma extract_json_ld_accepted_ids_Ok root :
  ∃ ids, extract_json_ld_accepted_ids root = Ok ids.
Proof.
  unfold extract_json_ld_accepted_ids, extract_json_ld.
  rewrite json_ld_loop_spec. cbn. eauto.
Qed.

Lemma set_accepted_idemp a : set_accepted (set_accepted a) = set_accepted a.
Proof. done. Qed.

Lemma accept_step_lookup (by_id : gmap str nat) heap m mid b x :
  (∀ m1 m2 b, by_id !! m1 = Some b → by_id !! m2 = Some b → m1 = m2) →
  by_id !! mid = Some b →
  heap !! b = Some x →
  accept_step by_id heap m !! b = Some (accept_if (bool_decide (m = mid)) x).
Proof.
  intros Hinj Hb Hx. unfold accept_step.
  case_bool_decide as Heq; cbn.
  - subst m. rewrite Hb, Hx. apply list_lookup_insert_eq. by eapply lookup_lt_Some.
  - destruct (by_id !! m) as [a|] eqn:Ea; [|done].
    destruct (heap !! a) as [y|] eqn:Ey; [|done].
    rewrite list_lookup_insert_ne; [done|]. intros ->. apply Heq. eauto.
Qed.

Lemma accept_fold_lookup (by_id : gmap str nat) l heap mid b x :
  (∀ m1 m2 b, by_id !! m1 = Some b → by_id !! m2 = Some b → m1 = m2) →
  by_id !! mid = Some b →
  heap !! b = Some x →
  foldl (accept_step by_id) heap l !! b = Some (accept_if (bool_decide (mid ∈ l)) x).
Proof.
  intros Hinj Hb. revert heap x. induction l as [|m l IH]; intros heap x Hx; cbn [foldl].
  - rewrite bool_decide_eq_false_2 by apply not_elem_of_nil. done.
  - erewrite IH; [|by apply accept_step_lookup]. f_equal.
    destruct (decide (m = mid)) as [->|Hne], (decide (mid ∈ l)) as [Hin|Hnin].
    + rewrite !bool_decide_eq_true_2; [done|by left|done|done].
    + rewrite (bool_decide_eq_false_2 (mid ∈ l)), !bool_decide_eq_true_2; [done|by left|done|done].
    + rewrite (bool_decide_eq_false_2 (m = mid)), !bool_decide_eq_true_2; [done|by right|done|done].
    + rewrite !bool_decide_eq_false_2; [done| |done|done].
      rewrite elem_of_cons. naive_solver.
Qed.

Lemma lookup_all_Ok (by_id : gmap str nat) order addrs :
  lookup_all by_id order = Ok addrs → Forall2 (fun b mid => by_id !! mid = Some b) addrs order.
Proof.
  revert addrs. induction order as [|mid order IH]; intros addrs Hl; cbn in Hl.
  - injection Hl as <-. constructor.
  - destruct (by_id !! mid) as [a|] eqn:Ea; [|done].
    inv_bind Hl as l El. injection Hl as <-. constructor; auto.
Qed.

Lemma read_all_Ok heap addrs answers :
  read_all heap addrs = Ok answers → Forall2 (fun a b => heap !! b = Some a) answers addrs.
Proof.
  revert answers. induction addrs as [|b addrs IH]; intros answers Hr; cbn in Hr.
  - injection Hr as <-. constructor.
  - inv_bind Hr as x Ex. inv_bind Hr as l El. injection Hr as <-.
    unfold heap_get in Ex. destruct (heap !! b) eqn:Eb; [|done]. injection Ex as ->.
    constructor; auto.
Qed.



Lemma filter_question_id (q : str) (l : list str) :
  filter (fun m => Some m ≠ Some q) l = filter (fun y => y ≠ q) l.
Proof. apply list_filter_iff. intros x. split; congruence. Qed.

Lemma filter_all {A} (P : A → Prop) `{∀ x, Decision (P x)} (l : list A) :
  Forall P l → filter P l = l.
Proof. induction 1; [done|]. rewrite filter_cons_True by done. by f_equal. Qed.

Lemma pop_question_spec obs st qid qt qu by_id' order' :
  dedup_inv obs st →
  Forall (fun o => ob_mid o ≠ []) obs →
  pop_question st qid = Ok (qt, qu, by_id', order') →
  order' = filter (fun m => Some m ≠ qid) (first_seen (mids obs))
  ∧ (∀ mid, by_id' !! mid = if decide (Some mid = qid) then None else answers_by_id st !! mid)
  ∧ question_fields obs qid qt qu.
Proof.
  intros Hinv Hne Hp. pose proof Hinv as [Hord Hdom Hheap Hinj].
  assert (Hkeep : ∀ q, q ∉ mids obs →
            order st = filter (fun m => Some m ≠ Some q) (first_seen (mids obs))).
  { intros q Hq. rewrite filter_question_id, filter_ne_not_elem; [done|].
    by rewrite elem_of_first_seen. }
  assert (Hnil : [] ∉ mids obs).
  { unfold mids. rewrite list_elem_of_fmap. intros (o & Ho & Hin).
    rewrite Forall_forall in Hne. by apply (Hne o). }
  unfold pop_question in Hp.
  destruct qid as [[|c q]|].
  - injection Hp as <- <- <- <-. split_and!.
    + by apply Hkeep.
    + intros mid. case_decide as Heq; [|done]. injection Heq as ->.
      apply eq_None_not_Some. by rewrite Hdom.
    + cbn. by rewrite group_nil.
  - destruct (answers_by_id st !! (c :: q)) as [b|] eqn:Eb.
    + inv_bind Hp as q_ans Eq. inv_bind Hp as order1 Eo.
      injection Hp as <- <- <- <-.
      assert (Hin : (c :: q) ∈ mids obs) by (apply Hdom; eauto).
      rewrite Hord, list_remove_NoDup in Eo;
        [|apply NoDup_first_seen|by apply elem_of_first_seen].
      injection Eo as <-. split_and!.
      * by rewrite filter_question_id.
      * intros mid. case_decide as Heq.
        -- injection Heq as ->. apply lookup_delete_eq.
        -- apply lookup_delete_ne. congruence.
      * cbn. destruct (Hheap _ _ Eb) as (a0 & rest & -> & Hb).
        unfold heap_get in Eq. rewrite Hb in Eq. by injection Eq as <-.
    + injection Hp as <- <- <- <-.
      assert (Hnin : (c :: q) ∉ mids obs).
      { rewrite <- Hdom, Eb. by intros [? ?]. }
      split_and!.
      * by apply Hkeep.
      * intros mid. case_decide as Heq; [|done]. by injection Heq as ->.
      * cbn. by rewrite group_nil.
  - injection Hp as <- <- <- <-. split_and!.
    + rewrite Hord. symmetry. apply filter_all, Forall_forall. done.
    + intros mid. by rewrite decide_False.
    + done.
Qed.

Lemma extract_flat_qna_spec root page_url qt qu answers k :
  extract_flat_qna root page_url = Ok (qt, qu, answers, k) →
  ∃ obs final qid ids,
    scan page_url (candidate_containers root) root = Ok (obs, final)
    ∧ choose_question_id final (candidate_containers root) (first_seen (mids obs)) = Ok qid
    ∧ extract_json_ld_accepted_ids final = Ok ids
    ∧ Forall2 (fun a mid => result_answer ids obs mid = Some a) answers
        (filter (fun m => Some m ≠ qid) (first_seen (mids obs)))
    ∧ k = Z.of_nat (length answers)
    ∧ question_fields obs qid qt qu.
Proof.
  unfold extract_flat_qna. intros He.
  destruct (candidate_containers root) as [|c cs] eqn:Ecs.
  { injection He as <- <- <- <-.
    destruct (extract_json_ld_accepted_ids_Ok root) as [ids Hids].
    exists [], root, None, ids. split_and!; try done. }
  inv_bind He as st Ed.
  apply dedup_loop_inv with (pre := []) in Ed as (obs & Hs & Hinv); [|apply dedup_inv_init].
  cbn [st_soup app] in Hs, Hinv.
  inv_bind He as qid Eq. inv_bind He as [[[qt' qu'] by_id'] order'] Epop.
  inv_bind He as addrs Eaddrs. inv_bind He as ids Eids. inv_bind He as answers' Eread.
  injection He as <- <- <- <-.
  pose proof (scan_observed _ _ _ _ _ Hs) as Hobs.
  eapply pop_question_spec in Epop as (Ho & Hby & Hq); [|done|].
  2:{ eapply Forall_impl; [exact Hobs|]. by intros o (_ & ? & _). }
  exists obs, (st_soup st), qid, ids. rewrite (inv_order _ _ Hinv) in Eq.
  split_and!; try done.
  apply lookup_all_Ok in Eaddrs. apply read_all_Ok in Eread.
  assert (Hinj' : ∀ m1 m2 b, by_id' !! m1 = Some b → by_id' !! m2 = Some b → m1 = m2).
  { intros m1 m2 b. rewrite !Hby. repeat case_decide; try done. apply (inv_inj _ _ Hinv). }
  match goal with
  | |- Forall2 ?R _ _ =>
      cut (Forall2 R answers' order'); [intros HF; rewrite Ho in HF; exact HF|]
  end.
  clear Ho Eq. revert Eread. generalize answers'.
  induction Eaddrs as [|b mid addrs order' Hb _ IH]; intros answers Hread.
  - inversion Hread. constructor.
  - inversion Hread as [|a ? answers1 ? Ha Hrest]; subst. constructor; [|by apply IH].
    pose proof Hb as Hb'. rewrite Hby in Hb'. case_decide; [done|].
    destruct (inv_heap _ _ Hinv _ _ Hb') as (a0 & rest & Hg & Hhp).
    unfold result_answer. rewrite Hg. f_equal.
    erewrite accept_fold_lookup in Ha; [|done..].
    injection Ha as <-. f_equal. apply bool_decide_ext. symmetry. apply elem_of_elements.
Qed.


(** ** Tags *)


Lemma uniq_push_pushable arr val :
  uniq_push arr val = from_option (push_new arr) arr (pushable val).
Proof.
  unfold uniq_push, pushable, push_new.
  destruct val as [[|c v]|]; [done| |done].
  destruct (strip (c :: v)) as [|c' v'] eqn:Es; [done|]. cbn.
  case_bool_decide as Hin; rewrite elem_of_list_to_set in Hin.
  - by rewrite decide_False.
  - rewrite decide_True; [done|]. by destruct (decide (lower (c' :: v') ∈ lower <$> arr)).
Qed.

Lemma uniq_push_fold vals arr :
  foldl uniq_push arr vals = foldl push_new arr (omap pushable vals).
Proof.
  revert arr. induction vals as [|val vals IH]; intros arr; [done|].
  cbn [foldl]. rewrite IH, uniq_push_pushable. cbn.
  by destruct (pushable val).
Qed.

Lemma push_new_first_of_each_case tags cands x :
  first_of_each_case tags cands →
  first_of_each_case (push_new tags x) (cands ++ [x]).
Proof.
  intros (Huniq & Hsub & Hrep & Hfirst). unfold push_new.
  destruct (decide (lower x ∈ lower <$> tags)) as [Hin|Hnin].
  - split_and!.
    + done.
    + by apply sublist_inserts_r.
    + intros z [Hz| ->%list_elem_of_singleton]%elem_of_app; [by apply Hrep|].
      apply list_elem_of_fmap in Hin as (y & Hy & Hyin). eauto.
    + intros y Hy. destruct (Hfirst y Hy) as (i & Hi & Hbefore).
      exists i. split; [by apply lookup_app_l_Some|].
      intros j z Hj Hz. apply (Hbefore j z Hj).
      rewrite lookup_app_l in Hz; [done|]. apply lookup_lt_Some in Hi. lia.
  - assert (Hfresh : ∀ y, y ∈ tags → lower y ≠ lower x).
    { intros y Hy Heq. apply Hnin. rewrite <- Heq. by apply list_elem_of_fmap_2. }
    split_and!.
    + intros i j a b Hi Hj Heq.
      apply lookup_app_Some in Hi as [Hi|[Hil Hi]]; apply lookup_app_Some in Hj as [Hj|[Hjl Hj]].
      * by eapply Huniq.
      * apply list_lookup_singleton_Some in Hj as [_ <-].
        exfalso. eapply Hfresh; [|done]. by eapply list_elem_of_lookup_2.
      * apply list_lookup_singleton_Some in Hi as [_ <-].
        exfalso. eapply Hfresh; [|done]. by eapply list_elem_of_lookup_2.
      * apply list_lookup_singleton_Some in Hi as [Hi _].
        apply list_lookup_singleton_Some in Hj as [Hj _]. lia.
    + by apply sublist_app.
    + intros z [Hz| ->%list_elem_of_singleton]%elem_of_app.
      * destruct (Hrep z Hz) as (y & Hy & Heq). exists y. split; [|done].
        apply elem_of_app. by left.
      * exists x. split; [|done]. apply elem_of_app. right. by apply list_elem_of_singleton.
    + intros y [Hy| ->%list_elem_of_singleton]%elem_of_app.
      * destruct (Hfirst y Hy) as (i & Hi & Hbefore).
        exists i. split; [by apply lookup_app_l_Some|].
        intros j z Hj Hz. apply (Hbefore j z Hj).
        rewrite lookup_app_l in Hz; [done|]. apply lookup_lt_Some in Hi. lia.
      * exists (length cands). split.
        { by rewrite lookup_app_r, Nat.sub_diag. }
        intros j z Hj Hz. rewrite lookup_app_l in Hz by done.
        destruct (Hrep z) as (y & Hy & Heq); [by eapply list_elem_of_lookup_2|].
        rewrite <- Heq. by apply Hfresh.
Qed.

Lemma push_new_fold_first_of_each_case cands :
  first_of_each_case (foldl push_new [] cands) cands.
Proof.
  induction cands as [|x cands IH] using rev_ind.
  - split_and!; cbn; [done|constructor|by intros ? ?%elem_of_nil|by intros ? ?%elem_of_nil].
  - rewrite foldl_app. cbn [foldl]. by apply push_new_first_of_each_case.
Qed.

(** C7.  Whatever candidates are pushed, the tags hold no two entries
    equal up to letter case, and of the candidates that differ only by
    case exactly the first encountered is kept, in insertion order; so it
    is for the tags of every page. *)
Theorem tags_unique_up_to_case :
  (∀ vals : list (option str),
     first_of_each_case (foldl uniq_push [] vals) (omap pushable vals))
  ∧ (∀ root : soup,
       first_of_each_case (cf_tags (extract_common_fields root))
         (omap pushable (tag_candidates root))).
Proof.
  assert (Hgen : ∀ vals : list (option str),
            first_of_each_case (foldl uniq_push [] vals) (omap pushable vals)).
  { intros vals. rewrite uniq_push_fold. apply push_new_fold_first_of_each_case. }
  split; [done|]. intros root. apply Hgen.
Qed.


(** ** The assembled record *)

Lemma accept_if_fields c a :
  message_id (accept_if c a) = message_id a
  ∧ text (accept_if c a) = text a
  ∧ created_at (accept_if c a) = created_at a
  ∧ upvotes (accept_if c a) = upvotes a
  ∧ is_accepted (accept_if c a) = is_accepted a || c.
Proof. destruct c; cbn; by rewrite ?orb_true_r, ?orb_false_r. Qed.

Lemma group_cons_observed page_url cs obs mid a0 rest :
  Forall (observed page_url cs) obs →
  group mid obs = a0 :: rest →
  message_id a0 = Some mid ∧ mid ∈ mids obs.
Proof.
  intros Hobs Hg.
  assert (Hin : a0 ∈ group mid obs) by (rewrite Hg; left).
  unfold group in Hin. apply list_elem_of_fmap in Hin as (o & -> & Ho).
  apply list_elem_of_filter in Ho as [<- Ho].
  rewrite Forall_forall in Hobs. split.
  - eapply observed_message_id. by apply Hobs.
  - unfold mids. by apply list_elem_of_fmap_2.
Qed.

Lemma group_nonempty mid obs : mid ∈ mids obs → group mid obs ≠ [].
Proof.
  unfold mids, group. intros (o & -> & Ho)%list_elem_of_fmap Hnil.
  apply fmap_nil_inv in Hnil.
  assert (Hin : o ∈ filter (fun o' => ob_mid o' = ob_mid o) obs) by (by apply list_elem_of_filter).
  rewrite Hnil in Hin. by apply elem_of_nil in Hin.
Qed.

Lemma result_answer_message_id page_url cs ids obs mid a :
  Forall (observed page_url cs) obs →
  result_answer ids obs mid = Some a →
  message_id a = Some mid.
Proof.
  unfold result_answer. intros Hobs Ha.
  destruct (group mid obs) as [|a0 rest] eqn:Hg; [done|]. injection Ha as <-.
  destruct (accept_if_fields (bool_decide (mid ∈ ids)) (foldl merge_into a0 rest)) as (-> & _).
  rewrite merge_fold_message_id. by eapply group_cons_observed.
Qed.

Lemma result_answers_ids page_url cs ids obs answers order' :
  Forall (observed page_url cs) obs →
  Forall2 (fun a mid => result_answer ids obs mid = Some a) answers order' →
  message_id <$> answers = Some <$> order'.
Proof.
  intros Hobs. induction 1 as [|a mid answers order' Ha _ IH]; [done|].
  rewrite !fmap_cons, IH. f_equal. by eapply result_answer_message_id.
Qed.


Lemma scan_functional page_url cs root obs final obs' final' :
  scan page_url cs root = Ok (obs, final) →
  scan page_url cs root = Ok (obs', final') →
  obs' = obs ∧ final' = final.
Proof. intros -> [= -> ->]. done. Qed.

(** What [extract_flat_qna] returns, in terms of the observations of a
    given scan of the candidates. *)
Lemma extract_flat_qna_observed root page_url qt qu answers k obs final :
  extract_flat_qna root page_url = Ok (qt, qu, answers, k) →
  scan page_url (candidate_containers root) root = Ok (obs, final) →
  ∃ qid ids,
    choose_question_id final (candidate_containers root) (first_seen (mids obs)) = Ok qid
    ∧ extract_json_ld_accepted_ids final = Ok ids
    ∧ Forall (observed page_url (candidate_containers root)) obs
    ∧ Forall2 (fun a mid => result_answer ids obs mid = Some a ∧ message_id a = Some mid)
        answers (filter (fun m => Some m ≠ qid) (first_seen (mids obs)))
    ∧ k = Z.of_nat (length answers)
    ∧ question_fields obs qid qt qu.
Proof.
  intros He Hs.
  apply extract_flat_qna_spec in He as (obs' & final' & qid & ids & Hs' & Hq & Hids & Hans & Hk & Hqf).
  destruct (scan_functional _ _ _ _ _ _ _ Hs Hs') as [-> ->].
  pose proof (scan_observed _ _ _ _ _ Hs) as Hobs.
  exists qid, ids. split; [done|]. split; [done|]. split; [done|].
  split; [|done].
  refine (Forall2_impl _ _ _ _ Hans _). intros a mid Ha. split; [done|].
  by eapply result_answer_message_id.
Qed.

(** ** Deduplication, acceptance, order *)


(** C3.  The Answers carry, in this order, the distinct identifiers of the
    candidate containers in order of first appearance, without the
    identifier chosen as the question; so that identifier is none of
    theirs. *)
Theorem answers_in_first_appearance_order root page_url qt qu answers k obs final :
  extract_flat_qna root page_url = Ok (qt, qu, answers, k) →
  scan page_url (candidate_containers root) root = Ok (obs, final) →
  ∃ qid,
    choose_question_id final (candidate_containers root) (first_seen (mids obs)) = Ok qid
    ∧ message_id <$> answers
      = Some <$> filter (fun m => Some m ≠ qid) (first_seen (mids obs))
    ∧ (∀ a, a ∈ answers → message_id a ≠ qid).
Proof.
  intros He Hs.
  destruct (extract_flat_qna_observed _ _ _ _ _ _ _ _ He Hs)
    as (qid & ids & Hq & Hids & Hobs & Hans & _ & Hqf).
  exists qid. split; [done|].
  assert (Hmap : message_id <$> answers
                 = Some <$> filter (fun m => Some m ≠ qid) (first_seen (mids obs))).
  { clear -Hans. induction Hans as [|a m answers order' [_ Ha] _ IH]; [done|].
    by rewrite !fmap_cons, IH, Ha. }
  split; [done|]. intros a Ha Heq.
  apply (list_elem_of_fmap_2 message_id) in Ha. rewrite Hmap, Heq in Ha.
  apply list_elem_of_fmap in Ha as (m & -> & Hm).
  by apply list_elem_of_filter in Hm as [Hne _].
Qed.

(** ** The document tree *)

(** Induction on the document tree. *)
Lemma node_tree_ind (P : node → Prop) :
  (∀ k s, P (NavigableString k s)) →
  (∀ o nm at_ cs, Forall P cs → P (Tag o nm at_ cs)) →
  ∀ n, P n.
Proof.
  intros Hs Ht. fix IH 1. intros [k s|o nm at_ cs]; [apply Hs|].
  apply Ht. revert cs. fix IHcs 1. intros [|c cs]; constructor; [apply IH|apply IHcs].
Qed.

Lemma tags_below_unfold ancs o nm at_ cs :
  tags_below ancs (Tag o nm at_ cs)
  = cs ≫= (fun c => if is_tag c
                    then (c, Tag o nm at_ cs :: ancs) :: tags_below (Tag o nm at_ cs :: ancs) c
                    else []).
Proof.
  cbn [tags_below]. generalize (Tag o nm at_ cs :: ancs). intros ancs'.
  induction cs as [|c cs IH]; [done|]. cbn. by rewrite IH.
Qed.

(** The tags below a tag below [n] are below [n]. *)
Lemma tags_below_trans n ancs m a p :
  (m, a) ∈ tags_below ancs n → p ∈ tags_below a m → p ∈ tags_below ancs n.
Proof.
  revert ancs. induction n as [k s|o nm at_ cs IH] using node_tree_ind; intros ancs Hm Hp.
  - by apply elem_of_nil in Hm.
  - rewrite tags_below_unfold in *.
    apply list_elem_of_bind in Hm as (c & Hm & Hc). apply list_elem_of_bind.
    exists c. split; [|done].
    destruct (is_tag c); [|by apply elem_of_nil in Hm].
    apply elem_of_cons in Hm as [[= -> ->]|Hm].
    + by right.
    + right. rewrite Forall_forall in IH. by eapply IH.
Qed.

Lemma select_below_tags sel scope ancs o :
  o ∈ select_below sel scope ancs →
  ∃ p, p ∈ tags_below ancs scope ∧ tag_oid p.1 = Some o.
Proof.
  unfold select_below. intros (p & Hp & Ho)%list_elem_of_omap.
  apply list_elem_of_filter in Hp as [_ Hp]. eauto.
Qed.

Lemma locate_all_tags root o p : locate root o = Some p → p ∈ all_tags root ∧ tag_oid p.1 = Some o.
Proof.
  unfold locate. intros Hh. apply head_Some_elem_of, list_elem_of_filter in Hh as [Ho Hin].
  split; [done|]. destruct p as [[|o' ? ? ?] ?]; cbn in *; [done|].
  by apply bool_decide_unpack in Ho as ->.
Qed.

Lemma all_tags_live root p o :
  p ∈ all_tags root → tag_oid p.1 = Some o → is_Some (deref root o).
Proof.
  intros Hin Ho. unfold deref, locate.
  destruct (filter _ (all_tags root)) as [|q l] eqn:Hf; [|by eexists].
  assert (Hp : p ∈ filter (fun p => has_oid o p.1) (all_tags root)).
  { apply list_elem_of_filter. split; [|done].
    destruct p as [[|o' ? ? ?] ?]; cbn in *; [done|]. injection Ho as ->. by apply bool_decide_pack. }
  rewrite Hf in Hp. by apply elem_of_nil in Hp.
Qed.



(** ** The renderer *)










(** ** What the first loop leaves of the document *)







(** ** Acceptance *)


Lemma accepted_loop_union accepted ids :
  accepted_loop accepted ids
  = (ids ∪ (accepted_loop accepted ∅).1, (accepted_loop accepted ∅).2).
Proof.
  revert ids. induction accepted as [|a rest IH]; intros ids; cbn [accepted_loop].
  - cbn. f_equal. set_solver.
  - destruct (json_or _ _) as [[| | | |url| |]|e]; cbn; try (f_equal; set_solver).
    destruct (search_group1 false HASH_M_DIGITS url) as [mid|].
    + rewrite (IH ({[mid]} ∪ ids)), (IH ({[mid]} ∪ ∅)). cbn. f_equal. set_solver.
    + apply IH.
Qed.

Lemma node_step_union node ids :
  node_step node ids = (ids ∪ (node_step node ∅).1, (node_step node ∅).2).
Proof.
  unfold node_step. destruct (_ ≫= _) as [[accepted|]|e]; cbn; try (f_equal; set_solver).
  apply accepted_loop_union.
Qed.

Lemma nodes_loop_union nodes ids :
  nodes_loop nodes ids = (ids ∪ (nodes_loop nodes ∅).1, (nodes_loop nodes ∅).2).
Proof.
  revert ids. induction nodes as [|node rest IH]; intros ids; cbn [nodes_loop].
  - cbn. f_equal. set_solver.
  - rewrite (node_step_union node ids).
    destruct (node_step node ∅) as [ids1 [[]|e]]; cbn.
    + rewrite (IH (ids ∪ ids1)), (IH ids1). cbn. f_equal. set_solver.
    + done.
Qed.

Lemma block_step_union ids block : block_step ids block = ids ∪ block_step ∅ block.
Proof.
  unfold block_step. destruct (json_get block _) as [[| | | | |l|]|e];
    try (by rewrite nodes_loop_union); set_solver.
Qed.

Lemma foldl_block_step ids blocks mid :
  mid ∈ foldl block_step ids blocks ↔ mid ∈ ids ∨ ∃ b, b ∈ blocks ∧ mid ∈ block_step ∅ b.
Proof.
  revert ids. induction blocks as [|b blocks IH]; intros ids; cbn [foldl].
  - split; [by left|]. intros [H|(b & Hb & _)]; [done|]. by apply elem_of_nil in Hb.
  - rewrite IH, block_step_union, elem_of_union. split.
    + intros [[H|H]|(b' & Hb' & H)]; [by left| |].
      * right. exists b. split; [by left|done].
      * right. exists b'. split; [by right|done].
    + intros [H|(b' & [->|Hb']%elem_of_cons & H)]; [by left; left|by left; right|].
      right. by exists b'.
Qed.


















(** ** Containers without an identifier *)





(** ** Removing tags *)




















(** ** What the first loop removes *)




(** ** The container that is skipped *)




(** ** The question *)

Lemma find_question_id_stops root cs1 div rest n :
  (∀ c, c ∈ cs1 → ∃ m, deref root c = Some m ∧ is_question_div m = false) →
  deref root div = Some n →
  is_question_div n = true →
  find_question_id root (cs1 ++ div :: rest) = Ok (get_msg_id n).
Proof.
  intros Hcs1 Hn Hq. induction cs1 as [|c cs1 IH]; cbn [app find_question_id].
  - unfold live. rewrite Hn. cbn. by rewrite Hq.
  - destruct (Hcs1 c) as (m & Hm & Hmq); [by left|].
    unfold live. rewrite Hm. cbn. rewrite Hmq. apply IH.
    intros c' Hc'. apply Hcs1. by right.
Qed.

Lemma filter_head_NoDup (l : list str) :
  NoDup l → filter (fun m => Some m ≠ head l) l = tail l.
Proof.
  destruct l as [|x l]; [done|]. intros [Hnin _]%NoDup_cons. cbn [head tail].
  rewrite filter_cons_False by naive_solver.
  apply filter_all, Forall_forall. intros y Hy [= ->]. done.
Qed.

(** The search for the question ending at a marked container for which
    [get_msg_id] returns [None]: the fallback makes the first deduplicated
    identifier the question. *)
Lemma marked_question_with_no_identifier root page_url cs1 div cs2 obs final n :
  candidate_containers root = cs1 ++ div :: cs2 →
  scan page_url (candidate_containers root) root = Ok (obs, final) →
  (∀ c, c ∈ cs1 → ∃ m, deref final c = Some m ∧ is_question_div m = false) →
  deref final div = Some n →
  is_question_div n = true →
  get_msg_id n = None →
  (∀ rest, find_question_id final (cs1 ++ div :: rest) = Ok None)
  ∧ choose_question_id final (candidate_containers root) (first_seen (mids obs))
    = Ok (head (first_seen (mids obs)))
  ∧ ∀ qt qu answers k,
      extract_flat_qna root page_url = Ok (qt, qu, answers, k) →
      question_fields obs (head (first_seen (mids obs))) qt qu
      ∧ message_id <$> answers = Some <$> tail (first_seen (mids obs)).
Proof.
  intros Hcs Hs Hcs1 Hn Hq Hmid.
  assert (Hfind : ∀ rest, find_question_id final (cs1 ++ div :: rest) = Ok None).
  { intros rest. rewrite <- Hmid. by apply find_question_id_stops. }
  assert (Hchoose : choose_question_id final (candidate_containers root) (first_seen (mids obs))
                    = Ok (head (first_seen (mids obs)))).
  { unfold choose_question_id. rewrite Hcs, Hfind. cbn.
    by destruct (first_seen (mids obs)). }
  split; [done|]. split; [done|].
  intros qt qu answers k He.
  destruct (extract_flat_qna_observed _ _ _ _ _ _ _ _ He Hs)
    as (qid & ids & Hqid & _ & Hobs & Hans & _ & Hqf).
  rewrite Hchoose in Hqid. injection Hqid as <-. split; [done|].
  rewrite <- (filter_head_NoDup _ (NoDup_first_seen (mids obs))).
  clear -Hans. induction Hans as [|a m answers order' [_ Ha] _ IH]; [done|].
  by rewrite !fmap_cons, IH, Ha.
Qed.

(** The same search ending at a marked container whose only identifier
    source is an empty message-UID attribute: the identifier is the empty
    string, not [None], so the fallback does not apply and no question is
    promoted. *)
Lemma marked_question_with_empty_identifier root page_url cs1 div cs2 obs final n :
  candidate_containers root = cs1 ++ div :: cs2 →
  scan page_url (candidate_containers root) root = Ok (obs, final) →
  (∀ c, c ∈ cs1 → ∃ m, deref final c = Some m ∧ is_question_div m = false) →
  deref final div = Some n →
  is_question_div n = true →
  get_msg_id n = Some [] →
  ∀ qt qu answers k,
    extract_flat_qna root page_url = Ok (qt, qu, answers, k) →
    qt = None ∧ qu = None ∧ message_id <$> answers = Some <$> first_seen (mids obs).
Proof.
  intros Hcs Hs Hcs1 Hn Hq Hmid qt qu answers k He.
  destruct (extract_flat_qna_observed _ _ _ _ _ _ _ _ He Hs)
    as (qid & ids & Hqid & _ & Hobs & Hans & _ & Hqf).
  unfold choose_question_id in Hqid.
  rewrite Hcs, (find_question_id_stops _ _ _ _ _ Hcs1 Hn Hq), Hmid in Hqid.
  cbn in Hqid. injection Hqid as <-.
  assert (Hnil : [] ∉ mids obs).
  { unfold mids. intros (o & Ho & Hin)%list_elem_of_fmap.
    rewrite Forall_forall in Hobs. destruct (Hobs o Hin) as (_ & Hne & _). done. }
  cbn in Hqf. rewrite group_nil in Hqf by done. destruct Hqf as [-> ->].
  split; [done|]. split; [done|].
  rewrite filter_all in Hans.
  2:{ apply Forall_forall. intros m Hm [= ->]. apply Hnil. by apply elem_of_first_seen. }
  clear -Hans. induction Hans as [|a m answers order' [_ Ha] _ IH]; [done|].
  by rewrite !fmap_cons, IH, Ha.
Qed.

(** C10 (as amended).  When the first candidate whose class matches a
    question marker has no resolvable identifier ([get_msg_id] returns
    [None] or the empty string), the search of the role classifier ends at
    it, whatever candidates follow, and returns what [get_msg_id] returned.
    When that is [None], the fallback makes the first deduplicated
    identifier the question: its merged text and upvotes are promoted and
    the Answers are the remaining identifiers.  When it is the empty string
    (the container's only source is an empty message-UID attribute), the
    fallback does not apply: no question is promoted, and the Answers are
    all the deduplicated identifiers. *)
Theorem marked_question_without_identifier root page_url cs1 div cs2 obs final n :
  candidate_containers root = cs1 ++ div :: cs2 →
  scan page_url (candidate_containers root) root = Ok (obs, final) →
  (∀ c, c ∈ cs1 → ∃ m, deref final c = Some m ∧ is_question_div m = false) →
  deref final div = Some n →
  is_question_div n = true →
  truthy (get_msg_id n) = false →
  (∀ rest, find_question_id final (cs1 ++ div :: rest) = Ok (get_msg_id n))
  ∧ ∀ qt qu answers k,
      extract_flat_qna root page_url = Ok (qt, qu, answers, k) →
      match get_msg_id n with
      | None =>
          question_fields obs (head (first_seen (mids obs))) qt qu
          ∧ message_id <$> answers = Some <$> tail (first_seen (mids obs))
      | Some _ =>
          qt = None ∧ qu = None
          ∧ message_id <$> answers = Some <$> first_seen (mids obs)
      end.
Proof.
  intros Hcs Hs Hcs1 Hn Hq Hmid. split.
  { intros rest. by apply find_question_id_stops. }
  intros qt qu answers k He.
  destruct (get_msg_id n) as [[|c mid]|] eqn:E; [|done|].
  - by apply (marked_question_with_empty_identifier root page_url cs1 div cs2 obs final n
                Hcs Hs Hcs1 Hn Hq E qt qu answers k).
  - destruct (marked_question_with_no_identifier root page_url cs1 div cs2 obs final n
                Hcs Hs Hcs1 Hn Hq E) as (_ & _ & H). by apply (H qt qu answers k).
Qed.

(** ** Pages without identifiable containers *)





(** ** Structured data *)

(** C8.  Every script block contributes its parsed content; when the parse
    raises, the content parsed again after the one repair of trailing
    commas; when that raises too, nothing.  Whatever [json.loads] does,
    neither the collection of the blocks nor the collection of the accepted
    identifiers raises. *)
Theorem malformed_json_ld_block_is_skipped root :
  extract_json_ld root
  = Ok (concat (block_outcome <$> filter (fun c => c ≠ []) (script_content <$> json_ld_scripts root)))
  ∧ (∀ content, load_block content = Ok (head (block_outcome content)))
  ∧ ∃ ids, extract_json_ld_accepted_ids root = Ok ids.
Proof.
  split; [|split].
  - unfold extract_json_ld. by rewrite json_ld_loop_spec.
  - apply load_block_outcome.
  - apply extract_json_ld_accepted_ids_Ok.
Qed.

(** ** Empty bodies *)

Lemma extract_body_markdown_spec root container page_url t root' n :
  extract_body_markdown root container page_url = Ok (t, root') →
  deref root container = Some n →
  match find (fun d => name_in [lit "div"] d && attr_found false BODY_CLASS_RE (lit "class") d) n with
  | None => t = None ∧ root' = root
  | Some body_div =>
      ∃ body, tag_oid body_div ≫= deref root' = Some body
              ∧ t = match node_to_markdown body page_url with [] => None | md => Some md end
  end.
Proof.
  unfold extract_body_markdown, live. intros Hb Hn. rewrite Hn in Hb. cbn in Hb.
  destruct (find _ n) as [body_div|]; [|by injection Hb as <- <-].
  inv_bind Hb as body Ebody. injection Hb as <- <-. exists body.
  split; [|by destruct (node_to_markdown body page_url)].
  destruct (tag_oid body_div) as [o|]; [|done].
  cbn [from_option] in Ebody. cbn [mbind option_bind]. by apply live_Ok in Ebody.
Qed.

Lemma first_nonempty_elem {A} (ne : A → bool) (l : list A) x :
  first_nonempty ne l = Some x → x ∈ l.
Proof.
  unfold first_nonempty. destruct (list_find _ l) as [[i y]|] eqn:Hf.
  - intros [= <-]. apply list_find_Some in Hf as (Hi & _). by eapply list_elem_of_lookup_2.
  - apply head_Some_elem_of.
Qed.

Lemma observed_text_not_empty page_url cs o :
  observed page_url cs o → text (ob_answer o) ≠ Some [].
Proof.
  intros (_ & _ & _ & Hb). apply build_answer_spec in Hb as (_ & _ & _ & _ & _ & _ & Hbody & _).
  by eapply extract_body_markdown_not_empty.
Qed.

Lemma merged_text_not_empty page_url cs obs mid a0 rest :
  Forall (observed page_url cs) obs →
  group mid obs = a0 :: rest →
  text (foldl merge_into a0 rest) ≠ Some [].
Proof.
  intros Hobs Hg.
  pose proof (first_nonempty_elem _ _ _ (merge_fold_text a0 rest)) as Hin.
  rewrite <- Hg in Hin. unfold group in Hin. rewrite <- list_fmap_compose in Hin.
  apply list_elem_of_fmap in Hin as (o & -> & Ho). apply list_elem_of_filter in Ho as [_ Ho].
  rewrite Forall_forall in Hobs. eapply observed_text_not_empty. by apply Hobs.
Qed.

Lemma comment_loop_texts url cs root seen answers0 answers :
  comment_loop url cs root seen answers0 = Ok answers →
  Forall (fun a => text a ≠ Some []) answers0 →
  Forall (fun a => text a ≠ Some []) answers.
Proof.
  revert root seen answers0. induction cs as [|div cs IH]; intros root seen answers0 Hl H0.
  - by injection Hl as <-.
  - cbn [comment_loop] in Hl. inv_bind Hl as n En.
    destruct (truthy (get_msg_id n) && _); [by eapply IH|].
    inv_bind Hl as [ans root1] Eb. eapply IH; [exact Hl|].
    apply Forall_app. split; [done|]. constructor; [|done]. cbn.
    apply build_answer_spec in Eb as (_ & _ & _ & _ & _ & _ & Hbody & _).
    by eapply extract_body_markdown_not_empty.
Qed.

(** C6 (as amended).  Where [node_to_markdown] returns the empty string,
    body extraction returns the absent value: [extract_body_markdown]
    yields [None] when the container has no body or the rendered body is
    empty, and the rendered text otherwise, never the empty string; so no
    Answer text of a Q&A or blog page and no question text of a Q&A page is
    the empty string. *)
Theorem empty_body_is_absent :
  (∀ root container page_url t root' n,
     extract_body_markdown root container page_url = Ok (t, root') →
     deref root container = Some n →
     t ≠ Some []
     ∧ match find (fun d => name_in [lit "div"] d
                            && attr_found false BODY_CLASS_RE (lit "class") d) n with
       | None => t = None
       | Some body_div =>
           ∃ body, tag_oid body_div ≫= deref root' = Some body
                   ∧ t = match node_to_markdown body page_url with [] => None | md => Some md end
       end)
  ∧ (∀ url html item,
       parse_qna_page url html = Ok item →
       question_text item ≠ Some [] ∧ ∀ a, a ∈ answers item → text a ≠ Some [])
  ∧ (∀ url html item,
       parse_blog_page url html = Ok item →
       ∀ a, a ∈ answers item → text a ≠ Some []).
Proof.
  split; [|split].
  - intros root container page_url t root' n Hb Hn.
    split; [by eapply extract_body_markdown_not_empty|].
    pose proof (extract_body_markdown_spec _ _ _ _ _ _ Hb Hn) as Hspec.
    destruct (find _ n); [done|]. by destruct Hspec.
  - intros url html item Hp. unfold parse_qna_page in Hp.
    inv_bind Hp as [[[qt qu] answers] k] He. injection Hp as <-. cbn.
    apply extract_flat_qna_spec in He
      as (obs & final & qid & ids & Hs & _ & _ & Hans & _ & Hqf).
    pose proof (scan_observed _ _ _ _ _ Hs) as Hobs. split.
    + unfold question_fields in Hqf. destruct qid as [q|]; [|by destruct Hqf as [-> _]].
      destruct (group q obs) as [|a0 rest] eqn:Hg; destruct Hqf as [-> _]; [done|].
      by eapply merged_text_not_empty.
    + intros a Ha. apply list_elem_of_lookup in Ha as [i Hi].
      destruct (Forall2_lookup_l _ _ _ _ _ Hans Hi) as (mid & _ & Hres).
      unfold result_answer in Hres. destruct (group mid obs) as [|a0 rest] eqn:Hg; [done|].
      injection Hres as <-.
      destruct (accept_if_fields (bool_decide (mid ∈ ids)) (foldl merge_into a0 rest))
        as (_ & -> & _).
      by eapply merged_text_not_empty.
  - intros url html item Hp. unfold parse_blog_page in Hp.
    inv_bind Hp as answers Hl. injection Hp as <-. cbn.
    apply comment_loop_texts in Hl; [|constructor].
    by apply Forall_forall.
Qed.

End Properties.

(* ===================================================================== *)
(** * The properties on the example pages *)
(* ===================================================================== *)

Section OnExamples.
Import Examples.

Lemma qna_page_extracted :
  extract_flat_qna (L := qna_lib) qna_page qna_url = Ok (qna_qt, qna_qu, qna_answers, qna_k).
Proof. vm_compute. reflexivity. Defined.

Lemma qna_page_scanned :
  scan (L := qna_lib) qna_url (candidate_containers qna_page) qna_page = Ok (qna_obs, qna_final).
Proof. vm_compute. reflexivity. Defined.







Lemma answers_in_first_appearance_order_witness :
  ∃ qid,
    choose_question_id qna_final (candidate_containers qna_page)
      (first_seen (mids qna_obs)) = Ok qid
    ∧ message_id <$> qna_answers
      = Some <$> filter (fun m => Some m ≠ qid) (first_seen (mids qna_obs))
    ∧ (∀ a, a ∈ qna_answers → message_id a ≠ qid).
Proof.
  apply (answers_in_first_appearance_order (L := qna_lib) qna_page qna_url
           qna_qt qna_qu qna_answers qna_k qna_obs qna_final).
  - exact qna_page_extracted.
  - exact qna_page_scanned.
Defined.



(** C6 as stated fails: for a subtree without text the renderer returns
    the empty string, and the blog path stores it as the question text. *)
Lemma empty_rendering_is_the_empty_string :
  node_to_markdown (L := example_libraries blog_page)
    (E 2 "div" [("class", "lia-article-body")] [E 3 "p" [] []]) blog_url = []
  ∧ match parse_blog_page (L := example_libraries blog_page) blog_url [] with
    | Ok item => question_text item = Some []
    | Raise _ => False
    end.
Proof. vm_compute. split; reflexivity. Qed.

(** The accepted-wrapper rendering of reply 55 in [qna_page] has no body,
    and the page as a whole no empty text. *)
Lemma empty_body_is_absent_witness :
  (∃ n, deref qna_page 9 = Some n)
  ∧ extract_body_markdown (L := qna_lib) qna_page 9 qna_url = Ok (None, qna_page)
  ∧ (None : option str) ≠ Some []
  ∧ ∀ item,
      parse_qna_page (L := qna_lib) qna_url [] = Ok item →
      question_text item ≠ Some [] ∧ ∀ a, a ∈ answers item → text a ≠ Some [].
Proof.
  destruct (empty_body_is_absent (L := qna_lib))
    as (Hbody & Hqna & _).
  assert (Hn : ∃ n, deref qna_page 9 = Some n) by (eexists; vm_compute; reflexivity).
  assert (Hb : extract_body_markdown (L := qna_lib) qna_page 9 qna_url = Ok (None, qna_page))
    by (vm_compute; reflexivity).
  split; [done|]. split; [done|]. destruct Hn as [n Hn]. split.
  - by destruct (Hbody _ _ _ _ _ _ Hb Hn).
  - intros item. apply Hqna.
Defined.


(** On [marked_without_id_page] the first marked container has no
    identifier source at all: reply 7 is promoted. *)
Lemma marked_question_without_identifier_witness :
  let lib := example_libraries marked_without_id_page in
  let obs := (observations marked_without_id_page qna_url).1 in
  let final := (observations marked_without_id_page qna_url).2 in
  candidate_containers marked_without_id_page = [] ++ 2 :: [3; 5]
  ∧ mids obs = [lit "7"; lit "8"]
  ∧ (∀ rest, find_question_id final ([] ++ 2 :: rest) = Ok None)
  ∧ ∀ qt qu answers k,
      extract_flat_qna (L := lib) marked_without_id_page qna_url = Ok (qt, qu, answers, k) →
      question_fields obs (head (first_seen (mids obs))) qt qu
      ∧ message_id <$> answers = Some <$> tail (first_seen (mids obs)).
Proof.
  intros lib obs final.
  assert (Hn : ∃ n, deref final 2 = Some n ∧ is_question_div n = true ∧ get_msg_id n = None).
  { eexists. split; [vm_compute; reflexivity|]. split; vm_compute; reflexivity. }
  destruct Hn as (n & Hn & Hq & Hmid).
  split; [vm_compute; reflexivity|]. split; [vm_compute; reflexivity|].
  assert (H : candidate_containers marked_without_id_page = [] ++ 2 :: [3; 5]
              ∧ scan (L := lib) qna_url (candidate_containers marked_without_id_page)
                  marked_without_id_page = Ok (obs, final)).
  { split; vm_compute; reflexivity. }
  destruct H as [Hcs Hs].
  assert (Hfalsy : truthy (get_msg_id n) = false) by (rewrite Hmid; reflexivity).
  pose proof (marked_question_without_identifier (L := lib) marked_without_id_page qna_url
                [] 2 [3; 5] obs final n Hcs Hs
                (fun c Hc => False_ind _ (proj1 (elem_of_nil c) Hc)) Hn Hq Hfalsy) as H.
  rewrite Hmid in H. exact H.
Defined.

(** C10 as stated fails on [marked_with_empty_uid_page]: the first marked
    container has no resolvable identifier (its only source is an empty
    message-UID attribute, and the first loop skips it), the search stops
    at it, and yet the fallback does not apply: no question is promoted,
    and replies 7 and 8 are both Answers. *)
Lemma empty_identifier_blocks_the_fallback :
  let page := marked_with_empty_uid_page in
  let lib := example_libraries page in
  let obs := (observations page qna_url).1 in
  let final := (observations page qna_url).2 in
  candidate_containers page = [2; 3; 5]
  ∧ (is_question_div <$> deref final 2) = Some true
  ∧ (get_msg_id <$> deref final 2) = Some (Some [])
  ∧ mids obs = [lit "7"; lit "8"]
  ∧ find_question_id final (candidate_containers page) = Ok (Some [])
  ∧ choose_question_id final (candidate_containers page) (first_seen (mids obs))
    ≠ Ok (head (first_seen (mids obs)))
  ∧ (flat_qna page qna_url).1.1.1 = None
  ∧ message_id <$> (flat_qna page qna_url).1.2 = [Some (lit "7"); Some (lit "8")]
  ∧ extract_flat_qna (L := lib) page qna_url = Ok (flat_qna page qna_url).
Proof. vm_compute. repeat split; try reflexivity. discriminate. Qed.

(** The block of [qna_page] has a trailing comma: the first parse raises,
    the parse after the repair returns. *)
Lemma trailing_comma_is_repaired :
  json_loads (Libraries := qna_lib) (qapage_text_trailing_comma "77") = Raise JSONDecodeError
  ∧ repair (qapage_text_trailing_comma "77") = qapage_text "77"
  ∧ extract_json_ld (L := qna_lib) qna_page = Ok [qapage_json "77"]
  ∧ extract_json_ld_accepted_ids (L := qna_lib) qna_page = Ok {[ lit "77" ]}.
Proof. repeat split; vm_compute; reflexivity. Qed.

End OnExamples.

(* ===================================================================== *)
(** * Further properties of the code *)
(* ===================================================================== *)

Section RegexFacts.
Import Crawler Shapes.
Context {U : Unicode}.

Lemma go_char ic r test prev s g k :
  char_test ic r = Some test →
  go ic r prev s g k
  = match s with
    | a :: s' => if test a then k (Some a) s' g else None
    | [] => None
    end.
Proof. destruct r; intros [= <-]; done. Qed.

Lemma star_fuel ic r test g k s :
  char_test ic r = Some test →
  ∀ n prev, length s < n →
  (fix star (n : nat) (prev : option char) (s : str) (g : option str) : option matched :=
     match n with
     | O => k prev s g
     | S n' =>
         match go ic r prev s g
                 (fun p s' g' => if decide (length s' < length s)
                                 then star n' p s' g' else None) with
         | Some x => Some x
         | None => k prev s g
         end
     end) n prev s g
  = star_spec test k prev s g.
Proof.
  intros Hr. induction s as [|a s IH]; intros n prev Hn.
  - destruct n; [cbn in Hn; lia|]. rewrite (go_char _ _ _ _ _ _ _ Hr). done.
  - destruct n; [cbn in Hn; lia|]. rewrite (go_char _ _ _ _ _ _ _ Hr).
    cbn [star_spec]. destruct (test a); [|done].
    rewrite decide_True by (cbn; lia).
    rewrite IH by (cbn in Hn; lia). done.
Qed.

Lemma go_Star_char ic r test prev s g k :
  char_test ic r = Some test →
  go ic (Star r) prev s g k = star_spec test k prev s g.
Proof.
  intros Hr. rewrite <- (star_fuel ic r test g k s Hr (S (length s)) prev) by lia.
  reflexivity.
Qed.

Lemma take_drop_run test s : take_run test s ++ drop_run test s = s.
Proof. induction s as [|a s IH]; cbn; [done|]. destruct (test a); cbn; by rewrite ?IH. Qed.

Lemma take_run_Forall test s : Forall (fun c => test c = true) (take_run test s).
Proof.
  induction s as [|a s IH]; cbn; [done|]. destruct (test a) eqn:E; [|done]. by constructor.
Qed.

Lemma drop_run_head test s : (head (drop_run test s) ≫= (fun c => Some (test c))) ≠ Some true.
Proof.
  induction s as [|a s IH]; cbn; [done|]. destruct (test a) eqn:E; [done|]. cbn. by rewrite E.
Qed.

Lemma length_drop_run test s : length (drop_run test s) ≤ length s.
Proof. induction s as [|a s IH]; cbn; [done|]. destruct (test a); cbn; lia. Qed.

Lemma length_take_run test s :
  length s - length (drop_run test s) = length (take_run test s).
Proof.
  pose proof (f_equal length (take_drop_run test s)) as H. rewrite length_app in H. lia.
Qed.

Lemma take_run_take test s : take (length s - length (drop_run test s)) s = take_run test s.
Proof.
  rewrite <- (take_drop_run test s) at 1 3.
  rewrite length_app, Nat.add_sub. by rewrite take_app_length.
Qed.

(** When the rest of the pattern accepts whatever follows, the star takes
    the whole run. *)
Lemma star_spec_greedy test (k : option char → str → option str → option matched) prev s g :
  (∀ p s' g', is_Some (k p s' g')) →
  star_spec test k prev s g
  = k (if take_run test s is [] then prev else last (take_run test s)) (drop_run test s) g.
Proof.
  intros Hk. revert prev. induction s as [|a s IH]; intros prev; cbn; [done|].
  destruct (test a) eqn:E; [|done].
  rewrite IH. destruct (Hk (match take_run test s with
                            | [] => Some a
                            | _ :: _ => last (take_run test s)
                            end) (drop_run test s) g) as [x Hx].
  rewrite Hx. rewrite <- Hx. f_equal.
Qed.

Lemma match_here_char ic r test prev s :
  char_test ic r = Some test →
  match_here ic r prev s
  = match s with
    | a :: s' => if test a then Some (s', None) else None
    | [] => None
    end.
Proof. intros Hr. unfold match_here. by rewrite (go_char _ _ _ _ _ _ _ Hr). Qed.

Lemma go_Plus_char ic r test prev s g k :
  char_test ic r = Some test →
  (∀ p s' g', is_Some (k p s' g')) →
  go ic (Plus r) prev s g k
  = match s with
    | a :: s' =>
        if test a
        then k (if take_run test s' is [] then Some a else last (take_run test s'))
               (drop_run test s') g
        else None
    | [] => None
    end.
Proof.
  intros Hr Hk. unfold Plus.
  change (go ic (Seq r (Star r)) prev s g k)
    with (go ic r prev s g (fun p s' g' => go ic (Star r) p s' g' k)).
  rewrite (go_char _ _ _ _ _ _ _ Hr).
  destruct s as [|a s]; [done|]. destruct (test a); [|done].
  rewrite (go_Star_char _ _ _ _ _ _ _ Hr).
  by apply star_spec_greedy.
Qed.

Lemma match_here_Plus_char ic r test prev s :
  char_test ic r = Some test →
  match_here ic (Plus r) prev s
  = match s with
    | a :: s' => if test a then Some (drop_run test s', None) else None
    | [] => None
    end.
Proof.
  intros Hr. unfold match_here. rewrite (go_Plus_char _ _ _ _ _ _ _ Hr) by (by eexists).
  done.
Qed.

(** [re.sub] with a one-character pattern and nothing to put in its
    place deletes the characters that match. *)
Lemma sub_from_delete ic r test prev s :
  char_test ic r = Some test →
  sub_from ic r [] prev s 0 = filter (fun c => test c = false) s.
Proof.
  intros Hr. revert prev. induction s as [|a s IH]; intros prev.
  - cbn. by rewrite (match_here_char _ _ _ _ _ Hr).
  - cbn [sub_from]. rewrite (match_here_char _ _ _ _ _ Hr).
    rewrite filter_cons. destruct (test a) eqn:E.
    + rewrite decide_False by done. cbn [app length].
      replace (S (length s) - length s) with 1 by lia. apply IH.
    + rewrite decide_True by done. by rewrite IH.
Qed.

Lemma sub_from_squeeze ic r test repl s :
  char_test ic r = Some test →
  (∀ prev, sub_from ic (Plus r) repl prev s 0 = squeeze test repl false s)
  ∧ (∀ prev, sub_from ic (Plus r) repl prev s (length (take_run test s))
             = squeeze test repl true s).
Proof.
  intros Hr. induction s as [|a s [IH0 IH1]].
  - split; intros prev; cbn [sub_from take_run length squeeze];
      rewrite (match_here_Plus_char _ _ _ _ _ Hr); done.
  - assert (H0 : ∀ prev, sub_from ic (Plus r) repl prev (a :: s) 0
                         = squeeze test repl false (a :: s)).
    { intros prev. cbn [sub_from squeeze]. rewrite (match_here_Plus_char _ _ _ _ _ Hr).
      destruct (test a) eqn:E.
      - f_equal. cbn [length].
        pose proof (length_drop_run test s).
        replace (S (length s) - length (drop_run test s))
          with (S (length s - length (drop_run test s))) by lia.
        rewrite length_take_run. apply IH1.
      - by rewrite IH0. }
    split; [exact H0|]. intros prev. cbn [take_run].
    destruct (test a) eqn:E.
    + cbn [length sub_from squeeze]. rewrite E. cbn [app]. apply IH1.
    + cbn [length]. rewrite H0. cbn [squeeze]. by rewrite E.
Qed.

Lemma re_sub_squeeze ic r test repl s :
  char_test ic r = Some test →
  re_sub ic (Plus r) repl s = squeeze test repl false s.
Proof. intros Hr. apply (sub_from_squeeze _ _ _ _ _ Hr). Qed.

Lemma re_sub_delete ic r test s :
  char_test ic r = Some test →
  re_sub ic r [] s = filter (fun c => test c = false) s.
Proof. intros Hr. by apply sub_from_delete. Qed.

(** Whatever the pattern, [re.sub] keeps a property that the characters of
    the text and of the replacement have. *)
Lemma sub_from_Forall ic r repl (P : char → Prop) prev s n :
  Forall P s → Forall P repl → Forall P (sub_from ic r repl prev s n).
Proof.
  intros Hs Hrepl. revert prev n. induction Hs as [|a s Ha Hs IH]; intros prev n.
  - destruct n; cbn; [|done]. destruct (match_here _ _ _ _) as [[??]|]; [|done].
    by rewrite app_nil_r.
  - destruct n; cbn [sub_from]; [|apply IH].
    destruct (match_here _ _ _ _) as [[rest ?]|].
    + apply Forall_app. split; [done|].
      destruct (_ - _); [constructor; [done|]|]; apply IH.
    + constructor; [done|apply IH].
Qed.

End RegexFacts.

Section StringFacts.
Import Crawler Shapes.
Context {U : Unicode}.

Lemma lstrip_drop_run s : lstrip s = drop_run isspace s.
Proof. induction s as [|a s IH]; cbn; [done|]. by rewrite IH. Qed.

Lemma lstrip_head s c : head (lstrip s) = Some c → isspace c = false.
Proof.
  induction s as [|a s IH]; cbn; [done|].
  destruct (isspace a) eqn:E; [done|]. by intros [= <-].
Qed.

Lemma lstrip_suffix s : ∃ w, s = w ++ lstrip s ∧ Forall (fun c => isspace c = true) w.
Proof.
  exists (take_run isspace s). rewrite lstrip_drop_run, take_drop_run.
  split; [done|]. apply take_run_Forall.
Qed.

Lemma rstrip_prefix s : ∃ w, s = rstrip s ++ w ∧ Forall (fun c => isspace c = true) w.
Proof.
  unfold rstrip. destruct (lstrip_suffix (reverse s)) as (w & Hw & Hall).
  exists (reverse w). split; [|by apply Forall_reverse].
  rewrite <- reverse_app, <- Hw. by rewrite reverse_involutive.
Qed.

Lemma rstrip_last s c : last (rstrip s) = Some c → isspace c = false.
Proof. unfold rstrip. rewrite last_reverse. apply lstrip_head. Qed.

Lemma lstrip_id s : (∀ c, head s = Some c → isspace c = false) → lstrip s = s.
Proof. destruct s as [|a s]; cbn; [done|]. intros H. by rewrite (H a eq_refl). Qed.

Lemma rstrip_id s : (∀ c, last s = Some c → isspace c = false) → rstrip s = s.
Proof.
  intros H. unfold rstrip. rewrite lstrip_id; [by rewrite reverse_involutive|].
  intros c. rewrite head_reverse. apply H.
Qed.

Lemma strip_trimmed s : trimmed (strip s).
Proof.
  unfold strip. split; [|apply rstrip_last].
  intros c Hc. destruct (rstrip_prefix (lstrip s)) as (w & Hw & _).
  apply (lstrip_head s c). rewrite Hw.
  destruct (rstrip (lstrip s)); [done|]. done.
Qed.

Lemma trimmed_strip t : trimmed t → strip t = t.
Proof. intros [Hh Hl]. unfold strip. rewrite lstrip_id by done. by apply rstrip_id. Qed.

Lemma strip_Forall (P : char → Prop) s : Forall P s → Forall P (strip s).
Proof.
  intros H. unfold strip.
  destruct (lstrip_suffix s) as (w1 & Hw1 & _).
  destruct (rstrip_prefix (lstrip s)) as (w2 & Hw2 & _).
  rewrite Hw1, Hw2 in H. by apply Forall_app in H as [_ [H _]%Forall_app].
Qed.

Lemma apart_weaken P b t : apart P b t = true → apart P false t = true.
Proof.
  destruct t as [|c t]; [done|]. cbn. destruct (P c); [|done].
  destruct b; [done|]. done.
Qed.

Lemma apart_app P b t1 t2 : apart P b (t1 ++ t2) = true → apart P b t1 = true.
Proof.
  revert b. induction t1 as [|c t1 IH]; intros b; cbn; [done|].
  destruct (P c).
  - intros [-> H]%andb_prop. cbn. by apply IH.
  - apply IH.
Qed.

Lemma apart_drop_run P b t : apart P b t = true → apart P false (drop_run P t) = true.
Proof.
  revert b. induction t as [|c t IH]; intros b; cbn [drop_run]; [done|].
  destruct (P c) eqn:E.
  - cbn. rewrite E. intros [_ H]%andb_prop. by eapply IH.
  - apply apart_weaken.
Qed.

Lemma apart_strip b t : apart isspace b t = true → apart isspace false (strip t) = true.
Proof.
  intros H%apart_drop_run. unfold strip. rewrite lstrip_drop_run.
  destruct (rstrip_prefix (drop_run isspace t)) as (w & Hw & _).
  rewrite Hw in H. by apply apart_app in H.
Qed.

Lemma apart_mono (P Q : char → bool) b t :
  (∀ c, Q c = true → P c = true) → apart P b t = true → apart Q b t = true.
Proof.
  intros HQ. revert b. induction t as [|c t IH]; intros b; cbn; [done|].
  destruct (Q c) eqn:E.
  - rewrite (HQ c E). intros [-> H]%andb_prop. cbn. by apply IH.
  - destruct (P c); [|apply IH]. intros [_ H]%andb_prop. by eapply IH, apart_weaken.
Qed.

(** After [re.sub] of [r+] for a one-character [r], by one character. *)
Lemma squeeze_apart test r s :
  apart test false (squeeze test [r] false s) = true
  ∧ apart test true (squeeze test [r] true s) = true.
Proof.
  induction s as [|c s [IH0 IH1]]; [done|]. cbn [squeeze].
  destruct (test c) eqn:E; cbn [app apart].
  - split; [|done]. destruct (test r); [by rewrite IH1|].
    by eapply apart_weaken.
  - by rewrite E.
Qed.

Lemma squeeze_chars test r b s :
  Forall (fun c => test c = true → c = r) (squeeze test [r] b s).
Proof.
  revert b. induction s as [|c s IH]; intros b; cbn [squeeze]; [done|].
  destruct (test c) eqn:E.
  - destruct b; cbn; [apply IH|]. constructor; [done|apply IH].
  - constructor; [by rewrite E|apply IH].
Qed.

Lemma apart_squeeze test r t :
  Forall (fun c => test c = true → c = r) t →
  (apart test false t = true → squeeze test [r] false t = t)
  ∧ (apart test true t = true → squeeze test [r] true t = t).
Proof.
  induction 1 as [|c t Hc Ht [IH0 IH1]]; [done|]. cbn [squeeze apart].
  destruct (test c) eqn:E.
  - split.
    + intros [_ H]%andb_prop. cbn. rewrite (Hc eq_refl). f_equal. by apply IH1.
    + intros [[=] _]%andb_prop.
  - split; intros H; f_equal; by apply IH0.
Qed.

Lemma replace_char_Forall (P : char → Prop) old new s :
  Forall P s → Forall P new → Forall P (replace_char old new s).
Proof.
  intros Hs Hn. unfold replace_char. induction Hs as [|c s Hc Hs IH]; [done|].
  cbn. apply Forall_app. split; [|done]. destruct (c =? old)%N; [done|by constructor].
Qed.

Lemma replace_char_not_elem old new s : old ∉ new → old ∉ replace_char old new s.
Proof.
  intros Hn. unfold replace_char. induction s as [|c s IH]; cbn; [by apply not_elem_of_nil|].
  rewrite elem_of_app. intros [H|H]; [|done].
  destruct (c =? old)%N eqn:E; [done|].
  apply list_elem_of_singleton in H as ->. by rewrite N.eqb_refl in E.
Qed.

Lemma replace_char_id old new s : old ∉ s → replace_char old new s = s.
Proof.
  unfold replace_char. induction s as [|c s IH]; [done|].
  intros [Hc Hs]%not_elem_of_cons. cbn.
  rewrite (proj2 (N.eqb_neq c old)) by done. cbn. f_equal. by apply IH.
Qed.

(** ** [normalize_whitespace] *)

Lemma normalize_whitespace_unfold s :
  normalize_whitespace (Some s)
  = Some (strip (squeeze isspace [32%N] false
                   (replace_char 160%N [32%N]
                      (filter (fun c => existsb (N.eqb c) [8206; 8207]%N = false) s)))).
Proof.
  unfold normalize_whitespace. do 2 f_equal.
  rewrite (re_sub_squeeze false Space isspace) by done.
  unfold LRM_RLM. rewrite (re_sub_delete false (Cls _) _ s eq_refl). done.
Qed.

Lemma Forall_ne (x : N) (l : list N) : Forall (fun c => c ≠ x) l ↔ x ∉ l.
Proof.
  rewrite Forall_forall. split.
  - intros H Hin. by apply (H x).
  - intros H c Hc ->. done.
Qed.

Lemma Forall_not_in (xs l : list N) :
  Forall (fun x => x ∉ l) xs → Forall (fun c => c ∉ xs) l.
Proof.
  rewrite !Forall_forall. intros H c Hc Hin. by apply (H c Hin).
Qed.

Lemma normalize_whitespace_chars s x :
  x ∈ [160; 8206; 8207]%N →
  x ∉ strip (squeeze isspace [32%N] false
               (replace_char 160%N [32%N]
                  (filter (fun c => existsb (N.eqb c) [8206; 8207]%N = false) s))).
Proof.
  intros Hx. apply Forall_ne, strip_Forall.
  rewrite <- (re_sub_squeeze false Space isspace) by done.
  apply sub_from_Forall.
  2:{ constructor; [|done]. intros <-. set_solver. }
  apply elem_of_cons in Hx as [->|Hx].
  { apply Forall_ne, replace_char_not_elem. set_solver. }
  apply replace_char_Forall.
  2:{ constructor; [|done]. intros <-. set_solver. }
  apply Forall_forall. intros c [Hc _]%list_elem_of_filter ->.
  cbn in Hc. apply elem_of_cons in Hx as [->|Hx]; [done|].
  apply elem_of_cons in Hx as [->|Hx]; [done|]. by apply elem_of_nil in Hx.
Qed.

Lemma normalize_whitespace_normal s t :
  normalize_whitespace (Some s) = Some t → whitespace_normal t.
Proof.
  rewrite normalize_whitespace_unfold. intros [= <-]. split; [apply strip_trimmed|]. split; [|split].
  - eapply apart_strip, squeeze_apart.
  - apply strip_Forall, squeeze_chars.
  - apply Forall_not_in. apply Forall_forall. intros x Hx.
    by apply normalize_whitespace_chars.
Qed.

Lemma whitespace_normal_fixed t :
  whitespace_normal t → normalize_whitespace (Some t) = Some t.
Proof.
  intros (Ht & Hs & Hw & Hc). rewrite normalize_whitespace_unfold. f_equal.
  rewrite (filter_all _ t).
  2:{ eapply Forall_impl; [exact Hc|]. cbn. intros c Hn.
      destruct (c =? 8206)%N eqn:E1; [apply N.eqb_eq in E1 as ->; set_solver|].
      destruct (c =? 8207)%N eqn:E2; [apply N.eqb_eq in E2 as ->; set_solver|]. done. }
  rewrite replace_char_id.
  2:{ intros Hin. rewrite Forall_forall in Hc. apply (Hc _ Hin). set_solver. }
  rewrite (proj1 (apart_squeeze isspace 32%N t Hw)) by done.
  by apply trimmed_strip.
Qed.

(** X1.  [normalize_whitespace] turns every string into a string in normal
    form: no whitespace at either end, no whitespace character other than
    the space U+0020, no two spaces side by side, and none of U+00A0,
    U+200E and U+200F. *)
Theorem normalize_whitespace_gives_normal_form (s : str) :
  ∃ t, normalize_whitespace (Some s) = Some t ∧ whitespace_normal t.
Proof. rewrite normalize_whitespace_unfold. eexists. split; [done|]. by eapply normalize_whitespace_normal, normalize_whitespace_unfold. Qed.

(** X2.  [normalize_whitespace] is idempotent: applied to its own result
    (a string or [None]) it changes nothing. *)
Theorem normalize_whitespace_idempotent (s : option str) :
  normalize_whitespace (normalize_whitespace s) = normalize_whitespace s.
Proof.
  destruct s as [s|]; [|done].
  destruct (normalize_whitespace (Some s)) as [t|] eqn:E; [|done].
  by apply whitespace_normal_fixed, (normalize_whitespace_normal s).
Qed.

End StringFacts.

Section Tidy.
Import Crawler Shapes.
Context {U : Unicode}.

Lemma star_spec_ext test k k' prev s g :
  (∀ p s' g', k p s' g' = k' p s' g') →
  star_spec test k prev s g = star_spec test k' prev s g.
Proof.
  intros H. revert prev. induction s as [|a s IH]; intros prev; cbn; [done|].
  by rewrite IH, H.
Qed.

Lemma go_Seq ic r1 r2 prev s g k :
  go ic (Seq r1 r2) prev s g k = go ic r1 prev s g (fun p s' g' => go ic r2 p s' g' k).
Proof. reflexivity. Qed.

Lemma match_blank_lines prev s :
  match_here false BLANK_LINES prev s
  = match s with
    | a :: s' => if is_nl a then star_spec isspace k1 (Some a) s' None else None
    | [] => None
    end.
Proof.
  unfold match_here, BLANK_LINES, Seqs. cbn [foldr].
  rewrite go_Seq, (go_char false (Chr 10%N) is_nl) by done.
  destruct s as [|a s]; [done|]. destruct (is_nl a); [|done].
  rewrite go_Seq, (go_Star_char false Space isspace) by done.
  apply star_spec_ext. intros p s' g'. unfold k1.
  rewrite go_Seq, (go_char false (Chr 10%N) is_nl) by done.
  destruct s' as [|b s']; [done|]. destruct (is_nl b); [|done].
  rewrite go_Seq, (go_Star_char false Space isspace) by done.
  apply star_spec_ext. intros p' s'' g''. unfold k2.
  rewrite go_Seq, (go_Plus_char false (Chr 10%N) is_nl) by (done || by eexists).
  done.
Qed.

(** What a successful star went through. *)
Lemma star_spec_Some test k prev s g x :
  star_spec test k prev s g = Some x →
  ∃ w p rest, s = w ++ rest ∧ k p rest g = Some x.
Proof.
  revert prev. induction s as [|a s IH]; intros prev; cbn.
  - intros H. by exists [], prev, [].
  - destruct (test a).
    + destruct (star_spec test k (Some a) s g) as [y|] eqn:E.
      * intros [= <-]. apply IH in E as (w & p & rest & -> & Hk).
        by exists (a :: w), p, rest.
      * intros H. by exists [], prev, (a :: s).
    + intros H. by exists [], prev, (a :: s).
Qed.

Lemma star_spec_zero test k prev s g :
  is_Some (k prev s g) → is_Some (star_spec test k prev s g).
Proof.
  intros H. destruct s as [|a s]; cbn; [done|].
  destruct (test a); [|done]. by destruct (star_spec test k (Some a) s g).
Qed.

Lemma star_spec_more test k prev a s g :
  test a = true → is_Some (star_spec test k (Some a) s g) →
  is_Some (star_spec test k prev (a :: s) g).
Proof. intros E [x Hx]. cbn. rewrite E, Hx. by eexists. Qed.

Lemma star_spec_cases test k prev s g :
  is_Some (star_spec test k prev s g) →
  is_Some (k prev s g)
  ∨ ∃ a s', s = a :: s' ∧ test a = true ∧ is_Some (star_spec test k (Some a) s' g).
Proof.
  destruct s as [|a s]; cbn; [by left|].
  destruct (test a) eqn:E; [|by left].
  destruct (star_spec test k (Some a) s g) as [y|] eqn:Hy; [|by left].
  intros _. right. exists a, s. by rewrite Hy.
Qed.

(** A match of [BLANK_LINES]: it starts with a line feed, takes three
    characters or more, and no line feed follows it. *)
Lemma match_blank_lines_Some prev s rest g :
  match_here false BLANK_LINES prev s = Some (rest, g) →
  ∃ w, s = 10%N :: w ++ rest ∧ 2 ≤ length w ∧ head rest ≠ Some 10%N.
Proof.
  rewrite match_blank_lines. destruct s as [|a s]; [done|].
  destruct (is_nl a) eqn:Ea; [|done]. apply N.eqb_eq in Ea as ->.
  intros (w1 & p1 & r1 & -> & H1)%star_spec_Some.
  unfold k1 in H1. destruct r1 as [|b r1]; [done|].
  destruct (is_nl b) eqn:Eb; [|done].
  apply star_spec_Some in H1 as (w2 & p2 & r2 & -> & H2).
  unfold k2 in H2. destruct r2 as [|c r2]; [done|].
  destruct (is_nl c) eqn:Ec; [|done]. injection H2 as <- <-.
  exists (w1 ++ b :: w2 ++ c :: take_run is_nl r2). split; [|split].
  - rewrite <- !app_assoc. cbn. rewrite <- !app_assoc. cbn.
    by rewrite take_drop_run.
  - rewrite !length_app. cbn. rewrite !length_app. cbn. lia.
  - pose proof (drop_run_head is_nl r2) as H.
    destruct (drop_run is_nl r2) as [|d r3]; [done|]. cbn in *.
    intros [= ->]. by apply H.
Qed.

Lemma k2_Some p p' s g g' : is_Some (k1 p s g) → is_Some (k2 p' s g').
Proof.
  unfold k1, k2. destruct s as [|a s]; [done|]. destruct (is_nl a); [|done].
  intros _. by eexists.
Qed.

Lemma star_k1_k2 p p' s g g' :
  is_Some (star_spec isspace k1 p s g) → is_Some (star_spec isspace k2 p' s g').
Proof.
  revert p p'. induction s as [|a s IH]; intros p p' H.
  - apply star_spec_zero. exact (k2_Some _ _ _ _ _ H).
  - apply star_spec_cases in H as [H|(b & s' & [= <- <-] & Eb & H)].
    + apply star_spec_zero. exact (k2_Some _ _ _ _ _ H).
    + apply star_spec_more; [done|]. exact (IH _ _ H).
Qed.

(** If there is a match one character further on, and a line feed here,
    there is a match here. *)
Lemma match_blank_lines_before prev prev' s :
  is_Some (match_here false BLANK_LINES prev s) →
  is_Some (match_here false BLANK_LINES prev' (10%N :: s)).
Proof.
  rewrite !match_blank_lines. destruct s as [|a s]; [by intros [? [=]]|].
  destruct (is_nl a) eqn:Ea; [|by intros [? [=]]].
  intros H. change (is_nl 10%N) with true. cbn match.
  apply star_spec_zero. unfold k1 at 1. rewrite Ea.
  exact (star_k1_k2 _ _ _ _ _ H).
Qed.

Lemma match_blank_lines_three prev s :
  is_Some (match_here false BLANK_LINES prev (10 :: 10 :: 10 :: s)%N).
Proof.
  rewrite match_blank_lines. change (is_nl 10%N) with true. cbn match.
  apply star_spec_zero. unfold k1. change (is_nl 10%N) with true. cbn match.
  apply star_spec_zero. unfold k2. change (is_nl 10%N) with true. by eexists.
Qed.

Lemma match_blank_lines_prev prev prev' s :
  match_here false BLANK_LINES prev s = match_here false BLANK_LINES prev' s.
Proof. by rewrite !match_blank_lines. Qed.

(** Skipping the characters of a match. *)
Lemma sub_from_skip r repl prev w rest :
  (∀ p p' s, match_here false r p s = match_here false r p' s) →
  sub_from false r repl prev (w ++ rest) (length w) = sub_from false r repl prev rest 0.
Proof.
  intros Hp. revert prev. induction w as [|c w IH]; intros prev; [done|].
  cbn [app length sub_from]. rewrite IH.
  destruct rest as [|d rest]; cbn [sub_from]; by rewrite (Hp (Some c) prev).
Qed.

Lemma no_triple_blank_lines n :
  ∀ s, length s ≤ n → ∀ prev,
    let out := sub_from false BLANK_LINES (NL ++ NL) prev s 0 in
    no_triple 0 out = true
    ∧ (match_here false BLANK_LINES None (10%N :: s) = None → no_triple 1 out = true)
    ∧ (match_here false BLANK_LINES None (10 :: 10 :: s)%N = None →
       match_here false BLANK_LINES None (10%N :: s) = None → no_triple 2 out = true)
    ∧ (head s ≠ Some 10%N → no_triple 2 out = true).
Proof.
  induction n as [|n IH]; intros s Hlen prev.
  { destruct s; [|cbn in Hlen; lia]. cbn zeta. cbn [sub_from].
    rewrite match_blank_lines. done. }
  destruct s as [|c s].
  { cbn zeta. cbn [sub_from]. rewrite match_blank_lines. done. }
  cbn zeta. cbn [sub_from].
  destruct (match_here false BLANK_LINES prev (c :: s)) as [[rest g]|] eqn:HM.
  - pose proof HM as HM'.
    apply match_blank_lines_Some in HM as (w & [= -> ->] & Hw & Hrest).
    cbn [length]. rewrite length_app.
    replace (S (length w + length rest) - length rest) with (S (length w)) by lia.
    rewrite sub_from_skip by apply match_blank_lines_prev.
    assert (Hl : length rest ≤ n).
    { cbn in Hlen. rewrite length_app in Hlen. lia. }
    destruct (IH rest Hl (Some 10%N)) as (_ & _ & _ & HC).
    assert (Hsome : ∀ p, is_Some (match_here false BLANK_LINES p (10%N :: w ++ rest))).
    { intros p. rewrite (match_blank_lines_prev p prev), HM'. by eexists. }
    split; [|split; [|split]].
    + cbn. by apply HC.
    + intros Hnone. destruct (match_blank_lines_before None None _ (Hsome None)) as [x Hx].
      by rewrite Hx in Hnone.
    + intros _ Hnone. destruct (match_blank_lines_before None None _ (Hsome None)) as [x Hx].
      by rewrite Hx in Hnone.
    + done.
  - assert (Hl : length s ≤ n) by (cbn in Hlen; lia).
    destruct (IH s Hl (Some c)) as (HA & HB1 & HB2 & _).
    rewrite (match_blank_lines_prev prev None) in HM.
    cbn [no_triple]. destruct (c =? 10)%N eqn:Ec.
    + apply N.eqb_eq in Ec as ->. split; [|split; [|split]].
      * cbn. by apply HB1.
      * intros Hnone. cbn. by apply HB2.
      * intros Hnone _. destruct (match_blank_lines_three None s) as [x Hx].
        by rewrite Hx in Hnone.
      * done.
    + by repeat split.
Qed.

Lemma no_triple_mono n m t : n ≤ m → no_triple m t = true → no_triple n t = true.
Proof.
  revert n m. induction t as [|c t IH]; intros n m Hnm; [done|]. cbn [no_triple].
  destruct (c =? 10)%N; [|done].
  intros [Hm H]%andb_prop. apply Nat.ltb_lt in Hm.
  rewrite (proj2 (Nat.ltb_lt n 2)) by lia. cbn [andb]. apply (IH (S n) (S m)); [lia|done].
Qed.

Lemma no_triple_app n t1 t2 : no_triple n (t1 ++ t2) = true → no_triple n t1 = true.
Proof.
  revert n. induction t1 as [|c t1 IH]; intros n; cbn [app no_triple]; [done|].
  destruct (c =? 10)%N; [|apply IH].
  intros [-> H]%andb_prop. cbn [andb]. by apply IH.
Qed.

Lemma no_triple_drop_run P n t : no_triple n t = true → no_triple 0 (drop_run P t) = true.
Proof.
  revert n. induction t as [|c t IH]; intros n; cbn [drop_run]; [done|].
  destruct (P c).
  - cbn [no_triple]. destruct (c =? 10)%N; [|apply IH]. intros [_ H]%andb_prop. by eapply IH.
  - apply no_triple_mono. lia.
Qed.

Lemma no_triple_strip n t : no_triple n t = true → no_triple 0 (strip t) = true.
Proof.
  intros H%(no_triple_drop_run isspace). unfold strip. rewrite lstrip_drop_run.
  destruct (rstrip_prefix (drop_run isspace t)) as (w & Hw & _).
  rewrite Hw in H. by apply no_triple_app in H.
Qed.

(** [re.sub] keeps characters that pass [P] apart, when the replacement
    is not empty and has none of them. *)
Lemma apart_repl P b repl t :
  repl ≠ [] → Forall (fun c => P c = false) repl →
  apart P false t = true → apart P b (repl ++ t) = true.
Proof.
  intros Hne Hrepl Ht. destruct repl as [|c repl]; [done|].
  apply Forall_cons in Hrepl as [Hc Hrepl]. cbn. rewrite Hc. clear Hne Hc b c.
  induction Hrepl as [|c repl Hc Hrepl IH]; [done|]. cbn. by rewrite Hc.
Qed.

Lemma sub_from_apart ic r repl P prev s n b :
  repl ≠ [] → Forall (fun c => P c = false) repl →
  apart P false s = true →
  (n = 0 → apart P b s = true) →
  apart P (if n is 0 then b else false) (sub_from ic r repl prev s n) = true.
Proof.
  intros Hne Hrepl. revert prev n b. induction s as [|c s IH]; intros prev n b Hs Hb.
  - destruct n; cbn [sub_from]; [|done].
    destruct (match_here _ _ _ _) as [[??]|]; [|done].
    by apply apart_repl.
  - assert (Hs' : apart P false s = true).
    { cbn in Hs. destruct (P c); [|done]. by eapply apart_weaken. }
    destruct n as [|n]; cbn [sub_from].
    + specialize (Hb eq_refl).
      assert (Hlit : ∀ b', apart P b' (c :: s) = true →
                           apart P b' (c :: sub_from ic r repl (Some c) s 0) = true).
      { intros b'. cbn. destruct (P c).
        - intros [-> H]%andb_prop. cbn. by apply (IH _ 0 true).
        - intros H. by apply (IH _ 0 false). }
      destruct (match_here _ _ _ _) as [[rest ?]|]; [|by apply Hlit].
      apply apart_repl; [done|done|].
      destruct (_ - _) as [|m]; [by apply Hlit|].
      destruct m; [by apply (IH _ 0 false)|].
      by apply (IH _ (S m) false).
    + destruct n; [by apply (IH _ 0 false)|]. by apply (IH _ (S n) false).
Qed.

Lemma apart_suffix P b w t : apart P b (w ++ t) = true → apart P false t = true.
Proof.
  revert b. induction w as [|c w IH]; intros b; cbn [app]; [apply apart_weaken|].
  cbn. destruct (P c); [|apply IH]. intros [_ H]%andb_prop. by eapply IH.
Qed.

Lemma apart_strip_any P b t : apart P b t = true → apart P false (strip t) = true.
Proof.
  intros H. unfold strip.
  destruct (lstrip_suffix t) as (w1 & Hw1 & _).
  destruct (rstrip_prefix (lstrip t)) as (w2 & Hw2 & _).
  rewrite Hw1 in H. apply apart_suffix in H. rewrite Hw2 in H.
  by apply apart_app in H.
Qed.

Lemma filter_Forall_keep (P : char → Prop) (f : char → bool) s :
  Forall P s → Forall P (filter (fun c => f c = false) s).
Proof.
  intros H. apply Forall_forall. intros c [_ Hc]%list_elem_of_filter.
  rewrite Forall_forall in H. by apply H.
Qed.

Lemma in_list_true cs c : in_list cs c = true ↔ c ∈ cs.
Proof.
  unfold in_list. rewrite existsb_exists. split.
  - intros (x & Hx%list_elem_of_In & ->%N.eqb_eq). done.
  - intros H. exists c. split; [by apply list_elem_of_In|apply N.eqb_refl].
Qed.

Lemma tidy_unfold md :
  tidy md
  = strip (re_sub false BLANK_LINES (NL ++ NL)
             (squeeze (in_list [32; 9]%N) [32%N] false
                (filter (fun c => in_list [8203; 8204; 8205]%N c = false)
                   (replace_char 8199%N [32%N]
                      (replace_char 8239%N [32%N] (replace_char 160%N [32%N] md)))))).
Proof.
  unfold tidy. do 2 f_equal.
  rewrite (re_sub_squeeze false (Cls _) (in_list [32; 9]%N)) by done. f_equal.
  by rewrite (re_sub_delete false (Cls _) (in_list [8203; 8204; 8205]%N)).
Qed.

Lemma tidy_chars md x :
  x ∈ [160; 8239; 8199; 8203; 8204; 8205; 9]%N → x ∉ tidy md.
Proof.
  intros Hx. rewrite tidy_unfold. apply Forall_ne, strip_Forall.
  assert (H32 : Forall (fun c => c ≠ x) [32%N]).
  { constructor; [|done]. intros <-. by vm_compute in Hx; repeat (apply elem_of_cons in Hx as [[=]|Hx]); apply elem_of_nil in Hx. }
  apply sub_from_Forall.
  2:{ repeat constructor; intros <-;
        by repeat (apply elem_of_cons in Hx as [[=]|Hx]); apply elem_of_nil in Hx. }
  destruct (decide (x = 9%N)) as [->|H9].
  { apply Forall_ne. intros Hin.
    pose proof (squeeze_chars (in_list [32; 9]%N) 32%N false
                  (filter (fun c => in_list [8203; 8204; 8205]%N c = false)
                     (replace_char 8199%N [32%N]
                        (replace_char 8239%N [32%N] (replace_char 160%N [32%N] md))))) as H.
    rewrite Forall_forall in H. by specialize (H _ Hin eq_refl). }
  rewrite <- (re_sub_squeeze false (Cls [32; 9]%N)) by done.
  apply sub_from_Forall; [|done].
  destruct (decide (x ∈ [8203; 8204; 8205]%N)) as [Hzw|Hzw].
  { apply Forall_ne. intros [Hf _]%list_elem_of_filter.
    apply in_list_true in Hzw. congruence. }
  apply filter_Forall_keep.
  destruct (decide (x = 8199%N)) as [->|H3].
  { apply Forall_ne, replace_char_not_elem. by intros [=]%list_elem_of_singleton. }
  apply replace_char_Forall; [|done].
  destruct (decide (x = 8239%N)) as [->|H2].
  { apply Forall_ne, replace_char_not_elem. by intros [=]%list_elem_of_singleton. }
  apply replace_char_Forall; [|done].
  destruct (decide (x = 160%N)) as [->|H1].
  { apply Forall_ne, replace_char_not_elem. by intros [=]%list_elem_of_singleton. }
  exfalso. repeat (apply elem_of_cons in Hx as [->|Hx]; [done || (apply Hzw; set_solver)|]).
  by apply elem_of_nil in Hx.
Qed.

Lemma tidy_is_clean md : markdown_clean (tidy md).
Proof.
  split; [rewrite tidy_unfold; apply strip_trimmed|]. split; [|split].
  - apply Forall_not_in, Forall_forall. intros x Hx. by apply tidy_chars.
  - rewrite tidy_unfold. eapply apart_strip_any.
    assert (Hsq : ∀ s, apart (fun c => (c =? 32)%N) false
                         (squeeze (in_list [32; 9]%N) [32%N] false s) = true).
    { intros s. eapply apart_mono; [|apply squeeze_apart]. by intros c ->%N.eqb_eq. }
    apply (sub_from_apart false BLANK_LINES (NL ++ NL) _ None _ 0 false).
    + done.
    + by repeat constructor.
    + apply Hsq.
    + intros _. apply Hsq.
  - rewrite tidy_unfold. apply (no_triple_strip 0).
    apply (proj1 (no_triple_blank_lines _ _ (Nat.le_refl _) None)).
Qed.

End Tidy.

Section Digits.
Import Crawler Shapes.
Context {U : Unicode}.

(** Every success of the engine is a success of the rest of the pattern. *)
Lemma star_Some ic r (k : option char → str → option str → option matched) :
  (∀ prev s g k x, go ic r prev s g k = Some x → ∃ p s' g', k p s' g' = Some x) →
  ∀ n prev s g x,
    (fix star (n : nat) (prev : option char) (s : str) (g : option str) : option matched :=
       match n with
       | O => k prev s g
       | S n' =>
           match go ic r prev s g
                   (fun p s' g' => if decide (length s' < length s)
                                   then star n' p s' g' else None) with
           | Some x => Some x
           | None => k prev s g
           end
       end) n prev s g = Some x →
    ∃ p s' g', k p s' g' = Some x.
Proof.
  intros IH. induction n as [|n IHn]; intros prev s g x; [eauto|].
  destruct (go ic r prev s g _) as [y|] eqn:E; [|eauto].
  intros [= <-]. apply IH in E as (p & s' & g' & E).
  destruct (decide _); [|done]. by apply IHn in E.
Qed.

Lemma go_Some ic r : ∀ prev s g k x,
  go ic r prev s g k = Some x → ∃ p s' g', k p s' g' = Some x.
Proof.
  induction r as [|c|cs|lo hi| | |r1 IH1 r2 IH2|r1 IH1 r2 IH2|r IH|r IH| | |];
    intros prev s g k x.
  - cbn [go]. eauto.
  - cbn [go]. destruct s as [|a s]; [done|]. destruct (if ic then _ else _); [eauto|done].
  - cbn [go]. destruct s as [|a s]; [done|]. destruct (existsb _ _); [eauto|done].
  - cbn [go]. destruct s as [|a s]; [done|]. destruct (_ && _); [eauto|done].
  - cbn [go]. destruct s as [|a s]; [done|]. destruct (isdecimal a); [eauto|done].
  - cbn [go]. destruct s as [|a s]; [done|]. destruct (isspace a); [eauto|done].
  - rewrite go_Seq. intros (p & s' & g' & H)%IH1. by apply IH2 in H.
  - cbn [go]. destruct (go ic r1 prev s g k) as [y|] eqn:E.
    + intros [= <-]. by apply IH1 in E.
    + apply IH2.
  - apply (star_Some ic r k IH (S (length s))).
  - cbn [go]. intros (p & s' & g' & H)%IH. eauto.
  - cbn [go]. destruct (xorb _ _); [eauto|done].
  - cbn [go]. destruct prev; [done|eauto].
  - cbn [go]. destruct s as [|c [|??]]; [eauto| |done]. destruct (c =? 10)%N; [eauto|done].
Qed.

(** What [(\d+)] captures at the end of a pattern. *)
Lemma go_Group_digits ic prev s g x :
  go ic (Group (Plus Digit)) prev s g kf = Some x → ∃ d, x.2 = Some d ∧ digits d.
Proof.
  cbn [go]. fold (go ic (Plus Digit)).
  rewrite (go_Plus_char ic Digit isdecimal) by (done || by eexists).
  destruct s as [|a s]; [done|]. destruct (isdecimal a) eqn:E; [|done].
  unfold kf. intros [= <-]. cbn [snd]. eexists. split; [done|].
  cbn [length]. pose proof (length_drop_run isdecimal s).
  replace (S (length s) - length (drop_run isdecimal s))
    with (S (length s - length (drop_run isdecimal s))) by lia.
  cbn [take]. rewrite take_run_take. split; [done|].
  constructor; [done|apply take_run_Forall].
Qed.

Lemma match_here_digits ic r prev s x :
  match_here ic (Seq r (Group (Plus Digit))) prev s = Some x → ∃ d, x.2 = Some d ∧ digits d.
Proof.
  unfold match_here. rewrite go_Seq. intros (p & s' & g' & H)%go_Some.
  by apply go_Group_digits in H.
Qed.

Lemma search_from_digits ic r prev s d :
  search_from ic (Seq r (Group (Plus Digit))) prev s ≫= snd = Some d → digits d.
Proof.
  revert prev. induction s as [|a s IH]; intros prev; cbn [search_from].
  - destruct (match_here _ _ _ _) as [x|] eqn:E; [|done].
    apply match_here_digits in E as (d' & Hd & Hdig). cbn. rewrite Hd. by intros [= <-].
  - destruct (match_here _ _ _ _) as [x|] eqn:E; [|apply IH].
    apply match_here_digits in E as (d' & Hd & Hdig). cbn. rewrite Hd. by intros [= <-].
Qed.

Lemma search_group1_digits ic r s d :
  search_group1 ic (Seq r (Group (Plus Digit))) s = Some d → digits d.
Proof. apply search_from_digits. Qed.

Lemma search_group0_digits ic s d :
  search_group0 ic (Plus Digit) s = Some d → digits d.
Proof.
  unfold search_group0. generalize (@None char). intros prev. revert prev.
  assert (Hm : ∀ prev s, match match_here ic (Plus Digit) prev s with
                         | Some (rest, _) => digits (take (length s - length rest) s)
                         | None => True
                         end).
  { intros prev s'. rewrite (match_here_Plus_char ic Digit isdecimal) by done.
    destruct s' as [|a s']; [done|]. destruct (isdecimal a) eqn:E; [|done].
    cbn [length]. pose proof (length_drop_run isdecimal s').
    replace (S (length s') - length (drop_run isdecimal s'))
      with (S (length s' - length (drop_run isdecimal s'))) by lia.
    cbn [take]. rewrite take_run_take. split; [done|].
    constructor; [done|apply take_run_Forall]. }
  induction s as [|a s IH]; intros prev; cbn [search_group0_from].
  - specialize (Hm prev []). destruct (match_here _ _ _ _) as [[rest ?]|]; [|done].
    by intros [= <-].
  - specialize (Hm prev (a :: s)). destruct (match_here _ _ _ _) as [[rest ?]|]; [|apply IH].
    by intros [= <-].
Qed.

(** ** Identifiers *)

Lemma get_anchor_mid_digits div mid : get_anchor_mid div = Some mid → digits mid.
Proof.
  unfold get_anchor_mid.
  set (from_id := match find _ div with Some el => _ | None => None end).
  assert (Hid : ∀ m, from_id = Some m → digits m).
  { intros m. unfold from_id. destruct (find _ div) as [el|]; [|done].
    unfold re_match. destruct (match_here _ _ _ _) as [x|] eqn:Hm; [|done].
    apply match_here_digits in Hm as (d & Hd & Hdig). cbn. rewrite Hd. by intros [= <-]. }
  destruct from_id as [m|].
  - intros [= <-]. by apply Hid.
  - destruct (find _ div) as [a|]; [|done]. destruct (has_attr a _); [|done].
    apply search_group1_digits.
Qed.

(** X3.  An identifier [get_msg_id] returns is a non-empty string of
    decimal digits (read from [id="message-<digits>"] or from an anchor),
    unless it is the value of the attribute [data-lia-message-uid], which
    is returned as it stands. *)
Theorem message_identifier_shape (div : node) (mid : str) :
  get_msg_id div = Some mid →
  digits mid ∨ get div (lit "data-lia-message-uid") = Some mid.
Proof.
  unfold get_msg_id. destruct (truthy (get_anchor_mid div)).
  { intros H. left. by apply (get_anchor_mid_digits div). }
  destruct (has_attr div (lit "data-lia-message-uid")); [by right|].
  destruct (has_attr div (lit "id")); [|done].
  intros H. left. by apply search_group1_digits in H.
Qed.

(** ** The identifiers of the JSON-LD blocks *)

Lemma accepted_loop_digits accepted ids :
  all_digits ids → all_digits (accepted_loop accepted ids).1.
Proof.
  revert ids. induction accepted as [|a rest IH]; intros ids Hids; [done|].
  cbn [accepted_loop].
  destruct (json_or _ _) as [[| | | |url| |]|e]; try done.
  destruct (search_group1 false HASH_M_DIGITS url) as [mid|] eqn:E; [|by apply IH].
  apply IH. intros m [->%elem_of_singleton|Hm]%elem_of_union; [|by apply Hids].
  by apply search_group1_digits in E.
Qed.

Lemma node_step_digits node ids : all_digits ids → all_digits (node_step node ids).1.
Proof.
  intros Hids. unfold node_step.
  destruct (_ ≫= _) as [[accepted|]|e]; [|done|done].
  by apply accepted_loop_digits.
Qed.

Lemma nodes_loop_digits nodes ids : all_digits ids → all_digits (nodes_loop nodes ids).1.
Proof.
  revert ids. induction nodes as [|node rest IH]; intros ids Hids; [done|].
  cbn [nodes_loop]. pose proof (node_step_digits node ids Hids) as H.
  destruct (node_step node ids) as [ids' [[]|e]]; [by apply IH|done].
Qed.

Lemma block_step_digits ids block : all_digits ids → all_digits (block_step ids block).
Proof.
  intros Hids. unfold block_step.
  destruct (json_get block _) as [[| | | | |l|]|e]; try done;
    by apply nodes_loop_digits.
Qed.

(** X4.  Every identifier [extract_json_ld_accepted_ids] returns is a
    non-empty string of decimal digits. *)
Theorem json_ld_identifiers_are_numeric {L : Libraries} (root : soup) (ids : gset str) :
  extract_json_ld_accepted_ids root = Ok ids → ∀ mid, mid ∈ ids → digits mid.
Proof.
  unfold extract_json_ld_accepted_ids. intros H. inv_bind H as blocks E. injection H as <-.
  clear E. change (all_digits (foldl block_step ∅ blocks)).
  assert (H0 : all_digits ∅) by (by intros mid Hm%not_elem_of_empty).
  revert H0. generalize (∅ : gset str).
  induction blocks as [|b blocks IH]; intros ids Hids; [done|].
  cbn [foldl]. apply IH. by apply block_step_digits.
Qed.

(** ** Upvotes *)

Lemma first_some_elem {A} (l : list (option A)) x : first_some l = Some x → Some x ∈ l.
Proof.
  unfold first_some. induction l as [|[y|] l IH]; cbn; [done| |].
  - intros [= <-]. by left.
  - intros H. right. by apply IH.
Qed.

Section Law.
Import Crawler Shapes.
Hypothesis digit_value_nonneg : ∀ c, isdecimal c = true → (0 ≤ digit_value c)%Z.

Lemma foldl_digits_nonneg d z :
  Forall (fun c => isdecimal c = true) d → (0 ≤ z)%Z →
  (0 ≤ foldl (fun acc c => (acc * 10 + digit_value c)%Z) z d)%Z.
Proof using digit_value_nonneg.
  intros H. revert z. induction H as [|c d Hc Hd IH]; intros z Hz; [exact Hz|].
  cbn. apply IH. specialize (digit_value_nonneg c Hc). lia.
Qed.

Lemma int_of_digits_nonneg d :
  Forall (fun c => isdecimal c = true) d → (0 ≤ int_of_digits d)%Z.
Proof using digit_value_nonneg. intros H. by apply foldl_digits_nonneg. Qed.

Lemma first_int_nonneg s v : first_int s = Some v → (0 ≤ v)%Z.
Proof using digit_value_nonneg.
  unfold first_int. destruct (search_group0 _ _ _) as [d|] eqn:E; [|done].
  intros [= <-]. apply search_group0_digits in E as [_ Hd]. by apply int_of_digits_nonneg.
Qed.

Lemma extract_upvotes_nonneg container ancs v :
  extract_upvotes container ancs = Some v → (0 ≤ v)%Z.
Proof using digit_value_nonneg.
  unfold extract_upvotes. intros H%first_some_elem.
  repeat (apply elem_of_cons in H as [H|H]).
  - symmetry in H. apply first_some_elem, list_elem_of_bind in H as (el & H & _).
    apply list_elem_of_singleton in H. destruct (found _ _ _); [|done].
    symmetry in H. by apply first_int_nonneg in H.
  - symmetry in H. apply first_some_elem, list_elem_of_bind in H as (el & H & _).
    apply list_elem_of_singleton in H.
    destruct (first_int (strip _)) as [n|] eqn:E.
    { injection H as ->. by apply first_int_nonneg in E. }
    symmetry in H. apply first_some_elem, list_elem_of_bind in H as (kv & H & _).
    apply list_elem_of_singleton in H. destruct (_ || _); [|done].
    symmetry in H. by apply first_int_nonneg in H.
  - destruct (select_one _ _ _); [|done]. symmetry in H. by apply first_int_nonneg in H.
  - by apply elem_of_nil in H.
Qed.

End Law.

(** X5.  A count [extract_upvotes] returns is never negative, given that
    the value of a decimal digit is not negative. *)
Theorem upvotes_are_not_negative (container : node) (ancs : list node) (v : Z) :
  (∀ c, isdecimal c = true → (0 ≤ digit_value c)%Z) →
  extract_upvotes container ancs = Some v →
  (0 ≤ v)%Z.
Proof. intros Hlaw. by apply extract_upvotes_nonneg. Qed.

End Digits.

Section Containers.
Import Crawler Shapes.
Context {U : Unicode} {L : Libraries}.

Lemma select_below_in_select sel root wrap w ancs o :
  locate root wrap = Some (w, ancs) →
  o ∈ select_below sel w ancs → o ∈ select sel root.
Proof.
  intros [Hw _]%locate_all_tags.
  unfold select, select_below, select_tags.
  intros (p & Hp & Ho)%list_elem_of_omap.
  apply list_elem_of_filter in Hp as [Hm Hp].
  apply list_elem_of_omap. exists p. split; [|done].
  apply list_elem_of_filter. split; [done|].
  apply elem_of_cons in Hw as [[= -> ->]|Hw]; [done|].
  by eapply tags_below_trans.
Qed.

Lemma deref_has_oid root o b : deref root o = Some b → has_oid o b = true.
Proof.
  unfold deref. destruct (locate root o) as [p|] eqn:E; [|done]. intros [= <-].
  unfold locate in E. apply head_Some_elem_of, list_elem_of_filter in E as [E _].
  by destruct (has_oid o p.1).
Qed.

Lemma node_eqb_refl_tag o b : has_oid o b = true → node_eqb b b = true.
Proof. destruct b as [|o' nm at_ cs]; [done|]. intros _. cbn. by rewrite bool_decide_true. Qed.

Lemma tag_in_self root o containers :
  o ∈ containers → is_Some (deref root o) → tag_in root o containers = true.
Proof.
  intros Hin [b Hb]. unfold tag_in. apply existsb_exists. exists o.
  split; [by apply list_elem_of_In|]. rewrite Hb.
  by eapply node_eqb_refl_tag, deref_has_oid.
Qed.

Lemma append_missing_present root containers inner :
  (∀ m, m ∈ inner → tag_in root m containers = true) →
  append_missing root containers inner = containers.
Proof.
  unfold append_missing. induction inner as [|m inner IH]; intros H; [done|].
  cbn [foldl]. rewrite (H m) by by left. apply IH. intros m' Hm'. apply H. by right.
Qed.

(** X6.  The loop of [extract_flat_qna] over the accepted wrappers (lines
    609-613) appends nothing: the candidate containers are those the first
    [select] over the document finds, in its order. *)
Theorem accepted_wrappers_add_no_container (root : soup) :
  candidate_containers root = select message_selector root.
Proof.
  unfold candidate_containers.
  assert (Hlive : ∀ o, o ∈ select message_selector root → is_Some (deref root o)).
  { intros o (p & Hp & Ho)%select_below_tags. eapply all_tags_live; [|done]. by right. }
  induction (select accepted_wrapper_selector root) as [|wrap wrappers IH] using rev_ind;
    [done|].
  rewrite foldl_app. cbn [foldl]. rewrite IH.
  destruct (locate root wrap) as [[w ancs]|] eqn:Hw; [|done].
  apply append_missing_present. intros m Hm.
  apply (select_below_in_select _ _ _ _ _ _ Hw) in Hm.
  apply tag_in_self; [done|by apply Hlive].
Qed.

End Containers.

Section JsonLd.
Import Crawler Shapes.
Context {U : Unicode} {L : Libraries}.

(** X7.  [extract_json_ld_accepted_ids] gathers the identifiers block by
    block: an identifier is returned exactly when some JSON-LD block of the
    page yields it on its own; within a block, more nodes and more accepted
    answers only add identifiers. *)
Theorem accepted_identifiers_per_block (root : soup) :
  ∃ blocks ids,
    extract_json_ld root = Ok blocks
    ∧ extract_json_ld_accepted_ids root = Ok ids
    ∧ (∀ mid, mid ∈ ids ↔ ∃ b, b ∈ blocks ∧ mid ∈ block_step ∅ b)
    ∧ (∀ nodes1 nodes2 seen,
         (nodes_loop nodes1 seen).1 ⊆ (nodes_loop (nodes1 ++ nodes2) seen).1)
    ∧ (∀ accepted1 accepted2 seen,
         (accepted_loop accepted1 seen).1 ⊆ (accepted_loop (accepted1 ++ accepted2) seen).1).
Proof.
  unfold extract_json_ld_accepted_ids, extract_json_ld. rewrite json_ld_loop_spec.
  eexists _, _. split; [done|]. split; [done|]. split; [|split].
  - intros mid. rewrite foldl_block_step. split; [|by right].
    intros [H|H]; [|done]. by apply not_elem_of_empty in H.
  - intros nodes1. induction nodes1 as [|node rest IH]; intros nodes2 seen.
    + cbn [app nodes_loop fst]. rewrite nodes_loop_union. set_solver.
    + cbn [app nodes_loop]. destruct (node_step node seen) as [ids1 [[]|e]]; [apply IH|done].
  - intros accepted1. induction accepted1 as [|a rest IH]; intros accepted2 seen.
    + cbn [app accepted_loop fst]. rewrite accepted_loop_union. set_solver.
    + cbn [app accepted_loop].
      destruct (json_or _ _) as [[| | | |url| |]|e]; try done.
      destruct (search_group1 false HASH_M_DIGITS url); apply IH.
Qed.

End JsonLd.

Section Records.
Import Crawler Shapes.
Context {U : Unicode} {L : Libraries}.

Lemma node_to_markdown_clean n base_url : markdown_clean (node_to_markdown n base_url).
Proof. apply tidy_is_clean. Qed.

(** X8.  Whatever the node, the text [node_to_markdown] returns has no
    whitespace at either end, none of U+00A0, U+202F, U+2007, U+200B to
    U+200D and no tab, no two spaces side by side, and never three line
    feeds in a row. *)
Theorem markdown_is_clean (n : node) (base_url : str) :
  markdown_clean (node_to_markdown n base_url).
Proof. apply tidy_is_clean. Qed.

Lemma extract_body_markdown_clean root c page_url t root' md :
  extract_body_markdown root c page_url = Ok (t, root') →
  t = Some md → md ≠ [] ∧ markdown_clean md.
Proof.
  unfold extract_body_markdown. intros H. inv_bind H as n En.
  destruct (find _ n) as [body_div|]; [|by injection H as <- <-].
  inv_bind H as body Eb. injection H as <- <-.
  destruct (node_to_markdown body page_url) as [|c0 md0] eqn:E; [done|].
  intros [= <-]. split; [done|]. rewrite <- E. apply node_to_markdown_clean.
Qed.

Lemma build_answer_shape root div page_url ans root' :
  build_answer_from_div root div page_url = Ok (ans, root') →
  message_url ans = url_of_message page_url (message_id ans)
  ∧ fields_in_normal_form ans.
Proof.
  unfold build_answer_from_div. intros Hb. inv_bind Hb as n En.
  inv_bind Hb as [text_md root1] Ebody. inv_bind Hb as [n1 ancs] En1.
  injection Hb as <- <-. cbn. split; [|split].
  - by destruct (get_msg_id n) as [[|??]|].
  - intros t. by apply (extract_body_markdown_clean _ _ _ _ _ _ Ebody).
  - destruct (find _ n) as [auth_tag|]; [|done].
    intros au. apply normalize_whitespace_normal.
Qed.

Lemma merge_fold_message_url a0 rest :
  message_url (foldl merge_into a0 rest) = message_url a0.
Proof. revert a0. induction rest as [|b rest IH]; intros a0; cbn; [done|]. by rewrite IH. Qed.

Lemma merge_fold_author a0 rest : author (foldl merge_into a0 rest) = author a0.
Proof. revert a0. induction rest as [|b rest IH]; intros a0; cbn; [done|]. by rewrite IH. Qed.

Lemma group_observed page_url cs obs mid a :
  Forall (observed page_url cs) obs → a ∈ group mid obs →
  ∃ root div root', build_answer_from_div root div page_url = Ok (a, root')
    ∧ message_id a = Some mid ∧ mid ≠ [].
Proof.
  intros Hobs (o & -> & Ho)%list_elem_of_fmap.
  apply list_elem_of_filter in Ho as [<- Ho].
  rewrite Forall_forall in Hobs. pose proof (Hobs o Ho) as Hob.
  destruct Hob as (_ & Hne & _ & Hb).
  exists (ob_before o), (ob_div o), (ob_after o). split; [done|]. split; [|done].
  exact (observed_message_id _ _ _ (Hobs o Ho)).
Qed.

Lemma merged_shape page_url cs obs mid a0 rest :
  Forall (observed page_url cs) obs →
  group mid obs = a0 :: rest →
  let a := foldl merge_into a0 rest in
  mid ≠ [] ∧ message_id a = Some mid
  ∧ message_url a = Some (page_url ++ lit "#M" ++ mid)
  ∧ fields_in_normal_form a.
Proof.
  intros Hobs Hg a.
  assert (Hin : ∀ b, b ∈ a0 :: rest → ∃ root div root',
             build_answer_from_div root div page_url = Ok (b, root')
             ∧ message_id b = Some mid ∧ mid ≠ []).
  { intros b Hb. rewrite <- Hg in Hb. by eapply group_observed. }
  destruct (Hin a0 (ltac:(by left))) as (r0 & d0 & r0' & Hb0 & Hid0 & Hne).
  apply build_answer_shape in Hb0 as [Hu0 [_ Ha0]].
  split; [done|]. unfold a. rewrite merge_fold_message_id, merge_fold_message_url.
  split; [done|]. split.
  { rewrite Hu0, Hid0. by destruct mid. }
  split; [|by rewrite merge_fold_author].
  intros t Ht.
  pose proof (merge_fold_text a0 rest) as Hf. apply first_nonempty_elem in Hf.
  apply list_elem_of_fmap in Hf as (b & Hbt & Hb).
  destruct (Hin b Hb) as (r & d & r' & Hbb & _ & _).
  apply build_answer_shape in Hbb as [_ [Htext _]]. apply Htext. congruence.
Qed.

Lemma result_answer_shape page_url cs ids obs mid a :
  Forall (observed page_url cs) obs →
  result_answer ids obs mid = Some a →
  mid ≠ [] ∧ message_id a = Some mid
  ∧ message_url a = Some (page_url ++ lit "#M" ++ mid)
  ∧ fields_in_normal_form a.
Proof.
  unfold result_answer. intros Hobs Ha.
  destruct (group mid obs) as [|a0 rest] eqn:Hg; [done|]. injection Ha as <-.
  destruct (merged_shape _ _ _ _ _ _ Hobs Hg) as (Hne & Hid & Hu & Hf).
  by destruct (bool_decide (mid ∈ ids)).
Qed.

(** X9.  When [extract_flat_qna] returns, the count it returns is the
    number of answers, no two answers share an identifier, and every answer
    has a non-empty identifier and the address [page_url#M<identifier>]. *)
Theorem qna_answers_are_well_formed root page_url qt qu answers k :
  extract_flat_qna root page_url = Ok (qt, qu, answers, k) →
  k = Z.of_nat (length answers)
  ∧ NoDup (message_id <$> answers)
  ∧ Forall (fun a => ∃ mid, mid ≠ [] ∧ message_id a = Some mid
                      ∧ message_url a = Some (page_url ++ lit "#M" ++ mid)) answers.
Proof.
  intros He. pose proof He as He'.
  apply extract_flat_qna_spec in He' as (obs & final & _ & _ & Hs & _).
  destruct (extract_flat_qna_observed _ _ _ _ _ _ _ _ He Hs)
    as (qid & ids & _ & _ & Hobs & Hall & Hk & _).
  split; [done|]. split.
  - assert (Hids : message_id <$> answers
                   = Some <$> filter (fun m => Some m ≠ qid) (first_seen (mids obs))).
    { clear -Hall. induction Hall as [|a m answers order [_ Ha] _ IH]; [done|].
      cbn. by rewrite Ha, IH. }
    rewrite Hids. apply (NoDup_fmap_2 _). apply NoDup_filter, NoDup_first_seen.
  - clear -Hall Hobs. induction Hall as [|a m answers order [Ha _] _ IH]; [done|].
    constructor; [|done]. exists m.
    destruct (result_answer_shape _ _ _ _ _ _ Hobs Ha) as (? & ? & ? & _). done.
Qed.

(** X10.  When [extract_flat_qna] returns, the question text and the text
    of every answer are absent or non-empty and cleaned as
    [node_to_markdown] cleans, and every author present is in the normal
    form of [normalize_whitespace]. *)
Theorem qna_fields_are_in_normal_form root page_url qt qu answers k :
  extract_flat_qna root page_url = Ok (qt, qu, answers, k) →
  (∀ t, qt = Some t → t ≠ [] ∧ markdown_clean t)
  ∧ Forall fields_in_normal_form answers.
Proof.
  intros He. pose proof He as He'.
  apply extract_flat_qna_spec in He' as (obs & final & _ & _ & Hs & _).
  destruct (extract_flat_qna_observed _ _ _ _ _ _ _ _ He Hs)
    as (qid & ids & _ & _ & Hobs & Hall & _ & Hq).
  split.
  - unfold question_fields in Hq. destruct qid as [q|]; [|by destruct Hq as [-> _]].
    destruct (group q obs) as [|a0 rest] eqn:Hg; [by destruct Hq as [-> _]|].
    destruct Hq as [-> _].
    by destruct (merged_shape _ _ _ _ _ _ Hobs Hg) as (_ & _ & _ & [Ht _]).
  - clear -Hall Hobs. induction Hall as [|a m answers order [Ha _] _ IH]; [done|].
    constructor; [|done].
    by destruct (result_answer_shape _ _ _ _ _ _ Hobs Ha) as (_ & _ & _ & ?).
Qed.

End Records.

Section Blog.
Import Crawler Shapes.
Context {U : Unicode} {L : Libraries}.

Lemma identified_snoc answers a :
  identified (answers ++ [a])
  = identified answers ++ (if truthy (message_id a) then [message_id a] else []).
Proof.
  unfold identified. rewrite fmap_app, filter_app. f_equal.
  change (message_id <$> [a]) with [message_id a].
  rewrite filter_cons, filter_nil. destruct (truthy (message_id a)) eqn:E.
  - by rewrite decide_True.
  - by rewrite decide_False.
Qed.

Lemma comment_loop_spec url cs root seen answers0 answers :
  comment_loop url cs root seen answers0 = Ok answers →
  (∀ m, m ∈ seen ↔ m ≠ [] ∧ Some m ∈ identified answers0) →
  NoDup (identified answers0) →
  Forall (blog_comment url) answers0 →
  NoDup (identified answers) ∧ Forall (blog_comment url) answers.
Proof.
  revert root seen answers0. induction cs as [|div cs IH]; intros root seen answers0 Hl Hseen Hnd Hall.
  - by injection Hl as <-.
  - cbn [comment_loop] in Hl. inv_bind Hl as n En. apply live_Ok in En.
    destruct (truthy (get_msg_id n) && _) eqn:Hskip; [by eapply IH|].
    inv_bind Hl as [ans root1] Eb.
    pose proof (build_answer_shape _ _ _ _ _ Eb) as [Hu Hf].
    apply build_answer_spec in Eb as (n' & n2 & ancs & En' & _ & Hid & _).
    assert (n' = n) as -> by congruence.
    set (a := {| message_id := message_id ans |}) in Hl.
    eapply IH; [exact Hl| | |].
    + intros m. rewrite identified_snoc. cbn [message_id a]. rewrite Hid.
      destruct (get_msg_id n) as [[|c mid]|] eqn:Hm; cbn [truthy default].
      * rewrite app_nil_r. apply Hseen.
      * rewrite elem_of_union, elem_of_singleton, elem_of_app, list_elem_of_singleton, Hseen.
        split.
        -- intros [->|[? ?]]; [split; [done|by right]|split; [done|by left]].
        -- intros [Hne [?|[= ->]]]; [by right|by left].
      * rewrite app_nil_r. apply Hseen.
    + rewrite identified_snoc. cbn [message_id a]. rewrite Hid.
      destruct (truthy (get_msg_id n)) eqn:Ht; [|by rewrite app_nil_r].
      apply NoDup_app. split; [done|]. split; [|apply NoDup_singleton].
      intros x Hx ->%list_elem_of_singleton.
      cbn [andb] in Hskip. apply bool_decide_eq_false in Hskip. apply Hskip.
      apply Hseen. destruct (get_msg_id n) as [[|c mid]|]; try done.
    + apply Forall_app. split; [done|]. constructor; [|done].
      split; [done|]. split; [exact Hu|]. exact Hf.
Qed.

(** X11.  An item [parse_blog_page] returns has the type [blog], no board
    and no question upvotes; its reply count is the number of its comments;
    no comment is accepted, each has the address [url#M<identifier>] if it
    has a non-empty identifier and none otherwise, its fields are in normal
    form, and no two comments share a non-empty identifier. *)
Theorem blog_comments_are_never_accepted url html item :
  parse_blog_page url html = Ok item →
  content_type item = lit "blog"
  ∧ board item = None
  ∧ question_upvotes item = None
  ∧ reply_count item = Some (Z.of_nat (length (answers item)))
  ∧ Forall (blog_comment url) (answers item)
  ∧ NoDup (identified (answers item)).
Proof.
  unfold parse_blog_page. intros H. inv_bind H as answers Hl. injection H as <-. cbn.
  apply comment_loop_spec in Hl as [Hnd Hall]; [done| |constructor|constructor].
  intros m. split; [by intros ?%not_elem_of_empty|]. by intros [_ ?%elem_of_nil].
Qed.

End Blog.

Section Metadata.
Import Crawler Shapes.
Context {U : Unicode} {L : Libraries}.

Lemma first_meta_normal root candidates t :
  first_meta root candidates = Some t → whitespace_normal t.
Proof.
  induction candidates as [|[k v] rest IH]; cbn [first_meta]; [done|].
  destruct (meta_content root k v) as [c|]; [|done].
  apply normalize_whitespace_normal.
Qed.

Lemma uniq_push_normal arr val :
  Forall (fun t => t ≠ [] ∧ whitespace_normal t) arr →
  (∀ v, val = Some v → whitespace_normal v) →
  Forall (fun t => t ≠ [] ∧ whitespace_normal t) (uniq_push arr val).
Proof.
  intros Harr Hval. unfold uniq_push. destruct val as [[|c v]|]; [done| |done].
  specialize (Hval _ eq_refl). rewrite (trimmed_strip (c :: v)) by apply Hval.
  cbn match. destruct (bool_decide _); [|done]. apply Forall_app. split; [done|].
  constructor; [split; [done|exact Hval]|constructor].
Qed.

(** X12.  The title, author and dates [extract_common_fields] returns are
    in the normal form of [normalize_whitespace], and so is every tag, none
    of which is empty. *)
Theorem metadata_is_whitespace_normal (root : soup) :
  let common := extract_common_fields root in
  (∀ t, cf_title common = Some t → whitespace_normal t)
  ∧ (∀ t, cf_author common = Some t → whitespace_normal t)
  ∧ (∀ t, cf_published_at common = Some t → whitespace_normal t)
  ∧ (∀ t, cf_updated_at common = Some t → whitespace_normal t)
  ∧ Forall (fun t => t ≠ [] ∧ whitespace_normal t) (cf_tags common).
Proof.
  cbn zeta. unfold extract_common_fields. cbn [cf_title cf_author cf_published_at cf_updated_at cf_tags].
  split; [|split; [|split; [|split]]]; try (intros t; apply first_meta_normal).
  - intros t. destruct (meta_content root _ _) as [c|]; [apply normalize_whitespace_normal|].
    destruct (find _ root) as [tt|]; [|done].
    destruct (truthy (tag_string tt)); [|done].
    destruct (tag_string tt) as [s|]; [|done]. apply normalize_whitespace_normal.
  - unfold tag_candidates.
    generalize (filter (matches_selector classic_tags_selector) (tags_below [] root)
                ++ filter (matches_selector managed_tags_selector) (tags_below [] root)).
    intros l.
    assert (H0 : Forall (fun t => t ≠ [] ∧ whitespace_normal t) (@nil str)) by done.
    revert H0. generalize (@nil str). induction l as [|p l IH]; intros arr Harr; [done|].
    cbn [fmap list_fmap foldl]. apply IH. apply uniq_push_normal; [done|].
    intros v. apply normalize_whitespace_normal.
Qed.

End Metadata.

Section CrawlerProperties.
Import Crawler Shapes.
Context {U : Unicode} {L : Libraries} {W : World}.

Lemma requests_made_app tr1 tr2 :
  requests_made (tr1 ++ tr2) = requests_made tr1 + requests_made tr2.
Proof. unfold requests_made. by rewrite filter_app, length_app. Qed.

Lemma failed_attempts_S url timeout range a k :
  failed_attempts url timeout range a (S k)
  = [Get url timeout; Log WARNING; Sleep range a] ++ failed_attempts url timeout range (S a) k.
Proof. reflexivity. Qed.

Lemma requests_made_failed_attempts url timeout range a k :
  requests_made (failed_attempts url timeout range a k) = k.
Proof.
  revert a. induction k as [|k IH]; intros a; [done|].
  rewrite failed_attempts_S, requests_made_app, IH. done.
Qed.

(** One attempt of [http_get] that does not end it. *)
Lemma http_get_loop_failed url timeout range a rest last_exc tr :
  succeeded (requests_get (requests_made tr) url timeout) = false →
  http_get_loop url timeout range (a :: rest) last_exc tr
  = match retry_refusal range (S (requests_made tr)) a with
    | Some exc => (Raised exc, tr ++ [Get url timeout; Log WARNING])
    | None =>
        http_get_loop url timeout range rest
          (match raised (requests_get (requests_made tr) url timeout) with
           | Some exc => Some exc
           | None => last_exc
           end)
          (tr ++ [Get url timeout; Log WARNING; Sleep range a])
    end.
Proof.
  intros Hs. cbn [http_get_loop]. unfold time_sleep, random_uniform, retry_refusal.
  rewrite requests_made_app.
  change (requests_made [Get url timeout; Log WARNING]) with 1. rewrite Nat.add_1_r.
  destruct (requests_get (requests_made tr) url timeout) as [resp|exc]; cbn [succeeded raised] in *.
  - rewrite Hs. destruct (sleep_refusal _); [done|]. by rewrite <- app_assoc.
  - destruct (sleep_refusal _); [done|]. by rewrite <- app_assoc.
Qed.

(** How a run of the loop of [http_get] ends: with the first response of
    status 200, with the refusal of a sleep, or after the last attempt. *)
Lemma http_get_loop_cases url timeout range n : ∀ a last_exc tr o tr',
  http_get_loop url timeout range (seq a n) last_exc tr = (o, tr') →
  let out i := requests_get (requests_made tr + i) url timeout in
  let refusal i := retry_refusal range (requests_made tr + S i) (a + i) in
  (∃ k resp, k < n ∧ o = Returned resp ∧ out k = Returned resp ∧ status_code resp = 200%Z
     ∧ (∀ i, i < k → succeeded (out i) = false ∧ refusal i = None)
     ∧ tr' = tr ++ failed_attempts url timeout range a k ++ [Get url timeout])
  ∨ (∃ k exc, k < n ∧ o = Raised exc
       ∧ (∀ i, i ≤ k → succeeded (out i) = false)
       ∧ (∀ i, i < k → refusal i = None)
       ∧ refusal k = Some exc
       ∧ tr' = tr ++ failed_attempts url timeout range a k ++ [Get url timeout; Log WARNING])
  ∨ ((∀ i, i < n → succeeded (out i) = false ∧ refusal i = None)
     ∧ o = Raised (default (RuntimeError (lit "Failed to GET " ++ url))
                     (match last (omap raised (out <$> seq 0 n)) with
                      | Some e => Some e
                      | None => last_exc
                      end))
     ∧ tr' = tr ++ failed_attempts url timeout range a n).
Proof.
  induction n as [|n IH]; intros a last_exc tr o tr'; cbn zeta.
  { cbn [seq http_get_loop]. intros H. right. right. split; [intros i Hi; lia|].
    cbn. rewrite app_nil_r. by destruct last_exc; injection H as <- <-. }
  cbn [seq].
  destruct (succeeded (requests_get (requests_made tr) url timeout)) eqn:Hs.
  { cbn [http_get_loop].
    destruct (requests_get (requests_made tr) url timeout) as [resp|exc] eqn:Hr; [|done].
    cbn [succeeded] in Hs. rewrite Hs. intros [= <- <-]. left. exists 0, resp.
    rewrite Nat.add_0_r. split; [lia|]. split; [done|]. split; [done|].
    split; [lia|]. split; [intros i Hi; lia|done]. }
  rewrite http_get_loop_failed by done.
  destruct (retry_refusal range (S (requests_made tr)) a) as [exc|] eqn:Hf.
  { intros [= <- <-]. right. left. exists 0, exc. split; [lia|]. split; [done|].
    split. { intros i Hi. assert (i = 0) as -> by lia. by rewrite Nat.add_0_r. }
    split; [intros i Hi; lia|]. split; [by rewrite Nat.add_1_r, Nat.add_0_r|done]. }
  intros H. apply IH in H. cbn zeta in H.
  assert (Hidx : ∀ i, requests_made (tr ++ [Get url timeout; Log WARNING; Sleep range a]) + i
                      = requests_made tr + S i).
  { intros i. rewrite requests_made_app.
    change (requests_made [Get url timeout; Log WARNING; Sleep range a]) with 1. lia. }
  assert (Hfac : ∀ i, S a + i = a + S i) by (intros; lia).
  assert (Hall : ∀ k (P : nat → Prop), P 0 →
            (∀ i, i < k → P (S i)) → ∀ i, i < S k → P i).
  { intros k P H0 HS [|i] Hi; [done|]. apply HS. lia. }
  destruct H as [(k & resp & Hk & -> & Hout & H200 & Hbefore & ->)
                |[(k & exc & Hk & -> & Hout & Hbefore & Hfail & ->)
                 |(Hbefore & -> & ->)]].
  - left. exists (S k), resp. split; [lia|]. split; [done|].
    rewrite Hidx in Hout. split; [done|]. split; [done|]. split.
    + apply Hall.
      * rewrite !Nat.add_0_r, Nat.add_1_r. done.
      * intros i Hi. destruct (Hbefore i Hi) as [H1 H2]. by rewrite !Hidx, Hfac in *.
    + rewrite failed_attempts_S. by rewrite <- !app_assoc.
  - right. left. exists (S k), exc. split; [lia|]. split; [done|]. split; [|split; [|split]].
    + intros [|i] Hi; [by rewrite Nat.add_0_r|]. rewrite <- Hidx. apply Hout. lia.
    + apply Hall; [by rewrite Nat.add_1_r, Nat.add_0_r|].
      intros i Hi. rewrite <- Hidx, <- Hfac. by apply Hbefore.
    + by rewrite <- Hidx, <- Hfac.
    + rewrite failed_attempts_S. by rewrite <- !app_assoc.
  - right. right. split; [|split].
    + apply Hall.
      * rewrite !Nat.add_0_r, Nat.add_1_r. done.
      * intros i Hi. destruct (Hbefore i Hi) as [H1 H2]. by rewrite !Hidx, Hfac in *.
    + f_equal. f_equal. cbn [seq]. rewrite fmap_cons, Nat.add_0_r.
      rewrite <- (fmap_S_seq 0 n), <- list_fmap_compose.
      assert (Heq : (λ i, requests_get
                            (requests_made (tr ++ [Get url timeout; Log WARNING; Sleep range a]) + i)
                            url timeout) <$> seq 0 n
                    = ((λ i, requests_get (requests_made tr + i) url timeout) ∘ S) <$> seq 0 n).
      { apply list_fmap_ext. intros ? i _. cbn. by rewrite Hidx. }
      rewrite Heq. cbn [omap list_omap].
      destruct (raised (requests_get (requests_made tr) url timeout)) as [exc|].
      * rewrite last_cons. by destruct (last (omap raised _)).
      * done.
    + rewrite failed_attempts_S. by rewrite <- !app_assoc.
Qed.

(** ** [http_get] *)

(** X13.  When [http_get] returns a response, its status is 200, it is the
    answer to the first attempt that gave status 200, that attempt is
    within [max_retries], and nothing was done but the failed attempts
    before it (a request, a warning and a sleep of growing factor each) and
    the last request. *)
Theorem http_get_returns_first_200 url timeout max_retries range tr resp tr' :
  http_get url timeout max_retries range tr = (Returned resp, tr') →
  status_code resp = 200%Z
  ∧ ∃ k, (Z.of_nat k < max_retries)%Z
      ∧ requests_get (requests_made tr + k) url timeout = Returned resp
      ∧ (∀ i, i < k → succeeded (requests_get (requests_made tr + i) url timeout) = false)
      ∧ tr' = tr ++ failed_attempts url timeout range 1 k ++ [Get url timeout].
Proof.
  unfold http_get. intros H. apply http_get_loop_cases in H. cbn zeta in H.
  destruct H as [(k & resp' & Hk & [= <-] & Hout & H200 & Hbefore & ->)
                |[(k & exc & _ & [=] & _)|(_ & [=] & _)]].
  split; [done|]. exists k. split; [lia|]. split; [done|]. split; [|done].
  intros i Hi. by apply Hbefore.
Qed.

(** X14.  When [http_get] raises, no attempt made gave status 200, and
    one of two things happened.  Either all [max_retries] attempts were
    made, each followed by its sleep, and what is raised is the last
    exception a request raised, or the [RuntimeError] if none did (also
    when [max_retries] is not positive and no request is made).  Or the
    sleep after a failed attempt was refused, its length being negative or
    too long: then what [time.sleep] raised is raised and the attempts left
    are not made. *)
Theorem http_get_raises_after_failed_attempts url timeout max_retries range tr e tr' :
  http_get url timeout max_retries range tr = (Raised e, tr') →
  let n := Z.to_nat max_retries in
  let out i := requests_get (requests_made tr + i) url timeout in
  (Forall (fun o => succeeded o = false) (out <$> seq 0 n)
   ∧ e = default (RuntimeError (lit "Failed to GET " ++ url))
           (last (omap raised (out <$> seq 0 n)))
   ∧ tr' = tr ++ failed_attempts url timeout range 1 n)
  ∨ (∃ k, k < n
       ∧ Forall (fun o => succeeded o = false) (out <$> seq 0 (S k))
       ∧ retry_refusal range (requests_made tr + S k) (S k) = Some e
       ∧ tr' = tr ++ failed_attempts url timeout range 1 k ++ [Get url timeout; Log WARNING]).
Proof.
  unfold http_get. intros H. apply http_get_loop_cases in H. cbn zeta in H.
  destruct H as [(k & resp' & _ & [=] & _)
                |[(k & exc & Hk & [= ->] & Hout & _ & Hfail & ->)|(Hbefore & [= ->] & ->)]].
  - right. exists k. split; [done|]. split; [|done].
    apply Forall_fmap, Forall_forall. intros i [_ Hi]%elem_of_seq. cbn. apply Hout. lia.
  - left. split; [|split; [|done]].
    + apply Forall_fmap, Forall_forall. intros i [_ Hi]%elem_of_seq. cbn. apply Hbefore. lia.
    + by destruct (last _).
Qed.

(** ** The crawl *)

Lemma pace_app p tr1 tr2 : pace p (tr1 ++ tr2) = pace p tr1 ≫= (fun p' => pace p' tr2).
Proof.
  revert p. induction tr1 as [|[u t|r f|l] tr1 IH]; intros p; cbn; [done| |done|done].
  destruct p; [done|]. apply IH.
Qed.

Lemma pace_failed_attempts url timeout range a k :
  pace false (failed_attempts url timeout range a k) = Some false.
Proof.
  revert a. induction k as [|k IH]; intros a; [done|].
  rewrite failed_attempts_S. cbn. apply IH.
Qed.

Lemma failed_attempts_gets url timeout range a k :
  Forall (fun ev => is_get ev = true → ev = Get url timeout)
    (failed_attempts url timeout range a k).
Proof.
  revert a. induction k as [|k IH]; intros a; [constructor|].
  rewrite failed_attempts_S. apply Forall_app. split; [|apply IH].
  repeat constructor; done.
Qed.

(** What a call of [http_get] does to the outside: at most [max_retries]
    requests, all for [url], with a sleep after each but the last; a
    request is left without its sleep only when [http_get] returns or the
    sleep is refused. *)
Lemma http_get_events url timeout max_retries range tr o tr' :
  http_get url timeout max_retries range tr = (o, tr') →
  ∃ new, tr' = tr ++ new
    ∧ requests_made new ≤ Z.to_nat max_retries
    ∧ Forall (fun ev => is_get ev = true → ev = Get url timeout) new
    ∧ (∃ pending, pace false new = Some pending
         ∧ (pending = true →
            (∃ resp, o = Returned resp)
            ∨ ∃ attempt, 1 ≤ attempt ≤ Z.to_nat max_retries
                ∧ is_Some (retry_refusal range (requests_made tr') attempt)))
    ∧ match o with
      | Returned resp =>
          status_code resp = 200%Z
          ∧ ∃ k, requests_made tr' = S k ∧ requests_get k url timeout = Returned resp
      | Raised _ => True
      end.
Proof.
  unfold http_get. intros H. apply http_get_loop_cases in H. cbn zeta in H.
  destruct H as [(k & resp & Hk & -> & Hout & H200 & Hbefore & ->)
                |[(k & exc & Hk & -> & Hout & Hbefore & Hfail & ->)|(Hbefore & -> & ->)]].
  - eexists. split; [done|]. split; [|split; [|split]].
    + rewrite requests_made_app, requests_made_failed_attempts.
      change (requests_made [Get url timeout]) with 1. lia.
    + apply Forall_app. split; [apply failed_attempts_gets|by repeat constructor].
    + exists true. rewrite pace_app, pace_failed_attempts. split; [done|]. intros _. left. by eexists.
    + split; [done|]. exists (requests_made tr + k). split; [|done].
      rewrite !requests_made_app, requests_made_failed_attempts.
      change (requests_made [Get url timeout]) with 1. lia.
  - eexists. split; [done|]. split; [|split; [|split; [|done]]].
    + rewrite requests_made_app, requests_made_failed_attempts.
      change (requests_made [Get url timeout; Log WARNING]) with 1. lia.
    + apply Forall_app. split; [apply failed_attempts_gets|by repeat constructor].
    + exists true. rewrite pace_app, pace_failed_attempts. split; [done|]. intros _. right.
      exists (1 + k). split; [lia|].
      rewrite !requests_made_app, requests_made_failed_attempts.
      change (requests_made [Get url timeout; Log WARNING]) with 1.
      rewrite Nat.add_assoc, Nat.add_1_r, <- Nat.add_succ_r. by rewrite Hfail.
  - eexists. split; [done|]. split; [|split; [|split; [|done]]].
    + by rewrite requests_made_failed_attempts.
    + apply failed_attempts_gets.
    + exists false. by rewrite pace_failed_attempts.
Qed.

Lemma http_get_requests url timeout max_retries range tr o tr' :
  http_get url timeout max_retries range tr = (o, tr') →
  ∃ new, tr' = tr ++ new
    ∧ requests_made new ≤ Z.to_nat max_retries
    ∧ Forall (fun ev => is_get ev = true → ev = Get url timeout) new.
Proof. intros (new & ? & ? & ? & _)%http_get_events. by exists new. Qed.

Lemma parse_page_spec url html item :
  parse_page url html = Ok item →
  Scraper.url item = url ∧ content_type item = detect_content_type url.
Proof.
  unfold parse_page.
  destruct (str_eqb (detect_content_type url) (lit "qna")) eqn:Hq.
  { apply bool_decide_eq_true in Hq. rewrite Hq. unfold parse_qna_page. intros H.
    inv_bind H as [[[qt qu] answers] k] E. by injection H as <-. }
  destruct (str_eqb (detect_content_type url) (lit "blog")) eqn:Hb.
  { apply bool_decide_eq_true in Hb. rewrite Hb. unfold parse_blog_page. intros H.
    inv_bind H as answers E. by injection H as <-. }
  intros [= <-]. split; [done|]. cbn.
  unfold detect_content_type in *.
  destruct (_ || _); [done|]. destruct (_ || _); done.
Qed.

(** The second loop of the crawl: what it does to the outside, and how it
    ends. *)
Lemma pages_loop_spec es timeout range max_retries : ∀ rs tr o tr',
  pages_loop es timeout range max_retries rs tr = (o, tr') →
  (∃ new, tr' = tr ++ new
     ∧ requests_made new ≤ Z.to_nat max_retries * length es
     ∧ Forall (fun ev => is_get ev = true → ∃ e, e ∈ es ∧ ev = Get (loc e) timeout) new
     ∧ (sleeps_accepted range max_retries → is_Some (pace false new)))
  ∧ match o with
    | Returned results =>
        ∃ kept items, sublist kept es ∧ results = rs ++ items ∧ Forall2 fetched_from items kept
    | Raised f =>
        ∃ e k resp, e ∈ es
          ∧ requests_get k (loc e) timeout = Returned resp
          ∧ status_code resp = 200%Z
          ∧ ((∃ exc, parse_page (loc e) (content resp) = Raise exc ∧ f = Uncaught exc)
             ∨ ((∃ item, parse_page (loc e) (content resp) = Ok item)
                ∧ pause_refusal range (S k) = Some f))
    end.
Proof.
  induction es as [|e es IH]; intros rs tr o tr'; cbn [pages_loop].
  - intros [= <- <-]. split.
    + exists []. rewrite app_nil_r. split; [done|]. split; [cbn; lia|].
      split; [constructor|]. intros _. by eexists.
    + exists [], []. by rewrite app_nil_r.
  - assert (Hgets : ∀ new1,
              Forall (fun ev => is_get ev = true → ev = Get (loc e) timeout) new1 →
              Forall (fun ev => is_get ev = true → ∃ e', e' ∈ e :: es ∧ ev = Get (loc e') timeout)
                     ([Log INFO] ++ new1)).
    { intros new1 H1. constructor; [done|]. eapply Forall_impl; [exact H1|].
      intros ev Hev Hg. exists e. split; [by left|by apply Hev]. }
    assert (Hrest : ∀ new2,
              Forall (fun ev => is_get ev = true → ∃ e', e' ∈ es ∧ ev = Get (loc e') timeout) new2 →
              Forall (fun ev => is_get ev = true → ∃ e', e' ∈ e :: es ∧ ev = Get (loc e') timeout) new2).
    { intros new2 H2. eapply Forall_impl; [exact H2|].
      intros ev Hev Hg. destruct (Hev Hg) as (e' & ? & ?). exists e'. split; [by right|done]. }
    destruct (http_get _ _ _ _ _) as [[resp|exc] tr1] eqn:Hg;
      apply http_get_events in Hg as (new1 & -> & Hn1 & Hg1 & (pending & Hp1 & Hpend) & Hs1).
    + destruct Hs1 as (H200 & k & Hk & Hresp).
      destruct (parse_page _ _) as [item|exc] eqn:Hp.
      * unfold time_sleep, random_uniform. rewrite Hk. fold (pause_refusal range (S k)).
        destruct (pause_refusal range (S k)) as [exc|] eqn:Hf.
        -- intros [= <- <-]. split.
           ++ exists ([Log INFO] ++ new1). rewrite <- !app_assoc. split; [done|]. split.
              { rewrite requests_made_app. change (requests_made [Log INFO]) with 0.
                cbn [length]. lia. }
              split; [by apply Hgets|]. intros _. cbn [app pace]. rewrite Hp1. by eexists.
           ++ exists e, k, resp. split; [by left|]. split; [done|]. split; [done|].
              right. split; [by eexists|done].
        -- intros H. apply IH in H as [(new2 & -> & Hn2 & Hg2 & Hp2) Ho].
           split.
           ++ exists (([Log INFO] ++ new1) ++ [Sleep range 1] ++ new2).
              rewrite <- !app_assoc. split; [done|]. split.
              { rewrite !requests_made_app.
                change (requests_made [Log INFO]) with 0.
                change (requests_made [Sleep range 1]) with 0. cbn [length]. lia. }
              split.
              { rewrite !app_assoc, <- (app_assoc _ [Sleep range 1]).
                apply Forall_app. split; [by apply Hgets|].
                apply Forall_app. split; [by repeat constructor|by apply Hrest]. }
              intros Hno. cbn [app pace]. rewrite pace_app, Hp1. cbn. by apply Hp2.
           ++ destruct o as [results|f].
              ** destruct Ho as (kept & items & Hsub & -> & Hall).
                 exists (e :: kept), (set_lastmod item (lastmod e) :: items).
                 split; [by constructor|]. split; [by rewrite <- app_assoc|].
                 constructor; [|done].
                 apply parse_page_spec in Hp as [Hu Hc]. by repeat split.
              ** destruct Ho as (e' & k' & resp' & He & Hrest').
                 exists e', k', resp'. split; [by right|done].
      * intros [= <- <-]. split.
        -- exists ([Log INFO] ++ new1). rewrite <- !app_assoc. split; [done|]. split.
           { rewrite requests_made_app. change (requests_made [Log INFO]) with 0.
             cbn [length]. lia. }
           split; [by apply Hgets|]. intros _. cbn [app pace]. rewrite Hp1. by eexists.
        -- exists e, k, resp. split; [by left|]. split; [done|]. split; [done|].
           left. by eexists.
    + intros H. apply IH in H as [(new2 & -> & Hn2 & Hg2 & Hp2) Ho].
      split.
      * exists (([Log INFO] ++ new1) ++ [Log WARNING] ++ new2).
        rewrite <- !app_assoc. split; [done|]. split.
        { rewrite !requests_made_app.
          change (requests_made [Log INFO]) with 0.
          change (requests_made [Log WARNING]) with 0. cbn [length]. lia. }
        split.
        { rewrite !app_assoc, <- (app_assoc _ [Log WARNING]).
          apply Forall_app. split; [by apply Hgets|].
          apply Forall_app. split; [by repeat constructor|by apply Hrest]. }
        intros Hno. cbn [app pace]. rewrite pace_app, Hp1.
        assert (pending = false) as ->.
        { destruct pending; [|done]. destruct Hpend as [[? [=]]|(a & Ha & Hf)]; [done|].
          rewrite (proj1 Hno) in Hf by done. by destruct Hf. }
        cbn. by apply Hp2.
      * destruct o as [results|f].
        -- destruct Ho as (kept & items & Hsub & -> & Hall).
           exists kept, items. split; [by constructor|done].
        -- destruct Ho as (e' & k' & resp' & He & Hrest').
           exists e', k', resp'. split; [by right|done].
Qed.

Lemma parse_sitemap_events url tr o tr' :
  parse_sitemap url tr = (o, tr') →
  ∃ new, tr' = tr ++ new ∧ requests_made new ≤ 3
    ∧ Forall (fun ev => is_get ev = true → ev = Get url 30) new.
Proof.
  unfold parse_sitemap.
  destruct (http_get _ _ _ _ _) as [[resp|exc] tr1] eqn:Hg;
    apply http_get_requests in Hg as (new1 & -> & Hn1 & Hg1).
  - destruct (if _ : bool then _ else _); intros [= _ <-]; by exists new1.
  - intros [= _ <-]. by exists new1.
Qed.

Lemma sitemaps_loop_events urls : ∀ entries tr entries' tr',
  sitemaps_loop urls entries tr = (entries', tr') →
  ∃ new, tr' = tr ++ new ∧ requests_made new ≤ 3 * length urls
    ∧ Forall (fun ev => is_get ev = true → ∃ sm, sm ∈ urls ∧ ev = Get sm 30) new.
Proof.
  induction urls as [|sm urls IH]; intros entries tr entries' tr'; cbn [sitemaps_loop].
  - intros [= _ <-]. exists []. by rewrite app_nil_r.
  - assert (Hhere : ∀ new1, Forall (fun ev => is_get ev = true → ev = Get sm 30) new1 →
              Forall (fun ev => is_get ev = true → ∃ sm', sm' ∈ sm :: urls ∧ ev = Get sm' 30) new1).
    { intros new1 H1. eapply Forall_impl; [exact H1|].
      intros ev Hev Hg. exists sm. split; [by left|by apply Hev]. }
    assert (Hrest : ∀ new2, Forall (fun ev => is_get ev = true → ∃ sm', sm' ∈ urls ∧ ev = Get sm' 30) new2 →
              Forall (fun ev => is_get ev = true → ∃ sm', sm' ∈ sm :: urls ∧ ev = Get sm' 30) new2).
    { intros new2 H2. eapply Forall_impl; [exact H2|].
      intros ev Hev Hg. destruct (Hev Hg) as (sm' & ? & ?). exists sm'. split; [by right|done]. }
    destruct (parse_sitemap sm tr) as [[es|exc] tr1] eqn:Hp;
      apply parse_sitemap_events in Hp as (new1 & -> & Hn1 & Hg1);
      intros H; apply IH in H as (new2 & -> & Hn2 & Hg2).
    + exists (new1 ++ new2). rewrite <- app_assoc. split; [done|]. split.
      * rewrite requests_made_app. cbn [length]. lia.
      * apply Forall_app. split; [by apply Hhere|by apply Hrest].
    + exists (new1 ++ [Log ERROR] ++ new2). rewrite <- !app_assoc. split; [done|]. split.
      * rewrite !requests_made_app. change (requests_made [Log ERROR]) with 0.
        cbn [length]. lia.
      * apply Forall_app. split; [by apply Hhere|].
        apply Forall_app. split; [by repeat constructor|by apply Hrest].
Qed.

(** *** Sorting *)

Lemma insert_desc_Permutation {A} (key : A → Z) x l : insert_desc key x l ≡ₚ x :: l.
Proof.
  induction l as [|y l IH]; cbn; [done|].
  destruct (key x <? key y)%Z; [|done].
  rewrite IH. apply Permutation_swap.
Qed.

Lemma sort_desc_Permutation {A} (key : A → Z) l : sort_desc key l ≡ₚ l.
Proof.
  induction l as [|x l IH]; cbn; [done|].
  rewrite insert_desc_Permutation. by constructor.
Qed.

Lemma insert_desc_descending {A} (key : A → Z) x l :
  descending key l → descending key (insert_desc key x l).
Proof.
  induction l as [|y l IH]; cbn; [done|].
  intros [Hy Hl]. destruct (key x <? key y)%Z eqn:E.
  - cbn. split; [|by apply IH].
    rewrite insert_desc_Permutation. constructor; [lia|done].
  - cbn. split; [|done]. constructor; [lia|].
    eapply Forall_impl; [exact Hy|]. cbn. intros z Hz. lia.
Qed.

Lemma sort_desc_descending {A} (key : A → Z) l : descending key (sort_desc key l).
Proof. induction l as [|x l IH]; cbn; [done|]. by apply insert_desc_descending. Qed.

(** Elements of equal key keep their order. *)
Lemma insert_desc_filter {A} (key : A → Z) x l k :
  descending key l →
  filter (fun y => key y = k) (insert_desc key x l) = filter (fun y => key y = k) (x :: l).
Proof.
  induction l as [|y l IH]; cbn [insert_desc]; [done|].
  intros [Hy Hl]. destruct (key x <? key y)%Z eqn:E; [|done].
  rewrite filter_cons, IH by done. rewrite !filter_cons.
  destruct (decide (key y = k)), (decide (key x = k)); try done. lia.
Qed.

Lemma sort_desc_stable {A} (key : A → Z) l k :
  filter (fun y => key y = k) (sort_desc key l) = filter (fun y => key y = k) l.
Proof.
  induction l as [|x l IH]; [done|]. cbn [sort_desc foldr].
  rewrite insert_desc_filter by apply sort_desc_descending.
  rewrite !filter_cons. fold (sort_desc key l). by rewrite IH.
Qed.

Lemma descending_sublist {A} (key : A → Z) l1 l2 :
  sublist l1 l2 → descending key l2 → descending key l1.
Proof.
  induction 1 as [|x l1 l2 Hs IH|x l1 l2 Hs IH]; cbn; [done| |].
  - intros [Hx Hl]. split; [|by apply IH].
    apply Forall_forall. intros y Hy. rewrite Forall_forall in Hx. apply Hx.
    by eapply elem_of_sublist.
  - intros [_ Hl]. by apply IH.
Qed.

Lemma slice_to_sublist {A} limit (l : list A) : sublist (slice_to limit l) l.
Proof. unfold slice_to. destruct (0 <=? limit)%Z; apply sublist_take. Qed.

Lemma slice_to_length {A} limit (l : list A) :
  (0 ≤ limit)%Z → length (slice_to limit l) ≤ Z.to_nat limit.
Proof.
  intros H. unfold slice_to. rewrite (proj2 (Z.leb_le _ _) H), length_take. lia.
Qed.

Lemma descending_fmap {A B} (f : A → B) (key : B → Z) l :
  descending key (f <$> l) ↔ descending (key ∘ f) l.
Proof.
  induction l as [|x l IH]; cbn; [done|].
  rewrite IH, Forall_fmap. done.
Qed.

Lemma fetched_from_key item e : fetched_from item e → item_key item = sort_key e.
Proof. intros (Hu & Hl & _). unfold item_key, sort_key. cbn. by rewrite Hl. Qed.

Lemma descending_Forall2 items kept :
  Forall2 fetched_from items kept → descending sort_key kept → descending item_key items.
Proof.
  induction 1 as [|item e items kept H1 H IH]; cbn; [done|].
  intros [He Hk]. split; [|by apply IH].
  rewrite (fetched_from_key _ _ H1).
  clear IH Hk. induction H as [|i2 e2 items kept H2 H IH]; [done|].
  apply Forall_cons in He as [He1 He]. constructor; [|by apply IH].
  by rewrite (fetched_from_key _ _ H2).
Qed.

Lemma scrape_from_sitemaps_unfold sitemap_urls limit timeout range max_retries tr :
  let entries := (sitemaps_loop sitemap_urls [] tr).1 in
  let tr1 := (sitemaps_loop sitemap_urls [] tr).2 in
  scrape_from_sitemaps sitemap_urls limit timeout range max_retries tr
  = match entries with
    | [] => (Returned [], tr1 ++ [Log WARNING])
    | _ => pages_loop (slice_to limit (sort_desc sort_key entries)) timeout range max_retries [] tr1
    end.
Proof. unfold scrape_from_sitemaps. by destruct (sitemaps_loop _ _ _) as [[|e es] tr1]. Qed.


(** X16.  The items [scrape_from_sitemaps] returns come, in order, from
    entries kept out of the first [limit] of the sorted sitemap entries:
    each item has the address and the [lastmod] of its entry and the
    content type of that address; for a [limit] that is not negative there
    are at most [limit] items. *)
Theorem scraped_items_come_from_the_sitemaps
    sitemap_urls limit timeout range max_retries tr results tr' :
  scrape_from_sitemaps sitemap_urls limit timeout range max_retries tr = (Returned results, tr') →
  ∃ kept,
    sublist kept (slice_to limit (sort_desc sort_key (sitemaps_loop sitemap_urls [] tr).1))
    ∧ Forall2 fetched_from results kept
    ∧ ((0 ≤ limit)%Z → length results ≤ Z.to_nat limit).
Proof.
  rewrite scrape_from_sitemaps_unfold. cbn zeta.
  destruct ((sitemaps_loop sitemap_urls [] tr).1) as [|e0 es] eqn:He.
  - intros [= <- _]. exists []. split; [apply sublist_nil_l|]. split; [constructor|]. cbn. lia.
  - intros H. apply pages_loop_spec in H as [_ (kept & items & Hsub & -> & Hall)].
    exists kept. split; [done|]. split; [done|]. intros Hl.
    cbn [app]. rewrite (Forall2_length _ _ _ Hall).
    etrans; [by apply sublist_length|]. by apply slice_to_length.
Qed.

(** X17.  The items [scrape_from_sitemaps] returns are in the order of
    their sitemap dates, newest first. *)
Theorem scraped_items_are_newest_first
    sitemap_urls limit timeout range max_retries tr results tr' :
  scrape_from_sitemaps sitemap_urls limit timeout range max_retries tr = (Returned results, tr') →
  descending item_key results.
Proof.
  rewrite scrape_from_sitemaps_unfold. cbn zeta.
  destruct ((sitemaps_loop sitemap_urls [] tr).1) as [|e0 es] eqn:He.
  - by intros [= <- _].
  - intros H. apply pages_loop_spec in H as [_ (kept & items & Hsub & -> & Hall)].
    eapply descending_Forall2; [exact Hall|].
    eapply descending_sublist; [exact Hsub|].
    eapply descending_sublist; [apply slice_to_sublist|].
    apply sort_desc_descending.
Qed.

(** X18.  For a [limit] that is not negative, a run of
    [scrape_from_sitemaps] makes at most three requests per sitemap and
    [max_retries] requests per page, for at most [limit] pages, whether it
    returns or raises. *)
Theorem scrape_request_budget sitemap_urls limit timeout range max_retries tr o tr' :
  (0 ≤ limit)%Z →
  scrape_from_sitemaps sitemap_urls limit timeout range max_retries tr = (o, tr') →
  ∃ new, tr' = tr ++ new
    ∧ requests_made new ≤ 3 * length sitemap_urls + Z.to_nat max_retries * Z.to_nat limit.
Proof.
  intros Hl. rewrite scrape_from_sitemaps_unfold. cbn zeta.
  destruct (sitemaps_loop sitemap_urls [] tr) as [entries tr1] eqn:Hs.
  apply sitemaps_loop_events in Hs as (new1 & -> & Hn1 & _). cbn [fst snd].
  destruct entries as [|e0 es].
  - intros [= <- <-]. exists (new1 ++ [Log WARNING]). rewrite <- app_assoc. split; [done|].
    rewrite requests_made_app. change (requests_made [Log WARNING]) with 0. lia.
  - intros H. apply pages_loop_spec in H as [(new2 & -> & Hn2 & _) _].
    exists (new1 ++ new2). rewrite <- app_assoc. split; [done|].
    rewrite requests_made_app.
    pose proof (slice_to_length limit (sort_desc sort_key (e0 :: es)) Hl). nia.
Qed.

(** X19.  As long as [time.sleep] refuses none of the sleeps the crawl
    asks for (it refuses a length that is negative or too long): after the
    sitemaps are read, [scrape_from_sitemaps] never makes two requests
    without a sleep between them.  (When the sleep after a failed attempt
    is refused, the page is given up and the next request follows at
    once.) *)
Theorem page_requests_are_paced sitemap_urls limit timeout range max_retries tr o tr' :
  sleeps_accepted range max_retries →
  scrape_from_sitemaps sitemap_urls limit timeout range max_retries tr = (o, tr') →
  ∃ new, tr' = (sitemaps_loop sitemap_urls [] tr).2 ++ new ∧ is_Some (pace false new).
Proof.
  intros Hacc. rewrite scrape_from_sitemaps_unfold. cbn zeta.
  destruct ((sitemaps_loop sitemap_urls [] tr).1) as [|e0 es] eqn:He.
  - intros [= <- <-]. exists [Log WARNING]. split; [done|]. by eexists.
  - intros H. apply pages_loop_spec in H as [(new2 & -> & _ & _ & Hp) _].
    exists new2. split; [done|]. by apply Hp.
Qed.

End CrawlerProperties.

Section Sound.
Import Crawler Shapes.
Context {U : Unicode}.

Lemma sound_char ic r test : char_test ic r = Some test → sound_at ic r.
Proof.
  intros Hr prev s g k x. rewrite (go_char _ _ _ _ _ _ _ Hr).
  destruct s as [|a s]; [done|]. destruct (test a) eqn:E; [|done].
  intros H. exists [a], s, (Some a), g. split; [done|]. split; [|done].
  by eapply lang_char.
Qed.

Lemma star_sound ic r (k : option char → str → option str → option matched) :
  sound_at ic r →
  ∀ n prev s g x,
    (fix star (n : nat) (prev : option char) (s : str) (g : option str) : option matched :=
       match n with
       | O => k prev s g
       | S n' =>
           match go ic r prev s g
                   (fun p s' g' => if decide (length s' < length s)
                                   then star n' p s' g' else None) with
           | Some x => Some x
           | None => k prev s g
           end
       end) n prev s g = Some x →
    ∃ w s' p g', s = w ++ s' ∧ lang ic (Star r) w ∧ k p s' g' = Some x.
Proof.
  intros IH. induction n as [|n IHn]; intros prev s g x.
  - intros H. exists [], s, prev, g. split; [done|]. split; [constructor|done].
  - destruct (go ic r prev s g _) as [y|] eqn:E.
    + intros [= <-]. apply IH in E as (w1 & s1 & p1 & g1 & -> & Hw1 & E1).
      destruct (decide _); [|done].
      apply IHn in E1 as (w2 & s2 & p2 & g2 & -> & Hw2 & E2).
      exists (w1 ++ w2), s2, p2, g2. split; [by rewrite app_assoc|].
      split; [by constructor|done].
    + intros H. exists [], s, prev, g. split; [done|]. split; [constructor|done].
Qed.

Lemma go_sound ic r : sound_at ic r.
Proof.
  induction r as [|c|cs|lo hi| | |r1 IH1 r2 IH2|r1 IH1 r2 IH2|r IH|r IH| | |];
    try (by eapply sound_char); intros prev s g k x.
  - cbn [go]. intros H. exists [], s, prev, g. split; [done|]. split; [constructor|done].
  - rewrite go_Seq. intros (w1 & s1 & p1 & g1 & -> & Hw1 & H)%IH1.
    apply IH2 in H as (w2 & s2 & p2 & g2 & -> & Hw2 & H).
    exists (w1 ++ w2), s2, p2, g2. split; [by rewrite app_assoc|]. split; [by constructor|done].
  - cbn [go]. destruct (go ic r1 prev s g k) as [y|] eqn:E.
    + intros [= <-]. apply IH1 in E as (w & s' & p & g' & -> & Hw & E').
      exists w, s', p, g'. split; [done|]. split; [by apply lang_Alt_l|done].
    + intros (w & s' & p & g' & -> & Hw & E2)%IH2.
      exists w, s', p, g'. split; [done|]. split; [by apply lang_Alt_r|done].
  - apply (star_sound ic r k IH (S (length s))).
  - cbn [go]. intros (w & s' & p & g' & -> & Hw & E)%IH.
    exists w, s', p, (Some (take (length (w ++ s') - length s') (w ++ s'))).
    split; [done|]. split; [by constructor|done].
  - cbn [go]. destruct (xorb _ _); [|done]. intros H.
    exists [], s, prev, g. split; [done|]. split; [constructor|done].
  - cbn [go]. destruct prev; [done|]. intros H.
    exists [], s, None, g. split; [done|]. split; [constructor|done].
  - cbn [go]. intros H. exists [], s, prev, g. split; [done|]. split; [constructor|].
    destruct s as [|c [|??]]; [done| |done]. by destruct (c =? 10)%N.
Qed.

Lemma match_here_lang ic r prev s rest g :
  match_here ic r prev s = Some (rest, g) →
  lang ic r (take (length s - length rest) s).
Proof.
  unfold match_here. intros (w & s' & p & g' & -> & Hw & [= <- <-])%go_sound.
  by rewrite length_app, Nat.add_sub, take_app_length.
Qed.

Lemma search_group0_lang ic r s m : search_group0 ic r s = Some m → lang ic r m.
Proof.
  unfold search_group0. generalize (@None char). revert m.
  induction s as [|a s IH]; intros m prev; cbn [search_group0_from].
  - destruct (match_here ic r prev []) as [[rest g]|] eqn:E; [|done].
    intros [= <-]. exact (match_here_lang _ _ _ _ _ _ E).
  - destruct (match_here ic r prev (a :: s)) as [[rest g]|] eqn:E; [|apply IH].
    intros [= <-]. exact (match_here_lang _ _ _ _ _ _ E).
Qed.

End Sound.

Section Dates.
Import Crawler Shapes.
Context {U : Unicode} {L : Libraries}.

Lemma decimal_aux_digits fuel : ∀ n acc,
  Forall ascii_digit acc → Forall ascii_digit (decimal_aux fuel n acc).
Proof.
  induction fuel as [|fuel IH]; intros n acc Hacc; [done|]. cbn [decimal_aux].
  assert (Hd : Forall ascii_digit ((48 + n mod 10)%N :: acc)).
  { constructor; [|done]. unfold ascii_digit.
    assert (n mod 10 < 10)%N by (apply N.mod_lt; lia).
    revert H. generalize (n mod 10)%N. intros m Hm. lia. }
  destruct (n / 10 =? 0)%N; [done|]. by apply IH.
Qed.

Lemma decimal_aux_length fuel : ∀ n acc k,
  (n < 10 ^ N.of_nat k)%N → 1 ≤ k →
  length (decimal_aux fuel n acc) ≤ length acc + k.
Proof.
  induction fuel as [|fuel IH]; intros n acc k Hn Hk; [cbn; lia|]. cbn [decimal_aux].
  destruct (n / 10 =? 0)%N eqn:E; [cbn; lia|].
  apply N.eqb_neq in E.
  destruct k as [|[|k]]; [lia| |].
  - exfalso. apply E. apply N.div_small. cbn in Hn. lia.
  - etrans; [apply (IH _ _ (S k))|cbn; lia]; [|lia].
    apply N.Div0.div_lt_upper_bound.
    replace (N.of_nat (S (S k))) with (N.succ (N.of_nat (S k))) in Hn by lia.
    by rewrite N.pow_succ_r' in Hn.
Qed.

Lemma zfill_decimal k n :
  (n < 10 ^ N.of_nat k)%N → 1 ≤ k →
  length (zfill k (decimal n)) = k ∧ Forall ascii_digit (zfill k (decimal n)).
Proof.
  intros Hn Hk. unfold zfill, decimal.
  pose proof (decimal_aux_length (S (N.to_nat (N.log2 n))) n [] k Hn Hk) as Hl.
  cbn [length] in Hl. split.
  - rewrite length_app, length_replicate. lia.
  - apply Forall_app. split.
    + apply Forall_replicate. unfold ascii_digit. lia.
    + by apply decimal_aux_digits.
Qed.

Section Laws.
Import Crawler Shapes.
Hypothesis ascii_digits_are_decimal : ∀ c, (48 ≤ c ≤ 57)%N → isdecimal c = true.

Lemma lang_Rep_Digit w :
  Forall ascii_digit w → lang false (Rep (length w) Digit) w.
Proof using ascii_digits_are_decimal.
  induction 1 as [|c w Hc Hw IH]; [constructor|].
  change (c :: w) with ([c] ++ w). unfold Rep, Seqs. cbn [length replicate foldr].
  constructor; [|exact IH]. eapply (lang_char false Digit); [done|].
  by apply ascii_digits_are_decimal.
Qed.

Lemma lang_Chr (c : char) : lang false (Chr c) [c].
Proof. eapply (lang_char false (Chr c)); [done|]. cbn. apply N.eqb_refl. Qed.

Lemma isoformat_lang dt : valid_datetime dt → lang false ISO_PATTERN (isoformat dt).
Proof using ascii_digits_are_decimal.
  intros (Hy & Hmo & Hd & Hh & Hmi & Hs).
  destruct (zfill_decimal 4 (dt_year dt)) as [Ly Dy]; [done|lia|].
  destruct (zfill_decimal 2 (dt_month dt)) as [Lmo Dmo]; [done|lia|].
  destruct (zfill_decimal 2 (dt_day dt)) as [Ld Dd]; [done|lia|].
  destruct (zfill_decimal 2 (dt_hour dt)) as [Lh Dh]; [done|lia|].
  destruct (zfill_decimal 2 (dt_minute dt)) as [Lmi Dmi]; [done|lia|].
  destruct (zfill_decimal 2 (dt_second dt)) as [Ls Ds]; [done|lia|].
  apply lang_Rep_Digit in Dy, Dmo, Dd, Dh, Dmi, Ds.
  rewrite Ly in Dy. rewrite Lmo in Dmo. rewrite Ld in Dd. rewrite Lh in Dh.
  rewrite Lmi in Dmi. rewrite Ls in Ds.
  unfold isoformat, ISO_PATTERN, Seqs. cbn [foldr].
  repeat (apply lang_Seq; [first [assumption | apply lang_Chr]|]).
  rewrite <- (app_nil_r (zfill 2 _)).
  apply lang_Seq; [assumption|].
  change (@nil N) with (@nil N ++ ([] ++ [])).
  apply lang_Seq; [apply lang_Alt_r; constructor|].
  apply lang_Seq; [apply lang_Alt_r; constructor|constructor].
Qed.

Hypothesis strptime_valid : ∀ s fmt dt, strptime s fmt = Ok dt → valid_datetime dt.

Lemma parse_dt_string_lang s v : parse_dt_string s = Some v → lang false ISO_PATTERN v.
Proof using ascii_digits_are_decimal strptime_valid.
  unfold parse_dt_string. destruct (truthy s); [|done].
  destruct (normalize_whitespace s) as [s'|]; [|done].
  induction DATE_FORMATS as [|fmt fmts IH]; cbn [try_formats]; [done|].
  destruct (strptime s' fmt) as [dt|e] eqn:E; [|exact IH].
  intros [= <-]. apply isoformat_lang. apply strptime_valid in E.
  destruct (str_eqb fmt _); [|done].
  destruct E as (? & ? & ? & ? & ? & ?). by repeat split.
Qed.

Lemma iso_or_parsed_lang val v : iso_or_parsed val = Some v → lang false ISO_PATTERN v.
Proof using ascii_digits_are_decimal strptime_valid.
  unfold iso_or_parsed.
  destruct (if truthy val then _ else None) as [iso|] eqn:E.
  - intros [= <-]. destruct (truthy val); [|done]. by apply search_group0_lang in E.
  - destruct (truthy (parse_dt_string val)); [|done]. apply parse_dt_string_lang.
Qed.

Lemma parsed_lang val v :
  (if truthy (parse_dt_string val) then parse_dt_string val else None) = Some v →
  lang false ISO_PATTERN v.
Proof using ascii_digits_are_decimal strptime_valid.
  destruct (truthy (parse_dt_string val)); [|done]. apply parse_dt_string_lang.
Qed.

Lemma parse_datetime_candidate_lang container ancs v :
  parse_datetime_candidate container ancs = Some v → lang false ISO_PATTERN v.
Proof using ascii_digits_are_decimal strptime_valid.
  unfold parse_datetime_candidate. intros H%first_some_elem.
  repeat (apply elem_of_cons in H as [H|H]); try symmetry in H.
  - destruct (find _ container) as [t|]; [|done].
    destruct (truthy _); [|done]. by apply iso_or_parsed_lang in H.
  - destruct (select_one _ _ _) as [friendly|]; [|done]. by apply parsed_lang in H.
  - destruct (select_one _ _ _) as [dt_wrap|]; [|done].
    destruct (find _ dt_wrap) as [ld|]; [|done].
    destruct (find _ dt_wrap) as [lt_|]; [|done]. by apply parsed_lang in H.
  - apply first_some_elem, list_elem_of_bind in H as (p & H & _).
    apply list_elem_of_bind in H as (attr & H & _).
    apply list_elem_of_singleton in H. symmetry in H.
    destruct (truthy (get p.1 attr)); [|done].
    destruct (truthy (normalize_whitespace _)); [|done]. by apply iso_or_parsed_lang in H.
  - apply first_some_elem, list_elem_of_bind in H as (el & H & _).
    apply list_elem_of_bind in H as (kv & H & _).
    apply list_elem_of_singleton in H. symmetry in H. by apply search_group0_lang in H.
  - destruct (search_group0 _ _ _) as [iso|] eqn:E.
    { injection H as <-. by apply search_group0_lang in E. }
    destruct (search_group1 _ _ _) as [m|]; [|done]. by apply parsed_lang in H.
  - by apply elem_of_nil in H.
Qed.

End Laws.

(** X22.  A date [parse_datetime_candidate] returns is a word of
    [ISO_PATTERN], whether it was found in the page or made by
    [parse_dt_string]; this needs that the characters [0] to [9] are
    decimal digits and that [strptime] returns dates with a year of at most
    four digits and two-digit fields. *)
Theorem created_at_is_a_word_of_the_iso_pattern (container : node) (ancs : list node) (v : str) :
  (∀ c, (48 ≤ c ≤ 57)%N → isdecimal c = true) →
  (∀ s fmt dt, strptime s fmt = Ok dt → valid_datetime dt) →
  parse_datetime_candidate container ancs = Some v →
  lang false ISO_PATTERN v.
Proof. intros H1 H2. by apply parse_datetime_candidate_lang. Qed.

End Dates.

Section Sitemap.
Import Crawler Shapes.
Context {U : Unicode} {W : World}.

Lemma entry_of_from url url_tag e : entry_of url url_tag = Some e → entry_from url e.
Proof.
  unfold entry_of. destruct (find _ url_tag) as [l|]; [|done].
  destruct (tag_text l) as [|c t] eqn:E; [done|]. intros [= <-].
  unfold entry_from. cbn [source_sitemap loc lastmod].
  split; [done|]. split; [apply strip_trimmed|].
  destruct (find _ url_tag) as [lm|]; [|done].
  destruct (tag_text lm); [done|]. intros ? [= <-]. apply strip_trimmed.
Qed.

(** X23.  When [parse_sitemap] returns, every entry names the sitemap it
    came from and has a [loc] and, if present, a [lastmod] without
    whitespace at either end; at most three requests were made, all for the
    address of the sitemap with the timeout 30. *)
Theorem sitemap_entries_are_trimmed (url : str) (tr : list event)
    (entries : list entry) (tr' : list event) :
  parse_sitemap url tr = (Returned entries, tr') →
  Forall (entry_from url) entries
  ∧ ∃ new, tr' = tr ++ new
      ∧ requests_made new ≤ 3
      ∧ Forall (fun ev => is_get ev = true → ev = Get url 30) new.
Proof.
  unfold parse_sitemap.
  destruct (http_get _ _ _ _ _) as [[resp|exc] tr1] eqn:Hg; [|done].
  apply http_get_requests in Hg as (new & -> & Hn & Hgets).
  destruct (if _ : bool then _ else _) as [c|exc]; [|done].
  intros [= <- <-]. split; [|by exists new].
  apply Forall_forall. intros e (url_tag & _ & He)%list_elem_of_omap.
  by eapply entry_of_from.
Qed.

Context {L : Libraries}.

(** X24.  Every request of a run of [scrape_from_sitemaps] is for one of
    the given sitemaps, with the timeout 30 whatever [timeout] is, or for
    the [loc] of an entry of one of them, with the timeout [timeout]. *)
Theorem crawl_requests_only_listed_addresses
    sitemap_urls limit timeout range max_retries tr o tr' :
  scrape_from_sitemaps sitemap_urls limit timeout range max_retries tr = (o, tr') →
  ∃ new, tr' = tr ++ new
    ∧ Forall (fun ev => is_get ev = true →
                (∃ sm, sm ∈ sitemap_urls ∧ ev = Get sm 30)
                ∨ (∃ e, e ∈ (sitemaps_loop sitemap_urls [] tr).1 ∧ ev = Get (loc e) timeout))
        new.
Proof.
  rewrite scrape_from_sitemaps_unfold. cbn zeta.
  destruct (sitemaps_loop sitemap_urls [] tr) as [entries tr1] eqn:Hs.
  apply sitemaps_loop_events in Hs as (new1 & -> & _ & H1). cbn [fst snd].
  assert (H1' : Forall (fun ev => is_get ev = true →
                  (∃ sm, sm ∈ sitemap_urls ∧ ev = Get sm 30)
                  ∨ (∃ e, e ∈ entries ∧ ev = Get (loc e) timeout)) new1).
  { eapply Forall_impl; [exact H1|]. intros ev Hev Hg. left. by apply Hev. }
  destruct entries as [|e0 es].
  - intros [= _ <-]. exists (new1 ++ [Log WARNING]). rewrite <- app_assoc. split; [done|].
    apply Forall_app. split; [done|]. by repeat constructor.
  - intros H. apply pages_loop_spec in H as [(new2 & -> & _ & H2 & _) _].
    exists (new1 ++ new2). rewrite <- app_assoc. split; [done|].
    apply Forall_app. split; [done|]. eapply Forall_impl; [exact H2|].
    intros ev Hev Hg. right. destruct (Hev Hg) as (e & He & ->). exists e. split; [|done].
    eapply elem_of_Permutation_proper; [symmetry; apply (sort_desc_Permutation sort_key)|].
    eapply elem_of_sublist; [exact He|]. apply slice_to_sublist.
Qed.

End Sitemap.


(* ===================================================================== *)
(** * The further properties on the examples *)
(* ===================================================================== *)

Section FurtherOnExamples.
Import Examples Crawler Shapes CrawlExamples.

(** The laws of Unicode and of [strptime] that some properties ask for,
    for the instances of the examples. *)
Lemma ascii_digit_value_nonneg (c : char) :
  isdecimal (Unicode := ascii_unicode) c = true → (0 ≤ digit_value (Unicode := ascii_unicode) c)%Z.
Proof.
  cbn. unfold in_range. intros [H _]%andb_true_iff. apply N.leb_le in H. lia.
Defined.

Lemma ascii_digits_decimal (c : char) :
  (48 ≤ c ≤ 57)%N → isdecimal (Unicode := ascii_unicode) c = true.
Proof.
  intros [H1 H2]. cbn. unfold in_range. apply andb_true_iff. split; apply N.leb_le; lia.
Defined.

Lemma dated_strptime_valid (s fmt : str) (dt : datetime) :
  strptime (Libraries := dated_libraries) s fmt = Ok dt → valid_datetime dt.
Proof.
  cbn. destruct (_ && _); [|discriminate]. intros [= <-]. unfold valid_datetime. cbn. lia.
Defined.

Lemma crawl_ran : @scrape_from_sitemaps ascii_unicode crawl_libraries world
                    [sitemap_url] 10 30 one_to_two 3 [] = (Returned crawl_results, crawl.2).
Proof. vm_compute. reflexivity. Defined.

(** The container of the question of [qna_page]. *)
Lemma message_identifier_shape_witness :
  get_msg_id (E 6 "div" [("id", "message-101")] []) = Some (lit "101")
  ∧ (digits (lit "101")
     ∨ get (E 6 "div" [("id", "message-101")] []) (lit "data-lia-message-uid")
       = Some (lit "101")).
Proof.
  split; [vm_compute; reflexivity|].
  apply (message_identifier_shape (E 6 "div" [("id", "message-101")] []) (lit "101")).
  vm_compute. reflexivity.
Defined.

(** The JSON-LD block of [qna_page] names reply 77. *)
Lemma json_ld_identifiers_are_numeric_witness :
  extract_json_ld_accepted_ids (L := qna_lib) qna_page = Ok {[ lit "77" ]}
  ∧ digits (lit "77").
Proof.
  split; [vm_compute; reflexivity|].
  apply (json_ld_identifiers_are_numeric (L := qna_lib) qna_page {[ lit "77" ]}).
  - vm_compute. reflexivity.
  - apply elem_of_singleton. reflexivity.
Defined.

Lemma upvotes_are_not_negative_witness :
  extract_upvotes kudos_container [] = Some 3%Z ∧ (0 ≤ 3)%Z.
Proof.
  split; [vm_compute; reflexivity|].
  apply (upvotes_are_not_negative kudos_container [] 3).
  - exact ascii_digit_value_nonneg.
  - vm_compute. reflexivity.
Defined.

Lemma qna_answers_are_well_formed_witness :
  qna_k = Z.of_nat (length qna_answers)
  ∧ NoDup (message_id <$> qna_answers)
  ∧ Forall (fun a => ∃ mid, mid ≠ [] ∧ message_id a = Some mid
                      ∧ message_url a = Some (qna_url ++ lit "#M" ++ mid)) qna_answers.
Proof.
  apply (qna_answers_are_well_formed (L := qna_lib) qna_page qna_url qna_qt qna_qu).
  exact qna_page_extracted.
Defined.

Lemma qna_fields_are_in_normal_form_witness :
  (∀ t, qna_qt = Some t → t ≠ [] ∧ markdown_clean t)
  ∧ Forall fields_in_normal_form qna_answers.
Proof.
  apply (qna_fields_are_in_normal_form (L := qna_lib) qna_page qna_url qna_qt qna_qu
           qna_answers qna_k).
  exact qna_page_extracted.
Defined.

Lemma blog_comments_are_never_accepted_witness :
  parse_blog_page (L := crawl_libraries) blog_url [Byte.x01] = Ok blog_item
  ∧ content_type blog_item = lit "blog"
  ∧ board blog_item = None
  ∧ question_upvotes blog_item = None
  ∧ reply_count blog_item = Some (Z.of_nat (length (answers blog_item)))
  ∧ Forall (blog_comment blog_url) (answers blog_item)
  ∧ NoDup (identified (answers blog_item)).
Proof.
  split; [vm_compute; reflexivity|].
  apply (blog_comments_are_never_accepted (L := crawl_libraries) blog_url [Byte.x01]).
  vm_compute. reflexivity.
Defined.

(** The sitemap answers at the third attempt. *)
Lemma http_get_returns_first_200_witness :
  sitemap_fetch.1 = Returned (ok [])
  ∧ status_code (ok []) = 200%Z
  ∧ ∃ k, (Z.of_nat k < 3)%Z
      ∧ requests_get (World := world) (requests_made [] + k) sitemap_url 30 = Returned (ok [])
      ∧ (∀ i, i < k →
           succeeded (requests_get (World := world) (requests_made [] + i) sitemap_url 30)
           = false)
      ∧ sitemap_fetch.2
        = [] ++ failed_attempts sitemap_url 30 one_to_two 1 k ++ [Get sitemap_url 30].
Proof.
  split; [vm_compute; reflexivity|].
  apply (http_get_returns_first_200 (W := world) sitemap_url 30 3 one_to_two []).
  vm_compute. reflexivity.
Defined.

(** The missing page: three requests that raise, and the last exception
    is raised again. *)
Lemma http_get_raises_after_failed_attempts_witness :
  missing_fetch.1 = Raised (RequestException 2)
  ∧ let n := Z.to_nat 3 in
    let out i := requests_get (World := world) (requests_made [] + i) missing_url 30 in
    (Forall (fun o => succeeded o = false) (out <$> seq 0 n)
     ∧ RequestException 2 = default (RuntimeError (lit "Failed to GET " ++ missing_url))
                              (last (omap raised (out <$> seq 0 n)))
     ∧ missing_fetch.2 = [] ++ failed_attempts missing_url 30 one_to_two 1 n)
    ∨ (∃ k, k < n
         ∧ Forall (fun o => succeeded o = false) (out <$> seq 0 (S k))
         ∧ retry_refusal (W := world) one_to_two (requests_made [] + S k) (S k)
           = Some (RequestException 2)
         ∧ missing_fetch.2
           = [] ++ failed_attempts missing_url 30 one_to_two 1 k
             ++ [Get missing_url 30; Log WARNING]).
Proof.
  split; [vm_compute; reflexivity|].
  apply (http_get_raises_after_failed_attempts (W := world) missing_url 30 3 one_to_two []).
  vm_compute. reflexivity.
Defined.


(** With the sleep range below zero, or too long, the missing page is
    given up after one request; in the crawl the next page is requested at
    once, and the sleep after it ends the crawl. *)
Lemma refused_sleeps_in_the_crawl :
  hasty_fetch = (Raised SleepValueError, [Get missing_url 30; Log WARNING])
  ∧ sleepy_fetch = (Raised SleepOverflowError, [Get missing_url 30; Log WARNING])
  ∧ hasty_crawl.1 = Raised SleepValueError
  ∧ ∃ new, hasty_crawl.2 = (sitemaps_loop (W := world) [sitemap_url] [] []).2 ++ new
           ∧ requests_made new = 2
           ∧ pace false new = None.
Proof.
  split; [vm_compute; reflexivity|]. split; [vm_compute; reflexivity|].
  split; [vm_compute; reflexivity|].
  exists (drop (length (sitemaps_loop (W := world) [sitemap_url] [] []).2) hasty_crawl.2).
  vm_compute. repeat split; reflexivity.
Qed.

(** The crawl of the sitemap: the lengths asked for are 1, 2 and 3
    seconds. *)
Lemma page_requests_are_paced_witness :
  sleeps_accepted (W := world) one_to_two 3
  ∧ ∃ new,
      crawl.2 = (sitemaps_loop (W := world) [sitemap_url] [] []).2 ++ new
      ∧ is_Some (pace false new).
Proof.
  assert (Hacc : sleeps_accepted (W := world) one_to_two 3).
  { split; [|reflexivity]. intros k [|[|[|[|a]]]] Ha; (reflexivity || (exfalso; simpl in Ha; lia)). }
  split; [exact Hacc|].
  apply (page_requests_are_paced (L := crawl_libraries) (W := world)
           [sitemap_url] 10 30 one_to_two 3 [] (Returned crawl_results) crawl.2).
  - exact Hacc.
  - vm_compute. reflexivity.
Defined.

Lemma scraped_items_come_from_the_sitemaps_witness :
  ∃ kept,
    sublist kept
      (slice_to 10 (sort_desc (sort_key (W := world))
         (sitemaps_loop (W := world) [sitemap_url] [] []).1))
    ∧ Forall2 (fetched_from (L := crawl_libraries)) crawl_results kept
    ∧ ((0 ≤ 10)%Z → length crawl_results ≤ Z.to_nat 10).
Proof.
  apply (scraped_items_come_from_the_sitemaps (L := crawl_libraries) (W := world)
           [sitemap_url] 10 30 one_to_two 3 [] crawl_results crawl.2).
  exact crawl_ran.
Defined.

Lemma scraped_items_are_newest_first_witness :
  descending (item_key (W := world)) crawl_results.
Proof.
  apply (scraped_items_are_newest_first (L := crawl_libraries) (W := world)
           [sitemap_url] 10 30 one_to_two 3 [] crawl_results crawl.2).
  exact crawl_ran.
Defined.

Lemma scrape_request_budget_witness :
  ∃ new, crawl.2 = [] ++ new
    ∧ requests_made new ≤ 3 * length [sitemap_url] + Z.to_nat 3 * Z.to_nat 10.
Proof.
  apply (scrape_request_budget (L := crawl_libraries) (W := world)
           [sitemap_url] 10 30 one_to_two 3 [] (Returned crawl_results) crawl.2).
  - lia.
  - exact crawl_ran.
Defined.

(** A friendly date that [strptime] reads. *)
Lemma created_at_is_a_word_of_the_iso_pattern_witness :
  parse_datetime_candidate (L := dated_libraries) dated_container []
  = Some (lit "2023-05-10T14:22:00")
  ∧ lang false ISO_PATTERN (lit "2023-05-10T14:22:00").
Proof.
  split; [vm_compute; reflexivity|].
  apply (created_at_is_a_word_of_the_iso_pattern (L := dated_libraries) dated_container []).
  - exact ascii_digits_decimal.
  - exact dated_strptime_valid.
  - vm_compute. reflexivity.
Defined.

Lemma sitemap_entries_are_trimmed_witness :
  ∃ entries tr',
    parse_sitemap (W := world) sitemap_url [] = (Returned entries, tr')
    ∧ Forall (entry_from sitemap_url) entries
    ∧ ∃ new, tr' = [] ++ new
        ∧ requests_made new ≤ 3
        ∧ Forall (fun ev => is_get ev = true → ev = Get sitemap_url 30) new.
Proof.
  eexists _, _. split; [vm_compute; reflexivity|].
  apply (sitemap_entries_are_trimmed (W := world) sitemap_url []).
  vm_compute. reflexivity.
Defined.

Lemma crawl_requests_only_listed_addresses_witness :
  ∃ new, crawl.2 = [] ++ new
    ∧ Forall (fun ev => is_get ev = true →
                (∃ sm, sm ∈ [sitemap_url] ∧ ev = Get sm 30)
                ∨ (∃ e, e ∈ (sitemaps_loop (W := world)
                               [sitemap_url] [] []).1
                        ∧ ev = Get (loc e) 30))
        new.
Proof.
  apply (crawl_requests_only_listed_addresses (L := crawl_libraries) (W := world)
           [sitemap_url] 10 30 one_to_two 3 [] (Returned crawl_results) crawl.2).
  exact crawl_ran.
Defined.

End FurtherOnExamples.
